(** * EVE Task Manager: dependency graph and task life cycle

    A shallow embedding of [src/core/task.py] and [src/core/task_manager.py].

    Conventions of the embedding.
    - A Python [str] is a [string] (any injective coding of its code points
      into bytes, UTF-8 for one).  The functions of the Python library that
      [_normalize_tag] and [list_tasks] apply to text of the user,
      [re.sub(r'\s+', ' ', _)], [str.strip] and [str.lower], are the fields
      of the class [TextLib], a parameter of every definition that calls
      them; what the theorems need of them is collected in [TextLaws].
      Module [Text] holds their tables for ASCII text; they make the
      instance [ascii_text], on which the sample computations run.
      [str.upper] is only ever compared with ["N/A"], and only the four
      ASCII spellings of it upper-case to that text, so the ASCII table of
      [Text.upper] decides the comparison for every text.
    - A [Task] instance is a mutable object.  The manager keeps every object
      in two containers, the list [self.tasks] and the dict [self._task_map],
      so objects live in a [heap] and both containers hold locations.
      Mutating a task is an update of the heap cell; nothing is ever freed.
    - A Python [set] of strings is a [gset string]; a loop over it runs over
      [elements], one fixed enumeration of the set.
    - [datetime.datetime.now()] and [uuid.uuid4()] are read by the caller and
      passed in ([now], [uuid]), one reading per call;
      [datetime.strptime] is a section variable.
    - [print] appends a [Msg] to the output of the operation; the writes of
      [save_tasks] leave the in-memory registry untouched and are not
      recorded.
    - The recursion of [_check_circular_dependency] is bounded by a fuel
      argument; [check_circular_total] shows that the bound used is never
      reached. *)

From Stdlib Require Import Ascii String.
From stdpp Require Import gmap strings list fin_maps fin_sets relations sorting.

(** ** Text *)

Module Text.

(** [str.isspace] and the regular expression class [\s], on ASCII. *)
Definition isspace (c : ascii) : bool :=
  let n := nat_of_ascii c in
  ((9 <=? n) && (n <=? 13)) || ((28 <=? n) && (n <=? 32)).

Definition lower_char (c : ascii) : ascii :=
  let n := nat_of_ascii c in
  if (65 <=? n) && (n <=? 90) then ascii_of_nat (n + 32) else c.

Definition upper_char (c : ascii) : ascii :=
  let n := nat_of_ascii c in
  if (97 <=? n) && (n <=? 122) then ascii_of_nat (n - 32) else c.

(** [re.sub(r'\s+', ' ', _)]: [in_run] tells that the previous character
    belonged to a run of white space that was already replaced. *)
Fixpoint sub_spaces (in_run : bool) (l : list ascii) : list ascii :=
  match l with
  | [] => []
  | c :: r =>
      if isspace c
      then (if in_run then sub_spaces true r else " "%char :: sub_spaces true r)
      else c :: sub_spaces false r
  end.

Fixpoint lstrip (l : list ascii) : list ascii :=
  match l with
  | [] => []
  | c :: r => if isspace c then lstrip r else l
  end.

Definition rstrip (l : list ascii) : list ascii := rev (lstrip (rev l)).

(** [str.strip()] *)
Definition strip (l : list ascii) : list ascii := rstrip (lstrip l).

Definition lower (s : string) : string :=
  string_of_list_ascii (map lower_char (list_ascii_of_string s)).

Definition upper (s : string) : string :=
  string_of_list_ascii (map upper_char (list_ascii_of_string s)).

(** The same on [string]s. *)
Definition collapse (s : string) : string :=
  string_of_list_ascii (sub_spaces false (list_ascii_of_string s)).

Definition trim (s : string) : string :=
  string_of_list_ascii (strip (list_ascii_of_string s)).

(** Text without a byte from 128 up. *)
Definition is_ascii (s : string) : bool :=
  forallb (λ c, nat_of_ascii c <? 128) (list_ascii_of_string s).

End Text.

(** The text functions of the Python library that the code applies to the
    text of the user: [re.sub(r'\s+', ' ', _)], [str.strip()] and
    [str.lower()]. *)
Class TextLib := {
  re_sub_spaces : string → string;
  str_strip : string → string;
  str_lower : string → string
}.

(** [TaskManager._normalize_tag]:
    [re.sub(r'\s+', ' ', tag).strip().lower()] *)
Definition _normalize_tag `{TextLib} (tag : string) : string :=
  str_lower (str_strip (re_sub_spaces tag)).

(** The normaliser as the specification words it: trim, collapse the
    interior runs of white space to one space, lower-case. *)
Definition normalize_spec `{TextLib} (text : string) : string :=
  str_lower (re_sub_spaces (str_strip text)).

(** What the theorems on tags use of the library: white space is the same
    for [re] and [str.strip], lower-casing neither makes nor removes white
    space, so each of the three functions undoes nothing of its own work
    and any two of them can be swapped; and on ASCII text they are the
    functions of [Text]. *)
Record TextLaws `{TextLib} : Prop := {
  law_lower_lower x : str_lower (str_lower x) = str_lower x;
  law_strip_strip x : str_strip (str_strip x) = str_strip x;
  law_sub_sub x : re_sub_spaces (re_sub_spaces x) = re_sub_spaces x;
  law_sub_lower x : re_sub_spaces (str_lower x) = str_lower (re_sub_spaces x);
  law_strip_lower x : str_strip (str_lower x) = str_lower (str_strip x);
  law_sub_strip x : re_sub_spaces (str_strip x) = str_strip (re_sub_spaces x);
  law_sub_ascii x : Text.is_ascii x = true → re_sub_spaces x = Text.collapse x;
  law_strip_ascii x : Text.is_ascii x = true → str_strip x = Text.trim x;
  law_lower_ascii x : Text.is_ascii x = true → str_lower x = Text.lower x
}.

(** The ASCII tables as a library: bytes from 128 up pass through
    unchanged. *)
Definition ascii_text : TextLib :=
  {| re_sub_spaces := Text.collapse;
     str_strip := Text.trim;
     str_lower := Text.lower |}.

(** ** Tasks *)

(** Instants and calendar days, as numbers. *)
Abbreviation datetime := nat (only parsing).
Abbreviation date := nat (only parsing).

Inductive Status := Pendente | Concluida.
Inductive Priority := Alta | Media | Baixa.
Inductive Quadrant := Q1 | Q2 | Q3 | Q4.

#[global] Instance Status_eq_dec : EqDecision Status.
Proof. solve_decision. Defined.
#[global] Instance Priority_eq_dec : EqDecision Priority.
Proof. solve_decision. Defined.
#[global] Instance Quadrant_eq_dec : EqDecision Quadrant.
Proof. solve_decision. Defined.

(** Membership tests of [VALID_STATUSES], [VALID_PRIORITIES] and
    [EISENHOWER_QUADRANTS]: the validated text becomes a constructor. *)
Definition status_of_string (s : string) : option Status :=
  if decide (s = "Pendente") then Some Pendente
  else if decide (s = "Concluída") then Some Concluida
  else None.

Definition priority_of_string (s : string) : option Priority :=
  if decide (s = "Alta") then Some Alta
  else if decide (s = "Média") then Some Media
  else if decide (s = "Baixa") then Some Baixa
  else None.

Definition quadrant_of_string (s : string) : option Quadrant :=
  if decide (s = "Q1") then Some Q1
  else if decide (s = "Q2") then Some Q2
  else if decide (s = "Q3") then Some Q3
  else if decide (s = "Q4") then Some Q4
  else None.

Record Task := mkTask {
  task_id : string;
  title : string;
  description : string;
  priority : Priority;
  category : string;
  status : Status;
  creation_date : datetime;
  completion_date : option datetime;
  due_date : option date;
  eisenhower_quadrant : option Quadrant;
  depends_on_ids : gset string;
  projects : gset string;
  contexts : gset string
}.

(** The [ValueError]s raised by [Task.__init__], [Task.update] and
    [TaskManager.add_task], one constructor per message. *)
Inductive ValueError :=
| EmptyTitle
| InvalidPriority (p : string)
| InvalidStatus (s : string)
| InvalidQuadrant (q : string)
| InvalidDateFormat
| DependencyNotFound (dep_id : string)
| WouldCreateCycle (dep_id : string).

(** Arguments of [Task.__init__]; [None] is Python's [None]. *)
Record TaskArgs := mkArgs {
  a_title : string;
  a_description : string;
  a_due_date_str : option string;
  a_priority : string;
  a_category : string;
  a_status : string;
  a_task_id : option string;
  a_creation_date : option datetime;
  a_completion_date : option datetime;
  a_eisenhower_quadrant : option string;
  a_depends_on_ids : option (list string);
  a_projects : option (list string);
  a_contexts : option (list string)
}.

(** [set(xs) if xs else set()] *)
Definition set_or_empty (xs : option (list string)) : gset string :=
  match xs with
  | Some l => list_to_set l
  | None => ∅
  end.

(** [Task.mark_complete] *)
Definition mark_complete (now : datetime) (t : Task) : Task :=
  match status t with
  | Pendente =>
      mkTask (task_id t) (title t) (description t) (priority t) (category t)
        Concluida (creation_date t) (Some now) (due_date t)
        (eisenhower_quadrant t) (depends_on_ids t) (projects t) (contexts t)
  | Concluida => t
  end.

(** [Task.mark_pending] *)
Definition mark_pending (t : Task) : Task :=
  match status t with
  | Concluida =>
      mkTask (task_id t) (title t) (description t) (priority t) (category t)
        Pendente (creation_date t) None (due_date t)
        (eisenhower_quadrant t) (depends_on_ids t) (projects t) (contexts t)
  | Pendente => t
  end.

Definition set_depends_on_ids (d : gset string) (t : Task) : Task :=
  mkTask (task_id t) (title t) (description t) (priority t) (category t)
    (status t) (creation_date t) (completion_date t) (due_date t)
    (eisenhower_quadrant t) d (projects t) (contexts t).

Definition set_projects (p : gset string) (t : Task) : Task :=
  mkTask (task_id t) (title t) (description t) (priority t) (category t)
    (status t) (creation_date t) (completion_date t) (due_date t)
    (eisenhower_quadrant t) (depends_on_ids t) p (contexts t).

Definition set_contexts (c : gset string) (t : Task) : Task :=
  mkTask (task_id t) (title t) (description t) (priority t) (category t)
    (status t) (creation_date t) (completion_date t) (due_date t)
    (eisenhower_quadrant t) (depends_on_ids t) (projects t) c.

Section TaskConstruction.

(** [datetime.datetime.strptime(_, "%Y-%m-%d").date()], [None] when it
    raises. *)
Variable strptime : string → option date.

(** [Task.__init__].  The checks run in the order of the source: title,
    priority, status, quadrant, then the due date; the completion date is
    adjusted to the initial status last. *)
Definition Task_init (uuid : string) (now : datetime) (a : TaskArgs)
  : ValueError + Task :=
  if decide (a_title a = "") then inl EmptyTitle else
  match priority_of_string (a_priority a) with
  | None => inl (InvalidPriority (a_priority a))
  | Some prio =>
  match status_of_string (a_status a) with
  | None => inl (InvalidStatus (a_status a))
  | Some st =>
  match (match a_eisenhower_quadrant a with
         | None => inr None
         | Some q => match quadrant_of_string q with
                     | Some q' => inr (Some q')
                     | None => inl (InvalidQuadrant q)
                     end
         end) with
  | inl e => inl e
  | inr quad =>
  match (match a_due_date_str a with
         | None => inr None
         | Some ds => if decide (ds = "") then inr None
                      else match strptime ds with
                           | Some d => inr (Some d)
                           | None => inl InvalidDateFormat
                           end
         end) with
  | inl e => inl e
  | inr due =>
      inr (mkTask
             (match a_task_id a with
              | Some i => if decide (i = "") then uuid else i
              | None => uuid
              end)
             (a_title a) (a_description a) prio (a_category a) st
             (default now (a_creation_date a))
             (match st with
              | Concluida => Some (default now (a_completion_date a))
              | Pendente => None
              end)
             due quad
             (set_or_empty (a_depends_on_ids a))
             (set_or_empty (a_projects a))
             (set_or_empty (a_contexts a)))
  end end end end.

End TaskConstruction.

(** ** [Task.update] *)

(** The keyword arguments of [Task.update]: the outer [option] tells whether
    the key is present, an inner one is a value that may be [None]. *)
Record Updates := mkUpdates {
  u_title : option string;
  u_description : option string;
  u_due_date_str : option (option string);
  u_priority : option string;
  u_category : option string;
  u_status : option string;
  u_eisenhower_quadrant : option (option string);
  u_depends_on_ids : option (option (list string));
  u_projects : option (option (list string));
  u_contexts : option (option (list string))
}.

Definition set_title (x : string) (t : Task) : Task :=
  mkTask (task_id t) x (description t) (priority t) (category t)
    (status t) (creation_date t) (completion_date t) (due_date t)
    (eisenhower_quadrant t) (depends_on_ids t) (projects t) (contexts t).

Definition set_description (x : string) (t : Task) : Task :=
  mkTask (task_id t) (title t) x (priority t) (category t)
    (status t) (creation_date t) (completion_date t) (due_date t)
    (eisenhower_quadrant t) (depends_on_ids t) (projects t) (contexts t).

Definition set_priority (x : Priority) (t : Task) : Task :=
  mkTask (task_id t) (title t) (description t) x (category t)
    (status t) (creation_date t) (completion_date t) (due_date t)
    (eisenhower_quadrant t) (depends_on_ids t) (projects t) (contexts t).

Definition set_category (x : string) (t : Task) : Task :=
  mkTask (task_id t) (title t) (description t) (priority t) x
    (status t) (creation_date t) (completion_date t) (due_date t)
    (eisenhower_quadrant t) (depends_on_ids t) (projects t) (contexts t).

Definition set_due_date (x : option date) (t : Task) : Task :=
  mkTask (task_id t) (title t) (description t) (priority t) (category t)
    (status t) (creation_date t) (completion_date t) x
    (eisenhower_quadrant t) (depends_on_ids t) (projects t) (contexts t).

Definition set_eisenhower_quadrant (x : option Quadrant) (t : Task) : Task :=
  mkTask (task_id t) (title t) (description t) (priority t) (category t)
    (status t) (creation_date t) (completion_date t) (due_date t)
    x (depends_on_ids t) (projects t) (contexts t).

(** A method body that mutates [self] and may raise: the object as it is
    when the body ends, and the exception if one was raised.  Statements
    before a [raise] keep their effect. *)
Definition Mut := Task → Task * option ValueError.

Definition mut_ok (f : Task → Task) : Mut := λ t, (f t, None).
Definition mut_raise (e : ValueError) : Mut := λ t, (t, Some e).
Definition mut_skip : Mut := λ t, (t, None).
Definition mut_seq (f g : Mut) : Mut :=
  λ t, match f t with
       | (t', None) => g t'
       | (t', Some e) => (t', Some e)
       end.
Definition mut_when {A} (o : option A) (f : A → Mut) : Mut :=
  match o with
  | Some a => f a
  | None => mut_skip
  end.

(** A property of the object that a body keeps, also when it raises. *)
Definition mut_preserves (P : Task → Prop) (f : Mut) : Prop :=
  ∀ t, P t → P (f t).1.

(** The statements of a body, run in order up to the first [raise]. *)
Definition mut_all (body : list Mut) : Mut := foldr mut_seq mut_skip body.

Section TaskUpdate.

Variable strptime : string → option date.

Definition update (now : datetime) (u : Updates) : Mut :=
  mut_all [
  mut_when (u_title u) (λ x,
    if decide (x = "") then mut_raise EmptyTitle else mut_ok (set_title x));
  mut_when (u_description u) (λ x, mut_ok (set_description x));
  mut_when (u_due_date_str u) (λ x,
    match x with
    | None => mut_ok (set_due_date None)
    | Some ds =>
        if decide (ds = "") then mut_ok (set_due_date None)
        else if decide (Text.upper ds = "N/A") then mut_ok (set_due_date None)
        else match strptime ds with
             | Some d => mut_ok (set_due_date (Some d))
             | None => mut_raise InvalidDateFormat
             end
    end);
  mut_when (u_priority u) (λ x,
    match priority_of_string x with
    | Some p => mut_ok (set_priority p)
    | None => mut_raise (InvalidPriority x)
    end);
  mut_when (u_category u) (λ x, mut_ok (set_category x));
  mut_when (u_status u) (λ x,
    match status_of_string x with
    | None => mut_raise (InvalidStatus x)
    | Some Concluida => mut_ok (mark_complete now)
    | Some Pendente => mut_ok mark_pending
    end);
  mut_when (u_eisenhower_quadrant u) (λ x,
    match x with
    | None => mut_ok (set_eisenhower_quadrant None)
    | Some q => match quadrant_of_string q with
                | Some q' => mut_ok (set_eisenhower_quadrant (Some q'))
                | None => mut_raise (InvalidQuadrant q)
                end
    end);
  mut_when (u_depends_on_ids u) (λ x, mut_ok (set_depends_on_ids (set_or_empty x)));
  mut_when (u_projects u) (λ x, mut_ok (set_projects (set_or_empty x)));
  mut_when (u_contexts u) (λ x, mut_ok (set_contexts (set_or_empty x)))
  ].

End TaskUpdate.

(** ** The registry *)

(** Locations of objects: indices into the heap. *)
Abbreviation loc := nat (only parsing).

(** [TaskManager]: the objects, [self.tasks] and [self._task_map]. *)
Record TaskManager := mkTM {
  heap : list Task;
  tasks : list loc;
  _task_map : gmap string loc
}.

(** What the manager prints, one constructor per message of the source;
    a message built by a loop carries the list the loop prints. *)
Inductive Msg :=
| ErrCreate (e : ValueError)
| ErrUpdateNotFound (id : string)
| ErrUpdate (e : ValueError)
| ErrDeleteNotFound (id : string)
| ErrHasDependents (id : string) (blocking : list string)
| ErrCheckNotFound (id : string)
| WarnMissingDependencies (id : string) (missing : list string)
| ErrIncompleteDependencies (id : string) (incomplete : list (string * string))
| InfoAlreadyComplete (id : string)
| ErrNotFound (id : string)
| InfoAlreadyPending (id : string)
| ErrWouldInvalidate (id : string) (blocked : list (string * string))
| ErrDependencyNotFound (id : string)
| ErrSelfDependency
| InfoAlreadyDepends (id dep : string)
| ErrCycle (id dep : string)
| InfoDependencyAdded (id dep : string)
| ErrNotDependent (id dep : string)
| InfoDependencyRemoved (id dep : string)
| ErrInvalidTag (tag_type : string)
| InfoTagAlready (id tag_type tag : string)
| InfoTagAdded (id tag_type tag : string)
| ErrTagNotPresent (id tag_type tag : string)
| InfoTagRemoved (id tag_type tag : string).

(** The result of a call: the value returned, the lines printed and the
    manager afterwards. *)
Record Res (A : Type) := mkRes {
  ret : A;
  out : list Msg;
  st : TaskManager
}.
Arguments mkRes {A} _ _ _.
Arguments ret {A} _.
Arguments out {A} _.
Arguments st {A} _.

(** A call that may end in an exception. *)
Inductive Outcome (A : Type) :=
| Returned (a : A)
| Raised (e : ValueError)
| RaisedNotInList.
Arguments Returned {A} _.
Arguments Raised {A} _.
Arguments RaisedNotInList {A}.

(** [TaskManager.get_task_by_id]: the object found under the id, as its
    location and its present content. *)
Definition get_task_by_id (s : TaskManager) (id : string) : option (loc * Task) :=
  match _task_map s !! id with
  | Some l => match heap s !! l with
              | Some t => Some (l, t)
              | None => None
              end
  | None => None
  end.

(** Assignment to the fields of the object at [l]. *)
Definition store (s : TaskManager) (l : loc) (t : Task) : TaskManager :=
  mkTM (<[l := t]> (heap s)) (tasks s) (_task_map s).

(** The objects of [self.tasks], in list order. *)
Definition all_tasks (s : TaskManager) : list Task :=
  omap (λ l, heap s !! l) (tasks s).

(** [list.remove]: drops the first occurrence, [None] when there is none
    (Python raises [ValueError]). *)
Fixpoint list_remove (l : loc) (ls : list loc) : option (list loc) :=
  match ls with
  | [] => None
  | x :: r => if decide (x = l) then Some r
              else match list_remove l r with
                   | Some r' => Some (x :: r')
                   | None => None
                   end
  end.

(** ** Cycle detection *)

(** The [for] loop of [_check_circular_dependency] over the dependencies of
    one task; [rec] is the recursive call, [None] an unfinished search. *)
Definition dfs_loop (rec : string → option bool) (task_id : string)
    (visited : gset string) : list string → option bool :=
  fix loop (deps : list string) : option bool :=
    match deps with
    | [] => Some false
    | x :: rest =>
        if decide (x = task_id) then Some true
        else if decide (x ∈ visited) then loop rest
        else match rec x with
             | Some true => Some true
             | Some false => loop rest
             | None => None
             end
    end.

(** [_check_circular_dependency] with a bound on the depth of the recursion.
    Every recursive call receives its own copy of [visited], which already
    holds [dependency_id]. *)
Fixpoint check_circular (fuel : nat) (s : TaskManager)
    (task_id dependency_id : string) (visited : gset string) : option bool :=
  match fuel with
  | 0 => None
  | S fuel' =>
      match get_task_by_id s dependency_id with
      | None => Some false
      | Some (_, task) =>
          let visited' := {[dependency_id]} ∪ visited in
          dfs_loop (λ x, check_circular fuel' s task_id x visited')
            task_id visited' (elements (depends_on_ids task))
      end
  end.

(** [TaskManager._check_circular_dependency], called with [visited=None].
    The depth never exceeds the number of registered ids
    ([check_circular_total]), so the default is never taken. *)
Definition _check_circular_dependency (s : TaskManager)
    (task_id dependency_id : string) : bool :=
  default false
    (check_circular (S (size (_task_map s))) s task_id dependency_id ∅).

(** ** Operations of [TaskManager] *)

(** Parameters of [TaskManager.add_task]. *)
Record NewTask := mkNewTask {
  n_title : string;
  n_description : string;
  n_due_date_str : option string;
  n_priority : string;
  n_category : string;
  n_eisenhower_quadrant : option string;
  n_depends_on_ids : option (list string);
  n_projects : option (list string);
  n_contexts : option (list string)
}.

(** [{self._normalize_tag(p) for p in ps if p} if ps else set()] *)
Definition normalize_tags `{TextLib} (ps : option (list string)) : list string :=
  match ps with
  | Some l => map _normalize_tag (filter (λ p, p ≠ "") l)
  | None => []
  end.

(** The validation loop of [add_task]: stops at the first dependency that
    is unknown or would close a cycle. *)
Fixpoint check_new_dependencies (s : TaskManager) (temp_task_id : string)
    (deps : list string) : option ValueError :=
  match deps with
  | [] => None
  | dep_id :: rest =>
      match _task_map s !! dep_id with
      | None => Some (DependencyNotFound dep_id)
      | Some _ =>
          if _check_circular_dependency s temp_task_id dep_id
          then Some (WouldCreateCycle dep_id)
          else check_new_dependencies s temp_task_id rest
      end
  end.

(** [__init__]: [self.tasks] is the loaded list and [_task_map] the dict
    comprehension over it (a later task with the same id wins). *)
Definition index_of (h : list Task) (ls : list loc) : gmap string loc :=
  foldl (λ m l, match h !! l with
                | Some t => <[task_id t := l]> m
                | None => m
                end) ∅ ls.

Definition TaskManager_init (loaded : list Task) : TaskManager :=
  mkTM loaded (seq 0 (length loaded)) (index_of loaded (seq 0 (length loaded))).

Section Operations.

Context {text : TextLib}.
Variable strptime : string → option date.

(** [FileStorage.load_tasks] on the decoded records of the file, each with
    the uuid and the clock reading its construction would draw: a record
    whose construction raises is skipped. *)
Definition load_tasks (file : list (string * datetime * TaskArgs)) : list Task :=
  omap (λ '(uuid, now, a), match Task_init strptime uuid now a with
                           | inr t => Some t
                           | inl _ => None
                           end) file.

(** [TaskManager.add_task]; [uuid] is the value of [str(uuid.uuid4())]. *)
Definition add_task (uuid : string) (now : datetime) (s : TaskManager)
    (n : NewTask) : Res (Outcome loc) :=
  let temp_task_id := uuid in
  match check_new_dependencies s temp_task_id (default [] (n_depends_on_ids n)) with
  | Some e => mkRes (Raised e) [] s
  | None =>
      match Task_init strptime uuid now
              (mkArgs (n_title n) (n_description n) (n_due_date_str n)
                 (n_priority n) (n_category n) "Pendente" (Some temp_task_id)
                 None None (n_eisenhower_quadrant n) (n_depends_on_ids n)
                 (Some (normalize_tags (n_projects n)))
                 (Some (normalize_tags (n_contexts n)))) with
      | inl e => mkRes (Raised e) [ErrCreate e] s
      | inr new_task =>
          let l := length (heap s) in
          mkRes (Returned l) []
            (mkTM (heap s ++ [new_task]) (tasks s ++ [l])
               (<[task_id new_task := l]> (_task_map s)))
      end
  end.

(** [TaskManager.can_complete_task] *)
Definition can_complete_task (s : TaskManager) (id : string) : Res bool :=
  match get_task_by_id s id with
  | None => mkRes false [ErrCheckNotFound id] s
  | Some (l, task) =>
      let deps := elements (depends_on_ids task) in
      let missing_deps :=
        filter (λ d, get_task_by_id s d = None) deps in
      let incomplete_deps :=
        omap (λ d, match get_task_by_id s d with
                   | Some (_, dt) =>
                       if decide (status dt = Pendente)
                       then Some (title dt, d) else None
                   | None => None
                   end) deps in
      let pruned :=
        match missing_deps with
        | [] => mkRes tt [] s
        | _ :: _ =>
            mkRes tt [WarnMissingDependencies id missing_deps]
              (store s l (set_depends_on_ids
                            (depends_on_ids task ∖ list_to_set missing_deps) task))
        end in
      match incomplete_deps with
      | [] => mkRes true (out pruned) (st pruned)
      | _ :: _ =>
          mkRes false (out pruned ++ [ErrIncompleteDependencies id incomplete_deps])
            (st pruned)
      end
  end.

(** [TaskManager.mark_task_complete] *)
Definition mark_task_complete (now : datetime) (s : TaskManager) (id : string)
  : Res (option loc) :=
  let c := can_complete_task s id in
  if negb (ret c) then mkRes None (out c) (st c)
  else
    match get_task_by_id (st c) id with
    | Some (l, task) =>
        match status task with
        | Pendente => mkRes (Some l) (out c) (store (st c) l (mark_complete now task))
        | Concluida => mkRes None (out c ++ [InfoAlreadyComplete id]) (st c)
        end
    | None => mkRes None (out c) (st c)
    end.

(** [TaskManager.mark_task_pending] *)
Definition mark_task_pending (s : TaskManager) (id : string) : Res (option loc) :=
  match get_task_by_id s id with
  | None => mkRes None [ErrNotFound id] s
  | Some (l, task) =>
      match status task with
      | Pendente => mkRes None [InfoAlreadyPending id] s
      | Concluida =>
          let blocked_completed_tasks :=
            omap (λ other, if decide (id ∈ depends_on_ids other)
                           then if decide (status other = Concluida)
                                then Some (title other, task_id other)
                                else None
                           else None) (all_tasks s) in
          match blocked_completed_tasks with
          | _ :: _ => mkRes None [ErrWouldInvalidate id blocked_completed_tasks] s
          | [] => mkRes (Some l) [] (store s l (mark_pending task))
          end
      end
  end.

(** [TaskManager.delete_task] *)
Definition delete_task (s : TaskManager) (id : string) : Res (Outcome bool) :=
  match get_task_by_id s id with
  | None => mkRes (Returned false) [ErrDeleteNotFound id] s
  | Some (l, _) =>
      let blocking_tasks :=
        omap (λ task, if decide (id ∈ depends_on_ids task)
                      then Some (task_id task) else None) (all_tasks s) in
      match blocking_tasks with
      | _ :: _ => mkRes (Returned false) [ErrHasDependents id blocking_tasks] s
      | [] =>
          match list_remove l (tasks s) with
          | None => mkRes RaisedNotInList [] s
          | Some tasks' =>
              mkRes (Returned true) []
                (mkTM (heap s) tasks' (delete id (_task_map s)))
          end
      end
  end.

(** [TaskManager.add_dependency] *)
Definition add_dependency (s : TaskManager) (id dependency_id : string) : Res bool :=
  match get_task_by_id s id, get_task_by_id s dependency_id with
  | None, _ => mkRes false [ErrNotFound id] s
  | Some _, None => mkRes false [ErrDependencyNotFound dependency_id] s
  | Some (l, task), Some _ =>
      if decide (id = dependency_id) then mkRes false [ErrSelfDependency] s
      else if decide (dependency_id ∈ depends_on_ids task)
      then mkRes true [InfoAlreadyDepends id dependency_id] s
      else if _check_circular_dependency s id dependency_id
      then mkRes false [ErrCycle id dependency_id] s
      else mkRes true [InfoDependencyAdded id dependency_id]
             (store s l (set_depends_on_ids
                           ({[dependency_id]} ∪ depends_on_ids task) task))
  end.

(** [TaskManager.remove_dependency] *)
Definition remove_dependency (s : TaskManager) (id dependency_id : string) : Res bool :=
  match get_task_by_id s id with
  | None => mkRes false [ErrNotFound id] s
  | Some (l, task) =>
      if decide (dependency_id ∈ depends_on_ids task)
      then mkRes true [InfoDependencyRemoved id dependency_id]
             (store s l (set_depends_on_ids
                           (depends_on_ids task ∖ {[dependency_id]}) task))
      else mkRes false [ErrNotDependent id dependency_id] s
  end.

(** [task.projects if tag_type == "projeto" else task.contexts] *)
Definition tag_set (tag_type : string) (t : Task) : gset string :=
  if decide (tag_type = "projeto") then projects t else contexts t.

Definition set_tag_set (tag_type : string) (x : gset string) (t : Task) : Task :=
  if decide (tag_type = "projeto") then set_projects x t else set_contexts x t.

(** [TaskManager._add_tag_to_task] *)
Definition _add_tag_to_task (s : TaskManager) (id tag tag_type : string) : Res bool :=
  match get_task_by_id s id with
  | None => mkRes false [ErrNotFound id] s
  | Some (l, task) =>
      let normalized_tag := _normalize_tag tag in
      if decide (normalized_tag = "") then mkRes false [ErrInvalidTag tag_type] s
      else if decide (normalized_tag ∈ tag_set tag_type task)
      then mkRes true [InfoTagAlready id tag_type normalized_tag] s
      else mkRes true [InfoTagAdded id tag_type normalized_tag]
             (store s l (set_tag_set tag_type
                           ({[normalized_tag]} ∪ tag_set tag_type task) task))
  end.

(** [TaskManager._remove_tag_from_task] *)
Definition _remove_tag_from_task (s : TaskManager) (id tag tag_type : string) : Res bool :=
  match get_task_by_id s id with
  | None => mkRes false [ErrNotFound id] s
  | Some (l, task) =>
      let normalized_tag := _normalize_tag tag in
      if decide (normalized_tag ∈ tag_set tag_type task)
      then mkRes true [InfoTagRemoved id tag_type normalized_tag]
             (store s l (set_tag_set tag_type
                           (tag_set tag_type task ∖ {[normalized_tag]}) task))
      else mkRes false [ErrTagNotPresent id tag_type normalized_tag] s
  end.

Definition add_project_to_task (s : TaskManager) (id project_name : string) :=
  _add_tag_to_task s id project_name "projeto".
Definition remove_project_from_task (s : TaskManager) (id project_name : string) :=
  _remove_tag_from_task s id project_name "projeto".
Definition add_context_to_task (s : TaskManager) (id context_name : string) :=
  _add_tag_to_task s id context_name "contexto".
Definition remove_context_from_task (s : TaskManager) (id context_name : string) :=
  _remove_tag_from_task s id context_name "contexto".

(** [updates.pop] of the three keys that [update_task] refuses. *)
Definition pop_collections (u : Updates) : Updates :=
  mkUpdates (u_title u) (u_description u) (u_due_date_str u) (u_priority u)
    (u_category u) (u_status u) (u_eisenhower_quadrant u) None None None.

(** [TaskManager.update_task] *)
Definition update_task (now : datetime) (s : TaskManager) (id : string)
    (u : Updates) : Res (Outcome (option loc)) :=
  match get_task_by_id s id with
  | None => mkRes (Returned None) [ErrUpdateNotFound id] s
  | Some (l, task) =>
      let c := if decide (u_status u = Some "Concluída")
               then if decide (status task = Pendente)
                    then can_complete_task s id
                    else mkRes true [] s
               else mkRes true [] s in
      if negb (ret c) then mkRes (Returned None) (out c) (st c)
      else
        match heap (st c) !! l with
        | None => mkRes (Returned None) (out c) (st c)
        | Some task' =>
            match update strptime now (pop_collections u) task' with
            | (task'', None) => mkRes (Returned (Some l)) (out c) (store (st c) l task'')
            | (task'', Some e) =>
                mkRes (Raised e) (out c ++ [ErrUpdate e]) (store (st c) l task'')
            end
        end
  end.

End Operations.

(** ** Commands *)

(** The calls a client can make on a [TaskManager]. *)
Inductive Command :=
| AddTask (uuid : string) (now : datetime) (n : NewTask)
| UpdateTask (now : datetime) (id : string) (u : Updates)
| DeleteTask (id : string)
| CanCompleteTask (id : string)
| MarkTaskComplete (now : datetime) (id : string)
| MarkTaskPending (id : string)
| AddDependency (id dependency_id : string)
| RemoveDependency (id dependency_id : string)
| AddProject (id project_name : string)
| RemoveProject (id project_name : string)
| AddContext (id context_name : string)
| RemoveContext (id context_name : string).

Section Commands.

Context {text : TextLib}.
Variable strptime : string → option date.

(** The manager after a call. *)
Definition exec (c : Command) (s : TaskManager) : TaskManager :=
  match c with
  | AddTask uuid now n => st (add_task strptime uuid now s n)
  | UpdateTask now id u => st (update_task strptime now s id u)
  | DeleteTask id => st (delete_task s id)
  | CanCompleteTask id => st (can_complete_task s id)
  | MarkTaskComplete now id => st (mark_task_complete now s id)
  | MarkTaskPending id => st (mark_task_pending s id)
  | AddDependency id d => st (add_dependency s id d)
  | RemoveDependency id d => st (remove_dependency s id d)
  | AddProject id p => st (add_project_to_task s id p)
  | RemoveProject id p => st (remove_project_from_task s id p)
  | AddContext id c => st (add_context_to_task s id c)
  | RemoveContext id c => st (remove_context_from_task s id c)
  end.

End Commands.

(** ** The dependency graph *)

(** [edge s a b]: the task registered under [a] lists [b] in
    [depends_on_ids]. *)
Definition edge (s : TaskManager) (a b : string) : Prop :=
  ∃ l t, get_task_by_id s a = Some (l, t) ∧ b ∈ depends_on_ids t.

(** [b] can be reached from [a] along one or more edges. *)
Definition reaches (s : TaskManager) : relation string := tc (edge s).

Definition acyclic (s : TaskManager) : Prop := ∀ x, ¬ reaches s x x.

(** A path whose inner nodes stay out of [V]. *)
Inductive path_avoiding (s : TaskManager) (V : gset string) : relation string :=
| pa_edge a b : edge s a b → path_avoiding s V a b
| pa_step a x b :
    edge s a x → x ∉ V → path_avoiding s V x b → path_avoiding s V a b.

(** The index agrees with the list: what the dict comprehension of
    [__init__] and [_update_task_map] builds when ids are distinct.  Every
    entry of the index points to an object of the list that carries the
    key as its [task_id], every object of the list is found under its
    [task_id], and no object is listed twice. *)
Definition consistent (s : TaskManager) : Prop :=
  map_Forall (λ id l, l ∈ tasks s ∧ task_id <$> heap s !! l = Some id)
    (_task_map s) ∧
  Forall (λ l, heap s !! l ≫= (λ t, _task_map s !! task_id t) = Some l)
    (tasks s) ∧
  NoDup (tasks s).

#[global] Instance consistent_dec s : Decision (consistent s).
Proof. unfold consistent. apply _. Defined.

(** A test for cycles: no registered id reaches itself. *)
Definition acyclicb (s : TaskManager) : bool :=
  forallb (λ x, negb (_check_circular_dependency s x x))
    (elements (dom (_task_map s))).

(** A run of [add_dependency] calls, each on the registry the previous one
    left. *)
Definition add_dependencies (s : TaskManager) (calls : list (string * string))
  : TaskManager :=
  foldl (λ s' c, st (add_dependency s' c.1 c.2)) s calls.

(** [d] is a dependency of [task] that resolves to a pending task. *)
Definition pending_dependency (s : TaskManager) (task : Task) (d : string) : Prop :=
  d ∈ depends_on_ids task ∧
  ∃ l dt, get_task_by_id s d = Some (l, dt) ∧ status dt = Pendente.

(** The dependencies of [task] that resolve to a registered task. *)
Definition live_dependencies (s : TaskManager) (task : Task) : gset string :=
  filter (λ d, is_Some (get_task_by_id s d)) (depends_on_ids task).

(** [other] resolves to a completed task that lists [id] in
    [depends_on_ids]. *)
Definition completed_dependent (s : TaskManager) (id other : string) : Prop :=
  ∃ l o, get_task_by_id s other = Some (l, o) ∧
         status o = Concluida ∧ id ∈ depends_on_ids o.

(** [other] resolves to a task that lists [id] in [depends_on_ids]. *)
Definition dependent (s : TaskManager) (id other : string) : Prop :=
  ∃ l o, get_task_by_id s other = Some (l, o) ∧ id ∈ depends_on_ids o.

(** A requested dependency that [add_task] accepts for the provisional id
    [temp_task_id]: it is registered and the provisional id cannot be
    reached from it. *)
Definition dependency_passes (s : TaskManager) (temp_task_id d : string) : Prop :=
  is_Some (_task_map s !! d) ∧ ¬ reaches s d temp_task_id.

(** The errors of [Task.__init__] that [add_task] can meet. *)
Definition field_validation_error (n : NewTask) (e : ValueError) : Prop :=
  e = EmptyTitle ∨ e = InvalidPriority (n_priority n) ∨
  (∃ q, n_eisenhower_quadrant n = Some q ∧ e = InvalidQuadrant q) ∨
  e = InvalidDateFormat.

(** [completion_date] is set exactly on the completed tasks. *)
Definition timestamp_ok (t : Task) : Prop :=
  is_Some (completion_date t) ↔ status t = Concluida.

#[global] Instance timestamp_ok_dec t : Decision (timestamp_ok t).
Proof. unfold timestamp_ok. apply _. Defined.

(** Every task object of the manager has a consistent completion date. *)
Definition timestamps_ok (s : TaskManager) : Prop :=
  Forall timestamp_ok (heap s).

#[global] Instance timestamps_ok_dec s : Decision (timestamps_ok s).
Proof. unfold timestamps_ok. apply _. Defined.

(** ** Sample registries *)

Section Samples.

#[local] Existing Instance ascii_text.

(** A task as [Task.from_dict] restores it: titled by its id, completed at
    instant [0] when its status says so. *)
Definition sample_task (id : string) (st : Status) (deps : list string) : Task :=
  mkTask id id "" Media "Geral" st 0
    (match st with Concluida => Some 0 | Pendente => None end)
    None None (list_to_set deps) ∅ ∅.

(** No task at all: the manager of a fresh installation. *)
Definition registry_empty : TaskManager := TaskManager_init [].

(** A depends on B, B depends on C. *)
Definition registry_chain : TaskManager :=
  TaskManager_init
    [sample_task "A" Pendente ["B"]; sample_task "B" Pendente ["C"];
     sample_task "C" Pendente []].

(** A depends on B and C; B is completed, C is pending. *)
Definition registry_blocked : TaskManager :=
  TaskManager_init
    [sample_task "A" Pendente ["B"; "C"]; sample_task "B" Concluida [];
     sample_task "C" Pendente []].

(** A and B are completed and B depends on A. *)
Definition registry_done : TaskManager :=
  TaskManager_init
    [sample_task "A" Concluida []; sample_task "B" Concluida ["A"]].

(** A registry built through the operations alone: A and B are added, A is
    completed, and only then A is made to depend on B, which is pending. *)
Definition registry_late_dependency : TaskManager :=
  let new title := mkNewTask title "" None "Média" "Geral" None None None None in
  let s1 := st (add_task (λ _, None) "A" 1 registry_empty (new "a")) in
  let s2 := st (add_task (λ _, None) "B" 2 s1 (new "b")) in
  let s3 := st (mark_task_complete 3 s2 "A") in
  st (add_dependency s3 "A" "B").

(** A request for a task that depends on A and on an id that is not
    registered. *)
Definition request_unknown_dependency : NewTask :=
  mkNewTask "d" "" None "Média" "Geral" None (Some ["A"; "Z"]) None None.

(** A is added without dependencies, then B depending on A. *)
Definition registry_pair : TaskManager :=
  let new title deps := mkNewTask title "" None "Média" "Geral" None deps None None in
  let s1 := st (add_task (λ _, None) "A" 1 registry_empty (new "a" None)) in
  st (add_task (λ _, None) "B" 2 s1 (new "b" (Some ["A"]))).

End Samples.
(** ** Persistence: [Task.to_dict], [Task.from_dict] and [FileStorage] *)

(** The text a validated field holds. *)
Definition string_of_status (st : Status) : string :=
  match st with Pendente => "Pendente" | Concluida => "Concluída" end.

Definition string_of_priority (p : Priority) : string :=
  match p with Alta => "Alta" | Media => "Média" | Baixa => "Baixa" end.

Definition string_of_quadrant (q : Quadrant) : string :=
  match q with Q1 => "Q1" | Q2 => "Q2" | Q3 => "Q3" | Q4 => "Q4" end.

(** A record of the JSON file.  [None] is a key that is missing; for the
    keys that [to_dict] may write as [null] (["due_date"],
    ["completion_date"], ["eisenhower_quadrant"]) and for ["task_id"] and
    ["creation_date"], which [from_dict] reads without a default, it is
    also a key that holds [null].  A key that is present holds a value of
    the type [to_dict] writes. *)
Record TaskDict := mkDict {
  d_task_id : option string;
  d_title : option string;
  d_description : option string;
  d_due_date : option string;
  d_priority : option string;
  d_category : option string;
  d_status : option string;
  d_creation_date : option string;
  d_completion_date : option string;
  d_eisenhower_quadrant : option string;
  d_depends_on_ids : option (list string);
  d_projects : option (list string);
  d_contexts : option (list string)
}.

(** What [Task.from_dict] can raise: the [KeyError] of [data["title"]], the
    [ValueError] of [datetime.fromisoformat], and those of [Task.__init__]. *)
Inductive LoadError :=
| KeyErrorTitle
| BadIsoFormat
| Invalid (e : ValueError).

Section Persistence.

(** [date.isoformat], [datetime.isoformat], [datetime.fromisoformat]
    ([None] when it raises) and [datetime.strptime(_, "%Y-%m-%d").date()]. *)
Variable date_isoformat : date → string.
Variable datetime_isoformat : datetime → string.
Variable fromisoformat : string → option datetime.
Variable strptime : string → option date.

(** [Task.to_dict] *)
Definition to_dict (t : Task) : TaskDict :=
  mkDict (Some (task_id t)) (Some (title t)) (Some (description t))
    (date_isoformat <$> due_date t)
    (Some (string_of_priority (priority t)))
    (Some (category t))
    (Some (string_of_status (status t)))
    (Some (datetime_isoformat (creation_date t)))
    (datetime_isoformat <$> completion_date t)
    (string_of_quadrant <$> eisenhower_quadrant t)
    (Some (elements (depends_on_ids t)))
    (Some (elements (projects t)))
    (Some (elements (contexts t))).

(** [datetime.fromisoformat(data[k]) if data.get(k) else None] *)
Definition parse_datetime (o : option string) : option (option datetime) :=
  match o with
  | None => Some None
  | Some x => if decide (x = "") then Some None
              else match fromisoformat x with
                   | Some d => Some (Some d)
                   | None => None
                   end
  end.

(** [Task.from_dict]: the arguments are evaluated in the order they are
    written, then [Task.__init__] runs. *)
Definition from_dict (uuid : string) (now : datetime) (d : TaskDict)
  : LoadError + Task :=
  match d_title d with
  | None => inl KeyErrorTitle
  | Some title =>
      match parse_datetime (d_creation_date d) with
      | None => inl BadIsoFormat
      | Some creation =>
          match parse_datetime (d_completion_date d) with
          | None => inl BadIsoFormat
          | Some completion =>
              match Task_init strptime uuid now
                      (mkArgs title (default "" (d_description d)) (d_due_date d)
                         (default "Média" (d_priority d))
                         (default "Geral" (d_category d))
                         (default "Pendente" (d_status d))
                         (d_task_id d) creation completion
                         (d_eisenhower_quadrant d)
                         (Some (default [] (d_depends_on_ids d)))
                         (Some (default [] (d_projects d)))
                         (Some (default [] (d_contexts d)))) with
              | inl e => inl (Invalid e)
              | inr t => inr t
              end
          end
      end
  end.


(** [FileStorage.load_tasks] on the records [json.load] returns, each with
    the uuid and the clock reading its construction would draw: a record
    that raises [ValueError] or [KeyError] is skipped. *)
Definition load_file (file : list (string * datetime * TaskDict)) : list Task :=
  omap (λ '(uuid, now, d), match from_dict uuid now d with
                           | inr t => Some t
                           | inl _ => None
                           end) file.

End Persistence.

(** A task that [to_dict] and [from_dict] carry over unchanged. *)
Definition storable (t : Task) : Prop :=
  title t ≠ "" ∧ task_id t ≠ "" ∧ timestamp_ok t.

#[global] Instance storable_dec t : Decision (storable t).
Proof. unfold storable. apply _. Defined.

(** Sample codecs for instants and days: [n] is written as [n] strokes. *)
Definition strokes (n : nat) : string := string_of_list_ascii (replicate n "I"%char).
Definition count_strokes (s : string) : nat := String.length s.
Definition sample_date_isoformat (d : date) : string := "D" +:+ strokes d.
Definition sample_strptime (s : string) : option date :=
  match s with
  | String "D" r => Some (count_strokes r)
  | _ => None
  end.
Definition sample_datetime_isoformat (d : datetime) : string := "T" +:+ strokes d.
Definition sample_fromisoformat (s : string) : option datetime :=
  match s with
  | String "T" r => Some (count_strokes r)
  | _ => None
  end.

(** ** [TaskManager.list_tasks] *)

Section Listing.

Context {text : TextLib}.

(** The keys of the [filters] dict; [None] is a key that is absent. *)
Record Filters := mkFilters {
  f_status : option string;
  f_priority : option string;
  f_category : option string;
  f_due_date : option string;
  f_eisenhower : option string;
  f_project : option string;
  f_context : option string
}.

(** [datetime.date.max], as a day number. *)
Definition date_max : date := 3652 * 1000 + 59.

(** [t.due_date if t.due_date else datetime.date.max] *)
Definition due_key (t : Task) : nat := default date_max (due_date t).

(** [Task.VALID_PRIORITIES.index(t.priority)] *)
Definition priority_key (t : Task) : nat :=
  match priority t with Alta => 0 | Media => 1 | Baixa => 2 end.

(** [quadrant_order.get(t.eisenhower_quadrant, len(quadrant_order))] *)
Definition quadrant_key (t : Task) : nat :=
  match eisenhower_quadrant t with
  | Some Q1 => 0 | Some Q2 => 1 | Some Q3 => 2 | Some Q4 => 3 | None => 4
  end.

(** One list comprehension of [list_tasks]: runs only when the key is in
    [filters]. *)
Definition keep_if (o : option string) (p : string → Task → bool)
    (l : list Task) : list Task :=
  match o with
  | Some v => List.filter (p v) l
  | None => l
  end.

Definition status_filter (v : string) (t : Task) : bool :=
  bool_decide (string_of_status (status t) = v).

Definition priority_filter (v : string) (t : Task) : bool :=
  bool_decide (string_of_priority (priority t) = v).

Definition category_filter (v : string) (t : Task) : bool :=
  bool_decide (str_lower (category t) = str_lower v).

(** The filter on the due date; an unknown kind of filter keeps the list. *)
Definition due_date_filter (today : date) (v : string) (t : Task) : bool :=
  if decide (v = "vencidas") then
    match due_date t with
    | Some d => (d <? today) && bool_decide (status t = Pendente)
    | None => false
    end
  else if decide (v = "hoje") then
    match due_date t with
    | Some d => d =? today
    | None => false
    end
  else if decide (v = "futuras") then
    match due_date t with
    | Some d => today <? d
    | None => false
    end
  else true.

(** The filter on the quadrant; a text that is neither ["None"] nor a
    quadrant keeps the list. *)
Definition eisenhower_filter (v : string) (t : Task) : bool :=
  if decide (v = "None") then bool_decide (eisenhower_quadrant t = None)
  else match quadrant_of_string v with
       | Some q => bool_decide (eisenhower_quadrant t = Some q)
       | None => true
       end.

Definition project_filter (v : string) (t : Task) : bool :=
  bool_decide (_normalize_tag v ∈ (set_map _normalize_tag (projects t) : gset string)).

Definition context_filter (v : string) (t : Task) : bool :=
  bool_decide (_normalize_tag v ∈ (set_map _normalize_tag (contexts t) : gset string)).

(** [list.sort(key=..., reverse=...)].  The sort of Python is stable, and
    a stable sort has one possible result; it is computed here by
    insertion, each element going in front of the first one that must not
    precede it. *)
Fixpoint insert_sorted (le : Task → Task → bool) (x : Task) (l : list Task)
  : list Task :=
  match l with
  | [] => [x]
  | y :: r => if le x y then x :: l else y :: insert_sorted le x r
  end.

Definition key_le (key : Task → nat) (reverse : bool) (a b : Task) : bool :=
  if reverse then key b <=? key a else key a <=? key b.

Definition list_sort (key : Task → nat) (reverse : bool) (l : list Task)
  : list Task :=
  foldr (insert_sorted (key_le key reverse)) [] l.

(** The filters of [list_tasks], in the order of the source. *)
Definition apply_filters (today : date) (f : Filters) (l : list Task) : list Task :=
  keep_if (f_context f) context_filter
    (keep_if (f_project f) project_filter
       (keep_if (f_eisenhower f) eisenhower_filter
          (keep_if (f_due_date f) (due_date_filter today)
             (keep_if (f_category f) category_filter
                (keep_if (f_priority f) priority_filter
                   (keep_if (f_status f) status_filter l)))))).

(** [TaskManager.list_tasks]; [today] is [datetime.date.today()]. *)
Definition list_tasks (today : date) (s : TaskManager) (filters : Filters)
    (sort_by : string) : list Task :=
  let filtered_tasks := apply_filters today filters (all_tasks s) in
  let sorted :=
    if decide (sort_by = "due_date") then list_sort due_key false filtered_tasks
    else if decide (sort_by = "priority") then list_sort priority_key false filtered_tasks
    else if decide (sort_by = "eisenhower") then list_sort quadrant_key false filtered_tasks
    else if decide (sort_by = "creation_date") then list_sort creation_date true filtered_tasks
    else list_sort due_key false filtered_tasks in
  let by_priority :=
    if decide (sort_by = "priority") then sorted
    else list_sort priority_key false sorted in
  if decide (sort_by = "due_date") then by_priority
  else if decide (sort_by = "creation_date") then by_priority
  else list_sort due_key false by_priority.

(** All the filters at once. *)
Definition passes_filters (today : date) (f : Filters) (t : Task) : bool :=
  from_option (λ v, status_filter v t) true (f_status f) &&
  from_option (λ v, priority_filter v t) true (f_priority f) &&
  from_option (λ v, category_filter v t) true (f_category f) &&
  from_option (λ v, due_date_filter today v t) true (f_due_date f) &&
  from_option (λ v, eisenhower_filter v t) true (f_eisenhower f) &&
  from_option (λ v, project_filter v t) true (f_project f) &&
  from_option (λ v, context_filter v t) true (f_context f).

End Listing.

(** What a stable sort by [le] makes of a list that was ordered by
    [prev]: [le] holds, and [prev] still holds between equal elements. *)
Definition after_sort (le : Task → Task → bool) (prev : relation Task)
  : relation Task :=
  λ a b, le a b = true ∧ (le b a = true → prev a b).

(** The order two sorts leave: by [k1], and by [k2] among equal [k1]. *)
Definition lex2 (k1 k2 : Task → nat) (a b : Task) : Prop :=
  k1 a < k1 b ∨ (k1 a = k1 b ∧ k2 a ≤ k2 b).

(** The order three sorts leave. *)
Definition lex3 (k1 k2 k3 : Task → nat) (a b : Task) : Prop :=
  k1 a < k1 b ∨ (k1 a = k1 b ∧ lex2 k2 k3 a b).

(** Tasks with priorities, days and quadrants to list. *)
Definition listed_task (id : string) (p : Priority) (due : option date)
    (q : option Quadrant) (created : datetime) : Task :=
  mkTask id id "" p "Geral" Pendente created None due q ∅ ∅ ∅.

Definition registry_listing : TaskManager :=
  TaskManager_init
    [listed_task "a" Baixa (Some 10) (Some Q2) 1;
     listed_task "b" Alta None None 2;
     listed_task "c" Alta (Some 20) (Some Q1) 3;
     listed_task "d" Media (Some 5) None 4].

(** ** Invariants of the task objects *)

(** Every task object has a title. *)
Definition titles_ok (s : TaskManager) : Prop :=
  Forall (λ t, title t ≠ "") (heap s).

(** The projects and contexts of [t] are in normal form. *)
Definition tags_normal `{TextLib} (t : Task) : Prop :=
  ∀ x, x ∈ projects t ∪ contexts t → _normalize_tag x = x.

(** The arguments [add_task] hands to [Task.__init__]. *)
Definition add_task_args `{TextLib} (uuid : string) (n : NewTask) : TaskArgs :=
  mkArgs (n_title n) (n_description n) (n_due_date_str n)
    (n_priority n) (n_category n) "Pendente" (Some uuid)
    None None (n_eisenhower_quadrant n) (n_depends_on_ids n)
    (Some (normalize_tags (n_projects n)))
    (Some (normalize_tags (n_contexts n))).

(** ** Tags in normal form *)


(** ** Completing the whole registry *)

(** The registered ids that can be reached from [x]. *)
Definition reachable_ids (s : TaskManager) (x : string) : gset string :=
  filter (λ y, _check_circular_dependency s y x = true) (dom (_task_map s)).

Definition is_pending (s : TaskManager) (id : string) : bool :=
  match get_task_by_id s id with
  | Some (_, t) => bool_decide (status t = Pendente)
  | None => false
  end.

Definition pending_ids (s : TaskManager) : gset string :=
  filter (λ id, is_pending s id = true) (dom (_task_map s)).

(** [mark_task_complete] on each id of [ids] in turn; [None] as soon as
    one call returns [None]. *)
Fixpoint complete_all (now : datetime) (s : TaskManager) (ids : list string)
  : option TaskManager :=
  match ids with
  | [] => Some s
  | id :: r =>
      match ret (mark_task_complete now s id) with
      | Some _ => complete_all now (st (mark_task_complete now s id)) r
      | None => None
      end
  end.

(** * Properties of the code, for every text library *)

Section Verified.

Context {text : TextLib}.

(** ** Lookup and assignment *)

Lemma cons_index s :
  consistent s → ∀ id l, _task_map s !! id = Some l →
  l ∈ tasks s ∧ ∃ t, heap s !! l = Some t ∧ task_id t = id.
Proof.
  intros (Hi & _ & _) id l Hm. destruct (Hi _ _ Hm) as [Hin Hh].
  split; [done|]. destruct (heap s !! l) as [t|]; [|done].
  exists t. split; [done|]. by injection Hh.
Qed.

Lemma cons_tasks s :
  consistent s → ∀ l, l ∈ tasks s →
  ∃ t, heap s !! l = Some t ∧ _task_map s !! task_id t = Some l.
Proof.
  intros (_ & Ht & _) l Hin. rewrite Forall_forall in Ht.
  specialize (Ht _ Hin). destruct (heap s !! l) as [t|]; [|done].
  by exists t.
Qed.

Lemma cons_nodup s : consistent s → NoDup (tasks s).
Proof. by intros (_ & _ & Hn). Qed.

Lemma consistent_intro s :
  (∀ id l, _task_map s !! id = Some l →
     l ∈ tasks s ∧ ∃ t, heap s !! l = Some t ∧ task_id t = id) →
  (∀ l, l ∈ tasks s →
     ∃ t, heap s !! l = Some t ∧ _task_map s !! task_id t = Some l) →
  NoDup (tasks s) → consistent s.
Proof.
  intros Hi Ht Hn. split; [|split; [|done]].
  - intros id l Hm. destruct (Hi _ _ Hm) as (Hin & t & Hh & Hid).
    split; [done|]. rewrite Hh. simpl. by rewrite Hid.
  - apply Forall_forall. intros l Hin. destruct (Ht _ Hin) as (t & Hh & Hm).
    by rewrite Hh.
Qed.

Lemma get_task_by_id_Some s id l t :
  get_task_by_id s id = Some (l, t) ↔
  _task_map s !! id = Some l ∧ heap s !! l = Some t.
Proof.
  unfold get_task_by_id.
  destruct (_task_map s !! id) as [l'|]; [|split; [done|by intros [? _]]].
  destruct (heap s !! l') as [t'|] eqn:E.
  - split; [intros [= <- <-]; done|]. intros [[= <-] Hh]. congruence.
  - split; [done|]. intros [[= <-] Hh]. congruence.
Qed.

Lemma get_task_by_id_store s l t id :
  l < length (heap s) →
  get_task_by_id (store s l t) id =
  match _task_map s !! id with
  | Some l' => if decide (l' = l) then Some (l, t)
               else match heap s !! l' with
                    | Some t' => Some (l', t')
                    | None => None
                    end
  | None => None
  end.
Proof.
  intros Hl. unfold get_task_by_id, store; simpl.
  destruct (_task_map s !! id) as [l'|]; [|done].
  case_decide as E.
  - subst l'. by rewrite list_lookup_insert_eq.
  - by rewrite list_lookup_insert_ne.
Qed.

Lemma get_task_by_id_store_same s l t t' id :
  get_task_by_id s id = Some (l, t) →
  get_task_by_id (store s l t') id = Some (l, t').
Proof.
  intros [Hm Hh]%get_task_by_id_Some.
  rewrite get_task_by_id_store; [|by eapply lookup_lt_Some].
  simpl. rewrite Hm. by rewrite decide_True.
Qed.

Lemma consistent_injective s id1 id2 l t1 t2 :
  consistent s →
  get_task_by_id s id1 = Some (l, t1) → get_task_by_id s id2 = Some (l, t2) →
  id1 = id2.
Proof.
  intros Hc [Hm1 Hh1]%get_task_by_id_Some [Hm2 Hh2]%get_task_by_id_Some.
  destruct (cons_index s Hc _ _ Hm1) as (_ & u1 & Hu1 & <-).
  destruct (cons_index s Hc _ _ Hm2) as (_ & u2 & Hu2 & <-).
  congruence.
Qed.

Lemma get_task_by_id_store_other s l t t' id id' :
  consistent s → get_task_by_id s id = Some (l, t) → id' ≠ id →
  get_task_by_id (store s l t') id' = get_task_by_id s id'.
Proof.
  intros Hc Hg Hne.
  pose proof Hg as [Hm Hh]%get_task_by_id_Some.
  rewrite get_task_by_id_store; [|by eapply lookup_lt_Some].
  unfold get_task_by_id.
  destruct (_task_map s !! id') as [l'|] eqn:Hm'; [|done].
  case_decide as E; [|done]. subst l'.
  destruct Hne. eapply consistent_injective; eauto.
  apply get_task_by_id_Some; eauto.
Qed.

Lemma get_task_by_id_task_id s id l t :
  consistent s → get_task_by_id s id = Some (l, t) → task_id t = id.
Proof.
  intros Hc [Hm Hh]%get_task_by_id_Some.
  destruct (cons_index s Hc _ _ Hm) as (_ & u & Hu & <-). congruence.
Qed.

(** Assigning to fields other than [task_id] keeps the index right. *)
Lemma consistent_store s l t t' :
  consistent s → heap s !! l = Some t → task_id t' = task_id t →
  consistent (store s l t').
Proof.
  intros Hc Hh Hid.
  pose proof (cons_index s Hc) as Hi. pose proof (cons_tasks s Hc) as Ht.
  assert (Hlt : l < length (heap s)) by by eapply lookup_lt_Some.
  apply consistent_intro; simpl; [| |by apply cons_nodup].
  - intros id l0 Hm. destruct (Hi _ _ Hm) as (Hin & u & Hu & Huid).
    split; [done|]. destruct (decide (l0 = l)) as [->|Hne].
    + exists t'. rewrite list_lookup_insert_eq; [|done]. split; [done|]. congruence.
    + exists u. by rewrite list_lookup_insert_ne.
  - intros l0 Hin. destruct (Ht _ Hin) as (u & Hu & Hm).
    destruct (decide (l0 = l)) as [->|Hne].
    + exists t'. rewrite list_lookup_insert_eq; [|done]. split; [done|]. congruence.
    + exists u. by rewrite list_lookup_insert_ne.
Qed.

(** ** The depth-first search *)

Lemma dfs_loop_true rec t V deps :
  dfs_loop rec t V deps = Some true →
  ∃ x, x ∈ deps ∧ (x = t ∨ ((x ∉ V) ∧ rec x = Some true)).
Proof.
  induction deps as [|x r IH]; simpl; [done|].
  case_decide as Ht.
  { intros _. exists x. split; [left|by left]. }
  case_decide as Hv.
  { intros (y & Hy & Hy')%IH. exists y. split; [by right|done]. }
  destruct (rec x) as [[]|] eqn:E; [| |done].
  - intros _. exists x. split; [left|by right].
  - intros (y & Hy & Hy')%IH. exists y. split; [by right|done].
Qed.

Lemma dfs_loop_false rec t V deps :
  dfs_loop rec t V deps = Some false →
  ∀ x, x ∈ deps → x ≠ t ∧ (x ∈ V ∨ rec x = Some false).
Proof.
  induction deps as [|x r IH]; simpl; [by intros _ y ?%elem_of_nil|].
  case_decide as Ht; [done|].
  case_decide as Hv.
  { intros H y [->|Hy]%elem_of_cons; [by split; [|left]|by apply IH]. }
  destruct (rec x) as [[]|] eqn:E; [done| |done].
  intros H y [->|Hy]%elem_of_cons; [by split; [|right]|by apply IH].
Qed.

Lemma dfs_loop_is_Some rec t V deps :
  (∀ x, x ∈ deps → x ≠ t → x ∉ V → is_Some (rec x)) →
  is_Some (dfs_loop rec t V deps).
Proof.
  induction deps as [|x r IH]; simpl; intros H; [by eexists|].
  case_decide as Ht; [by eexists|].
  assert (is_Some (dfs_loop rec t V r)) as Hr.
  { apply IH. intros y Hy. apply H. by right. }
  case_decide as Hv; [done|].
  destruct (H x) as [[] E]; [by left|done|done| |]; rewrite E; [by eexists|done].
Qed.

(** The search ends: [fuel] beyond the number of ids not yet visited is
    never used up. *)
Lemma check_circular_is_Some fuel s t d visited :
  d ∉ visited →
  size (dom (_task_map s) ∖ visited) < fuel →
  is_Some (check_circular fuel s t d visited).
Proof.
  revert d visited. induction fuel as [|fuel IH]; intros d visited Hd Hf; [lia|].
  simpl. destruct (get_task_by_id s d) as [[l task]|] eqn:Hg; [|by eexists].
  apply get_task_by_id_Some in Hg as [Hm _].
  apply dfs_loop_is_Some. intros x _ _ Hx. apply IH; [done|].
  assert (dom (_task_map s) ∖ ({[d]} ∪ visited) ⊂ dom (_task_map s) ∖ visited) as Hsub.
  { apply elem_of_dom_2 in Hm. set_solver. }
  apply subset_size in Hsub. lia.
Qed.

Lemma edge_elements s d l task x :
  get_task_by_id s d = Some (l, task) →
  edge s d x ↔ x ∈ elements (depends_on_ids task).
Proof.
  intros Hg. rewrite elem_of_elements. split.
  - intros (l' & t' & Hg' & Hx). congruence.
  - intros Hx. by exists l, task.
Qed.

(** A positive answer comes with a path. *)
Lemma check_circular_sound fuel s t d visited :
  check_circular fuel s t d visited = Some true → reaches s d t.
Proof.
  revert d visited. induction fuel as [|fuel IH]; intros d visited; [done|].
  simpl. destruct (get_task_by_id s d) as [[l task]|] eqn:Hg; [|done].
  intros (x & Hx & Hcase)%dfs_loop_true.
  apply (edge_elements _ _ _ _ _ Hg) in Hx.
  destruct Hcase as [->|[_ Hrec]]; [by apply tc_once|].
  eapply tc_l; [done|]. by eapply IH.
Qed.

(** Cutting a path at the last visit of [x]. *)
Lemma path_avoiding_cut s V a b x :
  path_avoiding s V a b →
  path_avoiding s ({[x]} ∪ V) a b ∨ path_avoiding s ({[x]} ∪ V) x b.
Proof.
  induction 1 as [a b He|a y b He Hy Hp [IH|IH]].
  - left. by apply pa_edge.
  - destruct (decide (y = x)) as [->|Hne]; [by right|].
    left. eapply pa_step; [done| |done]. set_solver.
  - by right.
Qed.

Lemma reaches_path_avoiding s a b : reaches s a b → path_avoiding s ∅ a b.
Proof.
  induction 1 as [a b He|a y b He Hp IH]; [by apply pa_edge|].
  eapply pa_step; [done| |done]. set_solver.
Qed.

(** A negative answer excludes every path that stays out of [visited]. *)
Lemma check_circular_complete fuel s t d visited :
  check_circular fuel s t d visited = Some false →
  ¬ path_avoiding s ({[d]} ∪ visited) d t.
Proof.
  revert d visited. induction fuel as [|fuel IH]; intros d visited; [done|].
  simpl. destruct (get_task_by_id s d) as [[l task]|] eqn:Hg.
  - intros Hloop Hp.
    pose proof (dfs_loop_false _ _ _ _ Hloop) as Hall.
    inversion Hp as [a b He|a x b He Hx Hp']; subst.
    + apply (edge_elements _ _ _ _ _ Hg) in He. by destruct (Hall _ He).
    + apply (edge_elements _ _ _ _ _ Hg) in He.
      destruct (Hall _ He) as [_ [Hin|Hrec]]; [done|].
      apply IH in Hrec. by destruct (path_avoiding_cut _ _ _ _ x Hp').
  - intros _ Hp. inversion Hp as [a b (l & u & Hg' & _)|a x b (l & u & Hg' & _)];
      congruence.
Qed.

Lemma check_circular_total s t d :
  is_Some (check_circular (S (size (_task_map s))) s t d ∅).
Proof.
  apply check_circular_is_Some; [set_solver|].
  rewrite difference_empty_L, size_dom. lia.
Qed.

(** [_check_circular_dependency] answers whether [task_id] can be reached
    from [dependency_id] along existing edges. *)
Lemma _check_circular_dependency_spec s t d :
  _check_circular_dependency s t d = true ↔ reaches s d t.
Proof.
  unfold _check_circular_dependency.
  destruct (check_circular_total s t d) as [b Hb]. rewrite Hb. simpl.
  destruct b.
  - split; [|done]. intros _. by eapply check_circular_sound.
  - split; [done|]. intros Hr. exfalso.
    apply check_circular_complete in Hb. apply Hb.
    apply reaches_path_avoiding in Hr.
    destruct (path_avoiding_cut _ _ _ _ d Hr) as [Hp|Hp];
      by rewrite (right_id_L ∅ (∪)).
Qed.

(** ** Edges after an assignment to [depends_on_ids] *)

Lemma edge_store s id l task task' a b :
  consistent s → get_task_by_id s id = Some (l, task) →
  edge (store s l task') a b ↔
  (a = id ∧ b ∈ depends_on_ids task') ∨ (a ≠ id ∧ edge s a b).
Proof.
  intros Hc Hg. unfold edge. destruct (decide (a = id)) as [->|Hne].
  - rewrite (get_task_by_id_store_same _ _ _ task' _ Hg). split.
    + intros (l' & t' & [= <- <-] & Hb). by left.
    + intros [[_ Hb]|[? _]]; [|done]. by exists l, task'.
  - setoid_rewrite (get_task_by_id_store_other _ _ _ task' _ _ Hc Hg Hne).
    split; [intros H; by right|]. by intros [[? _]|[_ H]].
Qed.

(** Paths in a relation extended by the single pair [(a, b)]. *)
Lemma tc_extended {A} (R R' : relation A) (a b : A) :
  (∀ x y, R' x y → R x y ∨ (x = a ∧ y = b)) →
  ∀ x y, tc R' x y → tc R x y ∨ (rtc R x a ∧ rtc R b y).
Proof.
  intros HR x y Hxy. induction Hxy as [x y H|x y z H Hyz IH].
  - destruct (HR _ _ H) as [H'|[-> ->]]; [left; by apply tc_once|right; done].
  - destruct (HR _ _ H) as [H'|[-> ->]].
    + destruct IH as [IH|[IH1 IH2]].
      * left. by eapply tc_l.
      * right. split; [by eapply rtc_l|done].
    + right. split; [done|]. destruct IH as [IH|[_ IH]]; [by apply tc_rtc|done].
Qed.

Lemma acyclic_extended s s' id dep :
  (∀ a b, edge s' a b → edge s a b ∨ (a = id ∧ b = dep)) →
  acyclic s → id ≠ dep → ¬ reaches s dep id → acyclic s'.
Proof.
  intros He Hac Hne Hnr x Hx.
  destruct (tc_extended (edge s) (edge s') id dep He _ _ Hx) as [H|[H1 H2]].
  - by apply (Hac x).
  - assert (rtc (edge s) dep id) as [Heq|Htc]%rtc_tc by by etrans.
    + by subst.
    + by apply Hnr.
Qed.

(** ** [add_dependency] *)

Lemma add_dependency_unfold s id dep l task u :
  get_task_by_id s id = Some (l, task) → get_task_by_id s dep = Some u →
  id ≠ dep → dep ∉ depends_on_ids task →
  add_dependency s id dep =
  if _check_circular_dependency s id dep
  then mkRes false [ErrCycle id dep] s
  else mkRes true [InfoDependencyAdded id dep]
         (store s l (set_depends_on_ids ({[dep]} ∪ depends_on_ids task) task)).
Proof.
  intros Hg Hd Hne Hnin. unfold add_dependency. rewrite Hg, Hd.
  by rewrite decide_False, decide_False.
Qed.

Lemma add_dependency_consistent s id dep :
  consistent s → consistent (st (add_dependency s id dep)).
Proof.
  intros Hc. unfold add_dependency.
  destruct (get_task_by_id s id) as [[l task]|] eqn:Hg; [|done].
  destruct (get_task_by_id s dep) as [u|]; [|done].
  repeat (case_decide; [done|]).
  destruct (_check_circular_dependency s id dep); [done|]. simpl.
  apply get_task_by_id_Some in Hg as [_ Hh].
  by eapply consistent_store.
Qed.

Lemma add_dependency_edges s id dep a b :
  consistent s →
  edge (st (add_dependency s id dep)) a b →
  edge s a b ∨ (a = id ∧ b = dep ∧ id ≠ dep ∧ ¬ reaches s dep id).
Proof.
  intros Hc. unfold add_dependency.
  destruct (get_task_by_id s id) as [[l task]|] eqn:Hg; [|by left].
  destruct (get_task_by_id s dep) as [u|]; [|by left].
  case_decide as Hne; [by left|]. case_decide as Hin; [by left|].
  destruct (_check_circular_dependency s id dep) eqn:Hcirc; [by left|]. simpl.
  rewrite (edge_store _ _ _ _ _ _ _ Hc Hg). simpl.
  intros [[-> [->%elem_of_singleton|Hb]%elem_of_union]|[_ He]]; [|left|by left].
  - right. repeat split; [done|]. rewrite <-_check_circular_dependency_spec.
    by rewrite Hcirc.
  - by exists l, task.
Qed.

Lemma add_dependency_acyclic s id dep :
  consistent s → acyclic s → acyclic (st (add_dependency s id dep)).
Proof.
  intros Hc Hac.
  destruct (decide (id = dep)) as [->|Hne].
  { unfold add_dependency.
    destruct (get_task_by_id s dep) as [[l task]|]; [|done].
    by rewrite decide_True. }
  destruct (_check_circular_dependency s id dep) eqn:Hcirc.
  { unfold add_dependency.
    destruct (get_task_by_id s id) as [[l task]|]; [|done].
    destruct (get_task_by_id s dep) as [u|]; [|done].
    repeat (case_decide; [done|]). by rewrite Hcirc. }
  eapply (acyclic_extended s _ id dep); [|done|done|].
  - intros a b [He|(-> & -> & _)]%add_dependency_edges; [by left|by right|done].
  - rewrite <-_check_circular_dependency_spec. by rewrite Hcirc.
Qed.

Lemma add_dependencies_invariant s calls :
  consistent s → acyclic s →
  consistent (add_dependencies s calls) ∧ acyclic (add_dependencies s calls).
Proof.
  revert s. induction calls as [|[id dep] calls IH]; intros s Hc Hac; [done|].
  apply IH; [by apply add_dependency_consistent|by apply add_dependency_acyclic].
Qed.

Lemma reaches_live s a b : reaches s a b → is_Some (_task_map s !! a).
Proof.
  intros H. destruct H as [a b (l & t & Hg & _)|a x b (l & t & Hg & _) _];
    apply get_task_by_id_Some in Hg as [Hm _]; by eexists.
Qed.

Lemma acyclicb_spec s : acyclicb s = true ↔ acyclic s.
Proof.
  unfold acyclicb, acyclic. rewrite forallb_forall. split.
  - intros H x Hx. pose proof (reaches_live _ _ _ Hx) as Hl.
    apply elem_of_dom, elem_of_elements, list_elem_of_In, H in Hl.
    apply negb_true_iff in Hl.
    apply _check_circular_dependency_spec in Hx. congruence.
  - intros H x _. apply negb_true_iff.
    destruct (_check_circular_dependency s x x) eqn:E; [|done].
    apply _check_circular_dependency_spec in E. by destruct (H x).
Qed.

(** C1.  On a registry whose index agrees with its list:
    [add_dependency] reports a cycle only when the task can be reached from
    the new dependency along existing edges; for a call that passes the
    earlier checks (both ids registered and distinct, edge not yet there)
    it reports the cycle and changes nothing whenever the task can be
    reached that way, also through other tasks, and otherwise it adds
    exactly the edge asked for; and from a registry without cycles every
    run of [add_dependency] calls leaves a registry without cycles after
    each call. *)
Theorem add_dependency_keeps_graph_acyclic (s : TaskManager) :
  consistent s →
  (∀ id dep, ErrCycle id dep ∈ out (add_dependency s id dep) → reaches s dep id) ∧
  (∀ id dep l task,
     get_task_by_id s id = Some (l, task) → is_Some (get_task_by_id s dep) →
     id ≠ dep → dep ∉ depends_on_ids task →
     (reaches s dep id →
        add_dependency s id dep = mkRes false [ErrCycle id dep] s) ∧
     (¬ reaches s dep id →
        ret (add_dependency s id dep) = true ∧
        ∀ a b, edge (st (add_dependency s id dep)) a b ↔
               edge s a b ∨ (a = id ∧ b = dep))) ∧
  (acyclic s → ∀ calls n, acyclic (add_dependencies s (take n calls))).
Proof.
  intros Hc. split; [|split].
  - intros id dep. unfold add_dependency.
    destruct (get_task_by_id s id) as [[l task]|];
      [|by intros [=]%list_elem_of_singleton].
    destruct (get_task_by_id s dep) as [u|];
      [|by intros [=]%list_elem_of_singleton].
    case_decide; [by intros [=]%list_elem_of_singleton|].
    case_decide; [by intros [=]%list_elem_of_singleton|].
    destruct (_check_circular_dependency s id dep) eqn:E;
      [|by intros [=]%list_elem_of_singleton].
    intros _. by apply _check_circular_dependency_spec.
  - intros id dep l task Hg [u Hd] Hne Hnin.
    rewrite (add_dependency_unfold _ _ _ _ _ _ Hg Hd Hne Hnin).
    split; intros Hr.
    + apply _check_circular_dependency_spec in Hr. by rewrite Hr.
    + destruct (_check_circular_dependency s id dep) eqn:E.
      { by apply _check_circular_dependency_spec in E. }
      split; [done|]. intros a b. simpl.
      rewrite (edge_store _ _ _ _ _ _ _ Hc Hg). simpl. split.
      * intros [[-> [->%elem_of_singleton|Hb]%elem_of_union]|[_ He]];
          [by right|left|by left]. by exists l, task.
      * intros [He|[-> ->]].
        -- destruct (decide (a = id)) as [->|Ha]; [left|by right].
           split; [done|]. destruct He as (l' & t' & Hg' & Hb).
           rewrite Hg in Hg'. injection Hg' as <- <-. set_solver.
        -- left. split; [done|]. set_solver.
  - intros Hac calls n. by apply add_dependencies_invariant.
Qed.

(** ** Completing a task *)

Lemma set_depends_on_ids_id t : set_depends_on_ids (depends_on_ids t) t = t.
Proof. by destruct t. Qed.

(** The dependencies of [task] that resolve to a registered task. *)
Lemma missing_deps_difference s (task : Task) :
  depends_on_ids task ∖
    list_to_set (filter (λ d, get_task_by_id s d = None)
                   (elements (depends_on_ids task)))
  = live_dependencies s task.
Proof.
  unfold live_dependencies. apply set_eq. intros d.
  rewrite elem_of_difference, elem_of_list_to_set, list_elem_of_filter,
    elem_of_elements, elem_of_filter.
  rewrite <-not_eq_None_Some. tauto.
Qed.

Lemma can_complete_task_state s id l task :
  get_task_by_id s id = Some (l, task) →
  get_task_by_id (st (can_complete_task s id)) id
  = Some (l, set_depends_on_ids (live_dependencies s task) task).
Proof.
  intros Hg. unfold can_complete_task. rewrite Hg.
  rewrite <-missing_deps_difference.
  set (missing := filter _ (elements (depends_on_ids task))).
  clearbody missing.
  assert (get_task_by_id
            (st match missing with
                | [] => mkRes tt [] s
                | _ :: _ =>
                    mkRes tt [WarnMissingDependencies id missing]
                      (store s l (set_depends_on_ids
                                    (depends_on_ids task ∖ list_to_set missing) task))
                end) id
          = Some (l, set_depends_on_ids
                       (depends_on_ids task ∖ list_to_set missing) task)) as H.
  { destruct missing as [|m ms]; simpl.
    - rewrite Hg. do 2 f_equal.
      by rewrite difference_empty_L, set_depends_on_ids_id.
    - by eapply get_task_by_id_store_same. }
  by destruct (omap _ _).
Qed.

Lemma incomplete_deps_spec s (deps : list string) tit d :
  (tit, d) ∈ omap (λ d, match get_task_by_id s d with
                        | Some (_, dt) =>
                            if decide (status dt = Pendente)
                            then Some (title dt, d) else None
                        | None => None
                        end) deps ↔
  d ∈ deps ∧ ∃ l dt, get_task_by_id s d = Some (l, dt) ∧ status dt = Pendente
                     ∧ tit = title dt.
Proof.
  rewrite list_elem_of_omap. split.
  - intros (x & Hx & Hf). destruct (get_task_by_id s x) as [[l dt]|] eqn:Hg; [|done].
    case_decide as Hs; [|done]. injection Hf as <- <-. eauto 10.
  - intros (Hd & l & dt & Hg & Hs & ->). exists d. split; [done|].
    rewrite Hg. by rewrite decide_True.
Qed.

Lemma can_complete_task_ret s id l task :
  get_task_by_id s id = Some (l, task) →
  (ret (can_complete_task s id) = true ∧
   (∀ d, ¬ pending_dependency s task d) ∧
   ∀ ds, ErrIncompleteDependencies id ds ∉ out (can_complete_task s id)) ∨
  (ret (can_complete_task s id) = false ∧
   ∃ incomplete,
     last (out (can_complete_task s id))
       = Some (ErrIncompleteDependencies id incomplete) ∧
     incomplete ≠ [] ∧
     ∀ d, d ∈ incomplete.*2 ↔ pending_dependency s task d).
Proof.
  intros Hg. unfold can_complete_task. rewrite Hg.
  set (missing := filter _ (elements (depends_on_ids task))). clearbody missing.
  pose proof (incomplete_deps_spec s (elements (depends_on_ids task))) as Hspec.
  destruct (omap _ (elements (depends_on_ids task))) as [|i is'] eqn:E; simpl.
  - left. split; [done|]. split.
    + intros d (Hd & l' & dt & Hd' & Hs).
      apply (elem_of_nil (title dt, d)), Hspec. rewrite elem_of_elements. eauto 10.
    + intros ds. destruct missing; simpl; [apply not_elem_of_nil|].
      by intros [=]%list_elem_of_singleton.
  - right. split; [done|]. eexists. split; [by rewrite last_snoc|].
    split; [done|]. intros d. rewrite list_elem_of_fmap. split.
    + intros ([tit d'] & -> & Hin). apply Hspec in Hin as (Hd & l' & dt & ? & ? & _).
      split; [by apply elem_of_elements|]. eauto.
    + intros (Hd & l' & dt & Hd' & Hs). exists (title dt, d). split; [done|].
      apply Hspec. rewrite elem_of_elements. eauto 10.
Qed.

(** C2.  For an id that resolves to a pending task, [mark_task_complete]
    succeeds exactly when every dependency that resolves to a registered
    task is completed.  On success the task is completed at [now]; on
    failure the message lists all the pending dependencies and the task is
    still pending.  In both cases the dependencies that resolve to no task
    have been dropped from [depends_on_ids]. *)
Theorem mark_task_complete_iff_dependencies_complete
    (now : datetime) (s : TaskManager) (id : string) (l : loc) (task : Task) :
  get_task_by_id s id = Some (l, task) → status task = Pendente →
  let r := mark_task_complete now s id in
  (ret r = Some l ↔
   ∀ d l' dt, d ∈ depends_on_ids task → get_task_by_id s d = Some (l', dt) →
              status dt = Concluida) ∧
  (ret r = Some l →
   (∀ ds, ErrIncompleteDependencies id ds ∉ out r) ∧
   ∃ task', get_task_by_id (st r) id = Some (l, task') ∧
            status task' = Concluida ∧ completion_date task' = Some now ∧
            depends_on_ids task' = live_dependencies s task) ∧
  (ret r ≠ Some l →
   ret r = None ∧
   (∃ incomplete,
      last (out r) = Some (ErrIncompleteDependencies id incomplete) ∧
      ∀ d, d ∈ incomplete.*2 ↔ pending_dependency s task d) ∧
   ∃ task', get_task_by_id (st r) id = Some (l, task') ∧
            status task' = Pendente ∧ completion_date task' = completion_date task ∧
            depends_on_ids task' = live_dependencies s task).
Proof.
  intros Hg Hs r.
  assert ((∀ d, ¬ pending_dependency s task d) ↔
          ∀ d l' dt, d ∈ depends_on_ids task →
                     get_task_by_id s d = Some (l', dt) → status dt = Concluida)
    as Hiff.
  { split.
    - intros H d l' dt Hd Hd'. destruct (status dt) eqn:E; [|done].
      destruct (H d). split; [done|]. eauto.
    - intros H d (Hd & l' & dt & Hd' & Hp). specialize (H _ _ _ Hd Hd'). congruence. }
  rewrite <-Hiff. clear Hiff.
  pose proof (can_complete_task_state _ _ _ _ Hg) as Hst.
  pose proof (can_complete_task_ret _ _ _ _ Hg) as Hret.
  subst r. unfold mark_task_complete.
  destruct Hret as [(Hr & Hnone & Hout)|(Hr & inc & Hlast & Hne & Hall)];
    rewrite Hr; simpl.
  - rewrite Hst. simpl. rewrite Hs. simpl. split; [done|]. split; [|done].
    intros _. split; [done|]. eexists. split.
    + by eapply get_task_by_id_store_same.
    + unfold mark_complete. simpl. by rewrite Hs.
  - split; [|split; [done|]].
    + split; [done|]. intros H. destruct inc as [|[tit d] inc]; [done|].
      destruct (H d). apply Hall. left.
    + intros _. split; [done|]. split; [by exists inc|].
      eexists. by split; [apply Hst|].
Qed.

(** ** Reverting a task to pending *)

Lemma all_tasks_spec s t :
  consistent s →
  t ∈ all_tasks s ↔ ∃ l, get_task_by_id s (task_id t) = Some (l, t).
Proof.
  intros Hc. unfold all_tasks. rewrite list_elem_of_omap. split.
  - intros (l & Hin & Hh). exists l.
    destruct (cons_tasks s Hc _ Hin) as (t' & Hh' & Hm).
    apply get_task_by_id_Some. split; congruence.
  - intros (l & [Hm Hh]%get_task_by_id_Some). exists l. split; [|done].
    by destruct (cons_index s Hc _ _ Hm).
Qed.

Lemma blocked_completed_tasks_spec s id other :
  consistent s →
  other ∈ (omap (λ o, if decide (id ∈ depends_on_ids o)
                      then if decide (status o = Concluida)
                           then Some (title o, task_id o)
                           else None
                      else None) (all_tasks s)).*2 ↔
  completed_dependent s id other.
Proof.
  intros Hc. rewrite list_elem_of_fmap. split.
  - intros ([tit x] & -> & (o & Ho & Hf)%list_elem_of_omap). simpl.
    do 2 (case_decide; [|done]). injection Hf as <- <-.
    apply all_tasks_spec in Ho as [l Hg]; [|done]. by exists l, o.
  - intros (l & o & Hg & Hs & Hin). exists (title o, other). split; [done|].
    apply list_elem_of_omap. exists o.
    pose proof (get_task_by_id_task_id _ _ _ _ Hc Hg) as <-.
    split; [apply all_tasks_spec; eauto|]. by rewrite !decide_True.
Qed.

(** C3.  On a registry whose index agrees with its list, for an id that
    resolves to a completed task which does not list itself as a
    dependency: [mark_task_pending] fails exactly when some other registered
    task that is completed lists the id in [depends_on_ids] (only direct
    dependents count), the message then names all of them and nothing
    changes; otherwise the task becomes pending and its completion date is
    cleared. *)
Theorem mark_task_pending_blocked_by_completed_dependents
    (s : TaskManager) (id : string) (l : loc) (task : Task) :
  consistent s →
  get_task_by_id s id = Some (l, task) → status task = Concluida →
  id ∉ depends_on_ids task →
  let r := mark_task_pending s id in
  let blocks other := other ≠ id ∧ completed_dependent s id other in
  (ret r = None ↔ ∃ other, blocks other) ∧
  (ret r = None →
   st r = s ∧
   ∃ blocked, out r = [ErrWouldInvalidate id blocked] ∧
              ∀ other, other ∈ blocked.*2 ↔ blocks other) ∧
  (ret r ≠ None →
   ret r = Some l ∧ out r = [] ∧
   get_task_by_id (st r) id = Some (l, mark_pending task) ∧
   status (mark_pending task) = Pendente ∧
   completion_date (mark_pending task) = None ∧
   ∀ id', id' ≠ id → get_task_by_id (st r) id' = get_task_by_id s id').
Proof.
  intros Hc Hg Hs Hself r blocks.
  assert (∀ other, completed_dependent s id other ↔ blocks other) as Hblocks.
  { intros other. unfold blocks. split; [|by intros [_ ?]].
    intros H. split; [|done]. intros ->.
    destruct H as (l' & o & Hg' & _ & Hin). congruence. }
  pose proof (blocked_completed_tasks_spec s id) as Hspec.
  subst r. unfold mark_task_pending. rewrite Hg, Hs.
  destruct (omap _ (all_tasks s)) as [|b bs] eqn:E; simpl.
  - split; [|split; [done|]].
    + split; [done|]. intros [other Ho%Hblocks%Hspec]; [|done].
      by apply elem_of_nil in Ho.
    + intros _. split; [done|]. split; [done|]. split.
      { by eapply get_task_by_id_store_same. }
      unfold mark_pending. rewrite Hs. simpl. split; [done|]. split; [done|].
      intros id' Hne. by eapply get_task_by_id_store_other.
  - split; [|split; [|done]].
    + split; [|done]. intros _. exists b.2. apply Hblocks, Hspec; [done|].
      simpl. left.
    + intros _. split; [done|]. eexists. split; [done|].
      intros other. rewrite <-Hblocks. by apply Hspec.
Qed.

(** ** Deleting a task *)

Lemma list_remove_spec l ls :
  l ∈ ls → NoDup ls →
  ∃ ls', list_remove l ls = Some ls' ∧ NoDup ls' ∧
         ∀ x, x ∈ ls' ↔ x ∈ ls ∧ x ≠ l.
Proof.
  induction ls as [|x r IH]; [by intros ?%elem_of_nil|].
  intros Hin [Hx Hr]%NoDup_cons. simpl. case_decide as E.
  - subst x. exists r. split; [done|]. split; [done|].
    intros y. rewrite elem_of_cons. split; [|intros [[]]; done].
    intros Hy. split; [by right|]. by intros ->.
  - apply elem_of_cons in Hin as [->|Hin]; [done|].
    destruct (IH Hin Hr) as (r' & -> & Hnd & Hr').
    exists (x :: r'). split; [done|]. split.
    + apply NoDup_cons. split; [|done]. rewrite Hr'. by intros [? _].
    + intros y. rewrite !elem_of_cons, Hr'. split.
      * intros [->|[? ?]]; [split; [by left|done]|split; [by right|done]].
      * intros [[->|?] ?]; [by left|by right].
Qed.

Lemma blocking_tasks_spec s id other :
  consistent s →
  other ∈ omap (λ o, if decide (id ∈ depends_on_ids o)
                     then Some (task_id o) else None) (all_tasks s) ↔
  dependent s id other.
Proof.
  intros Hc. rewrite list_elem_of_omap. split.
  - intros (o & Ho & Hf). case_decide; [|done]. injection Hf as <-.
    apply all_tasks_spec in Ho as [l Hg]; [|done]. by exists l, o.
  - intros (l & o & Hg & Hin). exists o.
    pose proof (get_task_by_id_task_id _ _ _ _ Hc Hg) as <-.
    split; [apply all_tasks_spec; eauto|]. by rewrite decide_True.
Qed.

Lemma delete_consistent s id l t tasks' :
  consistent s → get_task_by_id s id = Some (l, t) →
  NoDup tasks' → (∀ x, x ∈ tasks' ↔ x ∈ tasks s ∧ x ≠ l) →
  consistent (mkTM (heap s) tasks' (delete id (_task_map s))).
Proof.
  intros Hc Hg Hnd Hin. pose proof Hg as [Hm Hh]%get_task_by_id_Some.
  apply consistent_intro; simpl; [| |done].
  - intros id' l' [Hne Hm']%lookup_delete_Some.
    destruct (cons_index s Hc _ _ Hm') as (Hl' & t' & Hh' & Hid').
    split; [|by eauto]. apply Hin. split; [done|]. intros ->.
    destruct Hne. eapply consistent_injective; [done|by apply Hg|].
    apply get_task_by_id_Some. eauto.
  - intros l' [Hl' Hne]%Hin.
    destruct (cons_tasks s Hc _ Hl') as (t' & Hh' & Hm').
    exists t'. split; [done|]. rewrite lookup_delete_ne; [done|].
    intros Heq. rewrite <-Heq in Hm'. congruence.
Qed.

(** C5.  On a registry whose index agrees with its list, [delete_task]
    reports an unknown id; refuses, naming every registered task that lists
    the id in [depends_on_ids], when there is such a task, and then changes
    nothing; and otherwise takes the task out of both the list and the
    index, leaving the other tasks as they were. *)
Theorem delete_task_guarded (s : TaskManager) (id : string) :
  consistent s →
  let r := delete_task s id in
  (get_task_by_id s id = None →
   r = mkRes (Returned false) [ErrDeleteNotFound id] s) ∧
  (is_Some (get_task_by_id s id) → (∃ other, dependent s id other) →
   ∃ blocking, r = mkRes (Returned false) [ErrHasDependents id blocking] s ∧
               ∀ other, other ∈ blocking ↔ dependent s id other) ∧
  (∀ l t, get_task_by_id s id = Some (l, t) → ¬ (∃ other, dependent s id other) →
   ret r = Returned true ∧ out r = [] ∧
   heap (st r) = heap s ∧
   _task_map (st r) = delete id (_task_map s) ∧
   get_task_by_id (st r) id = None ∧
   (∀ x, x ∈ tasks (st r) ↔ x ∈ tasks s ∧ x ≠ l) ∧
   (∀ id', id' ≠ id → get_task_by_id (st r) id' = get_task_by_id s id') ∧
   consistent (st r)).
Proof.
  intros Hc r. subst r. unfold delete_task.
  pose proof (blocking_tasks_spec s id) as Hspec.
  destruct (get_task_by_id s id) as [[l t]|] eqn:Hg.
  2:{ split; [done|]. split; [by intros [? [=]]|done]. }
  split; [done|].
  destruct (omap _ (all_tasks s)) as [|b bs] eqn:E.
  - split.
    { intros _ [other Ho%Hspec]; [|done]. by apply elem_of_nil in Ho. }
    intros l' t' [= <- <-] _.
    pose proof Hg as [Hm Hh]%get_task_by_id_Some.
    destruct (list_remove_spec l (tasks s)) as (tasks' & -> & Hnd & Hin).
    { by destruct (cons_index s Hc _ _ Hm). }
    { by apply cons_nodup. }
    simpl. repeat (split; [done|]). split; [|split; [done|split]].
    + unfold get_task_by_id. simpl. by rewrite lookup_delete_eq.
    + intros id' Hne. unfold get_task_by_id. simpl.
      by rewrite lookup_delete_ne.
    + by eapply delete_consistent.
  - split.
    + intros _ _. eexists. split; [done|]. intros other. by apply Hspec.
    + intros l' t' _ Hno. destruct Hno. exists b. apply Hspec; [done|]. left.
Qed.

(** ** The cases of [add_dependency] *)

Lemma add_dependency_inserts s id dep l task u :
  consistent s →
  get_task_by_id s id = Some (l, task) → get_task_by_id s dep = Some u →
  id ≠ dep → dep ∉ depends_on_ids task → ¬ reaches s dep id →
  add_dependency s id dep
  = mkRes true [InfoDependencyAdded id dep]
      (store s l (set_depends_on_ids ({[dep]} ∪ depends_on_ids task) task)) ∧
  ∀ a b, edge (st (add_dependency s id dep)) a b ↔
         edge s a b ∨ (a = id ∧ b = dep).
Proof.
  intros Hc Hg Hd Hne Hnin Hnr.
  rewrite (add_dependency_unfold _ _ _ _ _ _ Hg Hd Hne Hnin).
  destruct (_check_circular_dependency s id dep) eqn:E.
  { by apply _check_circular_dependency_spec in E. }
  split; [done|]. intros a b. simpl.
  rewrite (edge_store _ _ _ _ _ _ _ Hc Hg). simpl. split.
  - intros [[-> [->%elem_of_singleton|Hb]%elem_of_union]|[_ He]];
      [by right|left|by left]. by exists l, task.
  - intros [He|[-> ->]].
    + destruct (decide (a = id)) as [->|Ha]; [left|by right].
      split; [done|]. destruct He as (l' & t' & Hg' & Hb).
      rewrite Hg in Hg'. injection Hg' as <- <-. set_solver.
    + left. split; [done|]. set_solver.
Qed.

Lemma add_dependency_present s id dep l task u :
  get_task_by_id s id = Some (l, task) → get_task_by_id s dep = Some u →
  id ≠ dep → dep ∈ depends_on_ids task →
  add_dependency s id dep = mkRes true [InfoAlreadyDepends id dep] s.
Proof.
  intros Hg Hd Hne Hin. unfold add_dependency. rewrite Hg, Hd.
  by rewrite decide_False, decide_True.
Qed.

(** C6, amended.  On a registry whose index agrees with its list,
    [add_dependency] goes through its checks in this order: an id that does
    not resolve is reported as not found (the task first, then the
    dependency); two equal ids that resolve are a self dependency; an edge
    that is already there is a success that changes nothing; a task that can
    be reached from the dependency is a cycle; otherwise exactly the edge
    asked for is added.  A second call with the same ids after a success
    changes nothing and succeeds again. *)
Theorem add_dependency_cases (s : TaskManager) (id dep : string) :
  consistent s →
  let r := add_dependency s id dep in
  (get_task_by_id s id = None → r = mkRes false [ErrNotFound id] s) ∧
  (is_Some (get_task_by_id s id) → get_task_by_id s dep = None →
   r = mkRes false [ErrDependencyNotFound dep] s) ∧
  (is_Some (get_task_by_id s id) → id = dep →
   r = mkRes false [ErrSelfDependency] s) ∧
  (is_Some (get_task_by_id s id) → is_Some (get_task_by_id s dep) → id ≠ dep →
   (edge s id dep → r = mkRes true [InfoAlreadyDepends id dep] s) ∧
   (¬ edge s id dep → reaches s dep id → r = mkRes false [ErrCycle id dep] s) ∧
   (¬ edge s id dep → ¬ reaches s dep id →
    ret r = true ∧ out r = [InfoDependencyAdded id dep] ∧
    ∀ a b, edge (st r) a b ↔ edge s a b ∨ (a = id ∧ b = dep))) ∧
  (ret r = true →
   add_dependency (st r) id dep = mkRes true [InfoAlreadyDepends id dep] (st r)).
Proof.
  intros Hc r. subst r.
  destruct (get_task_by_id s id) as [[l task]|] eqn:Hg.
  2:{ assert (add_dependency s id dep = mkRes false [ErrNotFound id] s) as ->.
      { unfold add_dependency. by rewrite Hg. }
      split; [done|]. repeat (split; [by intros [? [=]]|]). done. }
  split; [done|].
  destruct (get_task_by_id s dep) as [u|] eqn:Hd.
  2:{ assert (add_dependency s id dep
              = mkRes false [ErrDependencyNotFound dep] s) as ->.
      { unfold add_dependency. by rewrite Hg, Hd. }
      split; [done|]. split; [congruence|]. split; [by intros _ [? [=]]|done]. }
  split; [done|].
  destruct (decide (id = dep)) as [Heq|Hne].
  { assert (add_dependency s id dep = mkRes false [ErrSelfDependency] s) as ->.
    { unfold add_dependency. rewrite Hg, Hd. by rewrite decide_True. }
    done. }
  split; [done|].
  assert (edge s id dep ↔ dep ∈ depends_on_ids task) as Hedge.
  { split; [intros (l' & t' & Hg' & Hin); congruence|]. intros Hin. by exists l, task. }
  destruct (decide (dep ∈ depends_on_ids task)) as [Hin|Hnin].
  { rewrite (add_dependency_present _ _ _ _ _ _ Hg Hd Hne Hin). simpl.
    split; [|intros _; by eapply add_dependency_present].
    intros _ _ _. split; [done|]. rewrite Hedge. done. }
  assert (reaches s dep id ∨ ¬ reaches s dep id) as [Hr|Hnr].
  { rewrite <-_check_circular_dependency_spec.
    destruct (_check_circular_dependency s id dep); [by left|by right]. }
  - assert (add_dependency s id dep = mkRes false [ErrCycle id dep] s) as ->.
    { rewrite (add_dependency_unfold _ _ _ _ _ _ Hg Hd Hne Hnin).
      apply _check_circular_dependency_spec in Hr. by rewrite Hr. }
    split; [|done]. intros _ _ _. rewrite Hedge. done.
  - destruct (add_dependency_inserts _ _ _ _ _ _ Hc Hg Hd Hne Hnin Hnr)
      as [Heq Hedges].
    split.
    + intros _ _ _. rewrite Hedge. split; [done|]. split; [done|].
      intros _ _. by rewrite Heq in *.
    + intros _. rewrite Heq. simpl.
      eapply add_dependency_present; [by eapply get_task_by_id_store_same| |done|].
      * erewrite get_task_by_id_store_other; [done|done|done|]. by intros ->.
      * simpl. set_solver.
Qed.

(** ** Transitions into the state a task is already in *)

Lemma can_complete_task_unchanged s id l task :
  get_task_by_id s id = Some (l, task) →
  live_dependencies s task = depends_on_ids task →
  st (can_complete_task s id) = s.
Proof.
  intros Hg Hlive. unfold can_complete_task. rewrite Hg.
  assert (filter (λ d, get_task_by_id s d = None) (elements (depends_on_ids task))
          = []) as ->.
  { apply elem_of_nil_inv. intros d [Hd Hin%elem_of_elements]%list_elem_of_filter.
    rewrite <-Hlive in Hin. apply elem_of_filter in Hin as [[? Hs] _]. congruence. }
  by destruct (omap _ _).
Qed.

(** C7, amended.  [mark_task_pending] on a pending task changes nothing,
    prints that the task is already pending and returns [None].
    [mark_task_complete] on a completed task returns [None] and leaves the
    status and the completion date as they are; it still runs the
    dependency check first, so dependencies that resolve to no task are
    dropped, a pending dependency is reported as an error, and only without
    one the call prints that the task is already completed.  [None] is also
    what a failed transition returns: the printed line alone tells the two
    apart. *)
Theorem completion_transition_in_target_state
    (now : datetime) (s : TaskManager) (id : string) (l : loc) (task : Task) :
  get_task_by_id s id = Some (l, task) →
  (status task = Pendente →
   mark_task_pending s id = mkRes None [InfoAlreadyPending id] s) ∧
  (status task = Concluida →
   let r := mark_task_complete now s id in
   ret r = None ∧
   (∃ task', get_task_by_id (st r) id = Some (l, task') ∧
             status task' = Concluida ∧
             completion_date task' = completion_date task ∧
             depends_on_ids task' = live_dependencies s task) ∧
   (live_dependencies s task = depends_on_ids task → st r = s) ∧
   ((∀ d, ¬ pending_dependency s task d) →
    last (out r) = Some (InfoAlreadyComplete id) ∧
    ∀ ds, ErrIncompleteDependencies id ds ∉ out r) ∧
   ((∃ d, pending_dependency s task d) →
    (InfoAlreadyComplete id ∉ out r) ∧
    ∃ ds, last (out r) = Some (ErrIncompleteDependencies id ds))).
Proof.
  intros Hg. split; intros Hs.
  { unfold mark_task_pending. by rewrite Hg, Hs. }
  intros r.
  pose proof (can_complete_task_state _ _ _ _ Hg) as Hst.
  pose proof (can_complete_task_ret _ _ _ _ Hg) as Hret.
  pose proof (can_complete_task_unchanged _ _ _ _ Hg) as Hun.
  subst r. unfold mark_task_complete.
  destruct Hret as [(Hr & Hnone & Hout)|(Hr & inc & Hlast & Hne & Hall)];
    rewrite Hr; simpl.
  - rewrite Hst. simpl. rewrite Hs. simpl. split; [done|].
    split; [by eexists|]. split; [done|]. split.
    + intros _. split; [by rewrite last_snoc|].
      intros ds [?|[=]%list_elem_of_singleton]%elem_of_app. by eapply Hout.
    + intros [d Hd]. by destruct (Hnone d).
  - split; [done|]. split; [by eexists|]. split; [done|]. split.
    + intros H. destruct inc as [|[tit d] inc]; [done|].
      destruct (H d). apply Hall. left.
    + intros _. split; [|by eexists].
      unfold can_complete_task in *. rewrite Hg in *.
      destruct (omap _ (elements (depends_on_ids task))); [done|]. simpl.
      destruct (filter _ (elements (depends_on_ids task))); simpl.
      * by intros [=]%list_elem_of_singleton.
      * intros H. repeat (apply elem_of_cons in H as [H|H]; [discriminate H|]).
        by apply elem_of_nil in H.
Qed.

(** ** Completion dates *)

Lemma timestamp_ok_mark_complete now t :
  timestamp_ok t → timestamp_ok (mark_complete now t).
Proof.
  unfold timestamp_ok, mark_complete. intros H.
  destruct (status t) eqn:E; [simpl|by rewrite E]. split; [done|by eexists].
Qed.

Lemma timestamp_ok_mark_pending t :
  timestamp_ok t → timestamp_ok (mark_pending t).
Proof.
  unfold timestamp_ok, mark_pending. intros H.
  destruct (status t) eqn:E; [by rewrite E|simpl].
  split; [by intros [? [=]]|done].
Qed.

Lemma timestamp_ok_Task_init strptime uuid now a t :
  Task_init strptime uuid now a = inr t → timestamp_ok t.
Proof.
  unfold Task_init. intros H.
  repeat (case_match; try discriminate H; []).
  injection H as <-. unfold timestamp_ok. simpl.
  destruct s; [split; [by intros [? [=]]|done]|split; [done|by eexists]].
Qed.

Lemma mut_preserves_ok P f : (∀ t, P t → P (f t)) → mut_preserves P (mut_ok f).
Proof. intros H t Ht. by apply H. Qed.

Lemma mut_preserves_raise P e : mut_preserves P (mut_raise e).
Proof. by intros t Ht. Qed.

Lemma mut_preserves_skip P : mut_preserves P mut_skip.
Proof. by intros t Ht. Qed.

Lemma mut_preserves_seq P f g :
  mut_preserves P f → mut_preserves P g → mut_preserves P (mut_seq f g).
Proof.
  intros Hf Hg t Ht. unfold mut_seq. specialize (Hf t Ht).
  destruct (f t) as [t' [e|]]; [done|]. by apply Hg.
Qed.

Lemma mut_preserves_when {A} P (o : option A) f :
  (∀ a, mut_preserves P (f a)) → mut_preserves P (mut_when o f).
Proof. intros H. destruct o; [apply H|apply mut_preserves_skip]. Qed.

Lemma mut_preserves_all P body :
  Forall (mut_preserves P) body → mut_preserves P (mut_all body).
Proof.
  induction 1; [apply mut_preserves_skip|]. by apply mut_preserves_seq.
Qed.

Lemma timestamp_ok_update strptime now u :
  mut_preserves timestamp_ok (update strptime now u).
Proof.
  apply mut_preserves_all.
  repeat (apply Forall_cons; split; [apply mut_preserves_when; intros x|]);
    [..|apply Forall_nil];
    repeat case_match;
    try first [apply mut_preserves_raise
          |apply mut_preserves_ok; intros t Ht; try done].
  all: first [done|by apply timestamp_ok_mark_pending
             |by apply timestamp_ok_mark_complete].
Qed.

Lemma timestamps_ok_store s l t :
  timestamps_ok s → timestamp_ok t → timestamps_ok (store s l t).
Proof. intros Hs Ht. by apply Forall_insert. Qed.

Lemma timestamps_ok_get s id l t :
  timestamps_ok s → get_task_by_id s id = Some (l, t) → timestamp_ok t.
Proof.
  intros Hs [_ Hh]%get_task_by_id_Some.
  unfold timestamps_ok in Hs. rewrite Forall_lookup in Hs. by eapply Hs.
Qed.

Lemma timestamp_ok_set_depends_on_ids d t :
  timestamp_ok t → timestamp_ok (set_depends_on_ids d t).
Proof. done. Qed.

Lemma timestamps_ok_can_complete_task s id :
  timestamps_ok s → timestamps_ok (st (can_complete_task s id)).
Proof.
  intros Hs. unfold can_complete_task.
  destruct (get_task_by_id s id) as [[l task]|] eqn:Hg; [|done].
  set (missing := filter _ (elements (depends_on_ids task))).
  assert (timestamps_ok
            (store s l (set_depends_on_ids
                          (depends_on_ids task ∖ list_to_set missing) task))).
  { apply timestamps_ok_store; [done|].
    apply timestamp_ok_set_depends_on_ids. by eapply timestamps_ok_get. }
  clearbody missing.
  destruct missing; by destruct (omap _ (elements (depends_on_ids task))).
Qed.

Lemma timestamps_ok_mark_task_complete now s id :
  timestamps_ok s → timestamps_ok (st (mark_task_complete now s id)).
Proof.
  intros Hs%(timestamps_ok_can_complete_task s id). unfold mark_task_complete.
  destruct (ret (can_complete_task s id)); simpl; [|done].
  destruct (get_task_by_id (st (can_complete_task s id)) id)
    as [[l task]|] eqn:Hg; [|done].
  destruct (status task) eqn:E; [|done]. simpl.
  apply timestamps_ok_store; [done|].
  apply timestamp_ok_mark_complete. by eapply timestamps_ok_get.
Qed.

Lemma timestamps_ok_mark_task_pending s id :
  timestamps_ok s → timestamps_ok (st (mark_task_pending s id)).
Proof.
  intros Hs. unfold mark_task_pending.
  destruct (get_task_by_id s id) as [[l task]|] eqn:Hg; [|done].
  destruct (status task) eqn:E; [done|].
  destruct (omap _ (all_tasks s)); [|done]. simpl.
  apply timestamps_ok_store; [done|].
  apply timestamp_ok_mark_pending. by eapply timestamps_ok_get.
Qed.

Lemma timestamps_ok_add_task strptime uuid now s n :
  timestamps_ok s → timestamps_ok (st (add_task strptime uuid now s n)).
Proof.
  intros Hs. unfold add_task.
  destruct (check_new_dependencies _ _ _); [done|].
  destruct (Task_init _ _ _ _) as [e|t] eqn:E; [done|]. simpl.
  apply Forall_app. split; [done|]. apply Forall_singleton.
  by eapply timestamp_ok_Task_init.
Qed.

Lemma timestamps_ok_update_task strptime now s id u :
  timestamps_ok s → timestamps_ok (st (update_task strptime now s id u)).
Proof.
  intros Hs. unfold update_task.
  destruct (get_task_by_id s id) as [[l task]|] eqn:Hg; [|done].
  set (c := if decide (u_status u = Some "Concluída") then _ else _).
  assert (timestamps_ok (st c)) as Hc.
  { subst c. repeat case_decide; try done. by apply timestamps_ok_can_complete_task. }
  clearbody c. destruct (ret c); simpl; [|done].
  destruct (heap (st c) !! l) as [task'|] eqn:Hh; [|done].
  pose proof (timestamp_ok_update strptime now (pop_collections u) task') as Hu.
  destruct (update _ _ _ task') as [task'' [e|]]; simpl;
    apply timestamps_ok_store; try done; apply Hu;
    unfold timestamps_ok in Hc; rewrite Forall_lookup in Hc; by eapply Hc.
Qed.

Lemma timestamps_ok_delete_task s id :
  timestamps_ok s → timestamps_ok (st (delete_task s id)).
Proof.
  intros Hs. unfold delete_task.
  destruct (get_task_by_id s id) as [[l task]|]; [|done].
  destruct (omap _ (all_tasks s)); [|done].
  by destruct (list_remove l (tasks s)).
Qed.

Lemma timestamps_ok_add_dependency s id dep :
  timestamps_ok s → timestamps_ok (st (add_dependency s id dep)).
Proof.
  intros Hs. unfold add_dependency.
  destruct (get_task_by_id s id) as [[l task]|] eqn:Hg; [|done].
  destruct (get_task_by_id s dep); [|done].
  repeat (case_decide; [done|]).
  destruct (_check_circular_dependency s id dep); [done|]. simpl.
  apply timestamps_ok_store; [done|].
  apply timestamp_ok_set_depends_on_ids. by eapply timestamps_ok_get.
Qed.

Lemma timestamps_ok_remove_dependency s id dep :
  timestamps_ok s → timestamps_ok (st (remove_dependency s id dep)).
Proof.
  intros Hs. unfold remove_dependency.
  destruct (get_task_by_id s id) as [[l task]|] eqn:Hg; [|done].
  case_decide; [|done]. simpl.
  apply timestamps_ok_store; [done|].
  apply timestamp_ok_set_depends_on_ids. by eapply timestamps_ok_get.
Qed.

Lemma timestamp_ok_set_tag_set tag_type x t :
  timestamp_ok t → timestamp_ok (set_tag_set tag_type x t).
Proof. unfold set_tag_set. by case_decide. Qed.

Lemma timestamps_ok_add_tag s id tag tag_type :
  timestamps_ok s → timestamps_ok (st (_add_tag_to_task s id tag tag_type)).
Proof.
  intros Hs. unfold _add_tag_to_task.
  destruct (get_task_by_id s id) as [[l task]|] eqn:Hg; [|done].
  repeat (case_decide; [done|]). simpl.
  apply timestamps_ok_store; [done|].
  apply timestamp_ok_set_tag_set. by eapply timestamps_ok_get.
Qed.

Lemma timestamps_ok_remove_tag s id tag tag_type :
  timestamps_ok s → timestamps_ok (st (_remove_tag_from_task s id tag tag_type)).
Proof.
  intros Hs. unfold _remove_tag_from_task.
  destruct (get_task_by_id s id) as [[l task]|] eqn:Hg; [|done].
  case_decide; [|done]. simpl.
  apply timestamps_ok_store; [done|].
  apply timestamp_ok_set_tag_set. by eapply timestamps_ok_get.
Qed.

Lemma timestamps_ok_load strptime file :
  timestamps_ok (TaskManager_init (load_tasks strptime file)).
Proof.
  unfold timestamps_ok, TaskManager_init, load_tasks. simpl.
  apply Forall_forall. intros t ([[uuid now] a] & _ & Ha)%list_elem_of_omap.
  destruct (Task_init strptime uuid now a) as [e|t'] eqn:E; [done|].
  injection Ha as ->. by eapply timestamp_ok_Task_init.
Qed.

(** C8.  The completion date of a task is set exactly when the task is
    completed: [Task.__init__] builds such a task whatever completion date
    it is given, [mark_complete] sets the date, [mark_pending] clears it,
    [update] keeps the property, the registry loaded from storage has it
    for every task, and every call on the manager keeps it. *)
Theorem completion_date_iff_complete (strptime : string → option date) :
  (∀ uuid now a t, Task_init strptime uuid now a = inr t →
     timestamp_ok t ∧
     (status t = Pendente → completion_date t = None) ∧
     (status t = Concluida → is_Some (completion_date t))) ∧
  (∀ now t, timestamp_ok t →
     timestamp_ok (mark_complete now t) ∧
     (status t = Pendente →
      status (mark_complete now t) = Concluida ∧
      completion_date (mark_complete now t) = Some now)) ∧
  (∀ t, timestamp_ok t →
     timestamp_ok (mark_pending t) ∧
     (status t = Concluida →
      status (mark_pending t) = Pendente ∧
      completion_date (mark_pending t) = None)) ∧
  (∀ now u t, timestamp_ok t → timestamp_ok (update strptime now u t).1) ∧
  (∀ file, timestamps_ok (TaskManager_init (load_tasks strptime file))) ∧
  (∀ c s, timestamps_ok s → timestamps_ok (exec strptime c s)).
Proof.
  split; [|split; [|split; [|split; [|split]]]].
  - intros uuid now a t H.
    pose proof (timestamp_ok_Task_init _ _ _ _ _ H) as Hok.
    split; [done|]. unfold timestamp_ok in Hok. split; intros Hs.
    + destruct (completion_date t); [|done].
      assert (status t = Concluida) by (apply Hok; by eexists). congruence.
    + by apply Hok.
  - intros now t Hok. split; [by apply timestamp_ok_mark_complete|].
    intros Hs. unfold mark_complete. by rewrite Hs.
  - intros t Hok. split; [by apply timestamp_ok_mark_pending|].
    intros Hs. unfold mark_pending. by rewrite Hs.
  - intros now u t Hok. by apply timestamp_ok_update.
  - apply timestamps_ok_load.
  - intros c s Hs. destruct c; simpl.
    + by apply timestamps_ok_add_task.
    + by apply timestamps_ok_update_task.
    + by apply timestamps_ok_delete_task.
    + by apply timestamps_ok_can_complete_task.
    + by apply timestamps_ok_mark_task_complete.
    + by apply timestamps_ok_mark_task_pending.
    + by apply timestamps_ok_add_dependency.
    + by apply timestamps_ok_remove_dependency.
    + by apply timestamps_ok_add_tag.
    + by apply timestamps_ok_remove_tag.
    + by apply timestamps_ok_add_tag.
    + by apply timestamps_ok_remove_tag.
Qed.

(** ** Normalising tags *)

Lemma isspace_lower_char c : Text.isspace (Text.lower_char c) = Text.isspace c.
Proof. destruct c as [[] [] [] [] [] [] [] []]; reflexivity. Qed.

Lemma lower_char_idemp c :
  Text.lower_char (Text.lower_char c) = Text.lower_char c.
Proof. destruct c as [[] [] [] [] [] [] [] []]; reflexivity. Qed.

Lemma sub_spaces_lower b l :
  Text.sub_spaces b (map Text.lower_char l)
  = map Text.lower_char (Text.sub_spaces b l).
Proof.
  revert b. induction l as [|c r IH]; intros b; simpl; [done|].
  rewrite isspace_lower_char. destruct (Text.isspace c); [destruct b|]; simpl;
    by rewrite IH.
Qed.

Lemma lstrip_lower l :
  Text.lstrip (map Text.lower_char l) = map Text.lower_char (Text.lstrip l).
Proof.
  induction l as [|c r IH]; simpl; [done|].
  rewrite isspace_lower_char. by destruct (Text.isspace c).
Qed.

Lemma strip_lower l :
  Text.strip (map Text.lower_char l) = map Text.lower_char (Text.strip l).
Proof.
  unfold Text.strip, Text.rstrip.
  by rewrite lstrip_lower, <-map_rev, lstrip_lower, map_rev.
Qed.

Lemma sub_spaces_length b l : length (Text.sub_spaces b l) ≤ length l.
Proof.
  revert b. induction l as [|c r IH]; intros b; simpl; [done|].
  destruct (Text.isspace c); [destruct b|]; simpl;
    [pose proof (IH true)|pose proof (IH true)|pose proof (IH false)]; lia.
Qed.

(** Text whose runs of white space are single blanks is left alone. *)
Lemma sub_spaces_fixed b b' l :
  (b' = true → b = true) →
  Text.sub_spaces b' (Text.sub_spaces b l) = Text.sub_spaces b l.
Proof.
  revert b b'. induction l as [|c r IH]; intros b b' Hb; simpl; [done|].
  destruct (Text.isspace c) eqn:Ec.
  - destruct b.
    + by apply IH.
    + destruct b'; [by discriminate Hb|]. simpl. f_equal. by apply IH.
  - simpl. rewrite Ec. f_equal. by apply IH.
Qed.

Lemma sub_spaces_prefix b p q :
  Text.sub_spaces b (p ++ q) = p ++ q → Text.sub_spaces b p = p.
Proof.
  revert b. induction p as [|c p IH]; intros b; simpl; [done|].
  destruct (Text.isspace c) eqn:Ec.
  - destruct b.
    + intros H. pose proof (sub_spaces_length true (p ++ q)) as Hl.
      rewrite H in Hl. simpl in Hl. lia.
    + intros [= <- H]. f_equal. by eapply IH.
  - intros [= H]. f_equal. by eapply IH.
Qed.

Lemma lstrip_sub_spaces b l :
  Text.lstrip (Text.sub_spaces b l) = Text.sub_spaces true l.
Proof.
  revert b. induction l as [|c r IH]; intros b; simpl; [done|].
  destruct (Text.isspace c) eqn:Ec.
  - destruct b; simpl; by rewrite IH.
  - simpl. by rewrite Ec.
Qed.

Lemma lstrip_suffix l : ∃ w, l = w ++ Text.lstrip l.
Proof.
  induction l as [|c r [w IH]]; simpl; [by exists []|].
  destruct (Text.isspace c); [|by exists []].
  exists (c :: w). simpl. by f_equal.
Qed.

Lemma rstrip_prefix l : ∃ w, l = Text.rstrip l ++ w.
Proof.
  unfold Text.rstrip. destruct (lstrip_suffix (rev l)) as [w Hw].
  exists (rev w). rewrite <-rev_app_distr, <-Hw. by rewrite rev_involutive.
Qed.

Lemma lstrip_idemp l : Text.lstrip (Text.lstrip l) = Text.lstrip l.
Proof.
  induction l as [|c r IH]; simpl; [done|].
  destruct (Text.isspace c) eqn:Ec; [done|]. simpl. by rewrite Ec.
Qed.

Lemma lstrip_app_nonspace x c y :
  Text.isspace c = false →
  Text.lstrip (x ++ c :: y) = Text.lstrip x ++ c :: y.
Proof.
  intros Ec. induction x as [|d x IH]; simpl; [by rewrite Ec|].
  by destruct (Text.isspace d).
Qed.

Lemma lstrip_rstrip l :
  Text.lstrip l = l → Text.lstrip (Text.rstrip l) = Text.rstrip l.
Proof.
  destruct l as [|c r]; [done|]. simpl.
  destruct (Text.isspace c) eqn:Ec.
  - intros H. destruct (lstrip_suffix r) as [w Hw]. rewrite H in Hw.
    apply (f_equal length) in Hw. rewrite length_app in Hw. simpl in Hw. lia.
  - intros _. unfold Text.rstrip. simpl.
    rewrite (lstrip_app_nonspace _ _ [] Ec), rev_app_distr. simpl. by rewrite Ec.
Qed.

Lemma strip_idemp l : Text.strip (Text.strip l) = Text.strip l.
Proof.
  unfold Text.strip.
  rewrite (lstrip_rstrip (Text.lstrip l)); [|apply lstrip_idemp].
  unfold Text.rstrip. by rewrite rev_involutive, lstrip_idemp.
Qed.

Lemma strip_sub_spaces_idemp l :
  Text.strip (Text.sub_spaces false (Text.strip (Text.sub_spaces false l)))
  = Text.strip (Text.sub_spaces false l).
Proof.
  assert (Text.sub_spaces false (Text.strip (Text.sub_spaces false l))
          = Text.strip (Text.sub_spaces false l)) as ->; [|apply strip_idemp].
  unfold Text.strip. rewrite lstrip_sub_spaces.
  destruct (rstrip_prefix (Text.sub_spaces true l)) as [w Hw].
  apply (sub_spaces_prefix false _ w). rewrite <-Hw. by apply sub_spaces_fixed.
Qed.

(** The ASCII tables have what [TextLaws] asks. *)
Lemma sub_spaces_true_lstrip l :
  Text.sub_spaces true l = Text.sub_spaces false (Text.lstrip l).
Proof.
  induction l as [|c r IH]; simpl; [done|].
  destruct (Text.isspace c) eqn:Ec; [done|]. simpl. by rewrite Ec.
Qed.

Lemma lstrip_all_space l :
  forallb Text.isspace l = true → Text.lstrip l = [].
Proof.
  induction l as [|c r IH]; simpl; [done|].
  destruct (Text.isspace c); [done|]. discriminate.
Qed.

Lemma lstrip_snoc x c :
  Text.lstrip (x ++ [c]) =
  if forallb Text.isspace (x ++ [c]) then [] else Text.lstrip x ++ [c].
Proof.
  induction x as [|d x IH]; simpl.
  - destruct (Text.isspace c); done.
  - destruct (Text.isspace d); [done|]. done.
Qed.

Lemma forallb_rev {A} (f : A → bool) l : forallb f (rev l) = forallb f l.
Proof.
  induction l as [|a l IH]; simpl; [done|].
  rewrite forallb_app, IH. simpl. rewrite andb_true_r. apply andb_comm.
Qed.

Lemma rstrip_cons c r :
  Text.rstrip (c :: r) =
  if forallb Text.isspace (c :: r) then [] else c :: Text.rstrip r.
Proof.
  unfold Text.rstrip. simpl rev. rewrite lstrip_snoc.
  rewrite <-(forallb_rev Text.isspace (c :: r)). simpl rev.
  destruct (forallb Text.isspace (rev r ++ [c])); [done|].
  by rewrite rev_app_distr.
Qed.

Lemma all_space_sub_spaces b l :
  forallb Text.isspace (Text.sub_spaces b l) = forallb Text.isspace l.
Proof.
  revert b. induction l as [|c r IH]; intros b; simpl; [done|].
  destruct (Text.isspace c) eqn:Ec; [destruct b|]; simpl;
    rewrite ?Ec, ?IH; done.
Qed.

Lemma sub_spaces_rstrip b l :
  Text.sub_spaces b (Text.rstrip l) = Text.rstrip (Text.sub_spaces b l).
Proof.
  revert b. induction l as [|c r IH]; intros b; [done|].
  rewrite rstrip_cons.
  destruct (forallb Text.isspace (c :: r)) eqn:Hall.
  - pose proof (all_space_sub_spaces b (c :: r)) as Hs. rewrite Hall in Hs.
    unfold Text.rstrip. rewrite lstrip_all_space; [done|].
    by rewrite forallb_rev.
  - pose proof (all_space_sub_spaces b (c :: r)) as Hs. rewrite Hall in Hs.
    simpl in *. destruct (Text.isspace c) eqn:Ec; [destruct b|].
    + apply IH.
    + rewrite rstrip_cons, Hs. by rewrite IH.
    + rewrite rstrip_cons, Hs. by rewrite IH.
Qed.

Lemma sub_spaces_strip l :
  Text.sub_spaces false (Text.strip l) = Text.strip (Text.sub_spaces false l).
Proof.
  unfold Text.strip.
  by rewrite sub_spaces_rstrip, lstrip_sub_spaces, sub_spaces_true_lstrip.
Qed.

Lemma ascii_text_laws : @TextLaws ascii_text.
Proof.
  split; simpl; unfold Text.collapse, Text.trim, Text.lower; intros x;
    rewrite ?list_ascii_of_string_of_list_ascii; try done.
  - f_equal. rewrite <-list_fmap_compose. apply list_fmap_ext.
    intros _ c _. apply lower_char_idemp.
  - by rewrite strip_idemp.
  - by rewrite sub_spaces_fixed.
  - by rewrite sub_spaces_lower.
  - by rewrite strip_lower.
  - by rewrite sub_spaces_strip.
Qed.

(** ASCII text stays ASCII. *)
Lemma is_ascii_Forall s :
  Text.is_ascii s = true ↔
  Forall (λ c, nat_of_ascii c < 128) (list_ascii_of_string s).
Proof.
  unfold Text.is_ascii. rewrite forallb_forall, Forall_forall.
  split; intros Hs c Hc.
  - apply Nat.ltb_lt, Hs. by apply list_elem_of_In.
  - apply Nat.ltb_lt, Hs. by apply list_elem_of_In.
Qed.

Lemma is_ascii_collapse s :
  Text.is_ascii s = true → Text.is_ascii (Text.collapse s) = true.
Proof.
  rewrite !is_ascii_Forall. unfold Text.collapse.
  rewrite list_ascii_of_string_of_list_ascii.
  generalize (list_ascii_of_string s) false. intros l.
  induction l as [|c r IH]; intros b Hl; simpl; [done|].
  apply Forall_cons in Hl as [Hc Hr].
  destruct (Text.isspace c); [destruct b|].
  - by apply IH.
  - apply Forall_cons. split; [by apply Nat.ltb_lt|by apply IH].
  - apply Forall_cons. split; [done|by apply IH].
Qed.

Lemma is_ascii_trim s :
  Text.is_ascii s = true → Text.is_ascii (Text.trim s) = true.
Proof.
  rewrite !is_ascii_Forall. unfold Text.trim, Text.strip.
  rewrite list_ascii_of_string_of_list_ascii.
  generalize (list_ascii_of_string s). intros l Hl.
  destruct (lstrip_suffix l) as [w1 H1].
  destruct (rstrip_prefix (Text.lstrip l)) as [w2 H2].
  rewrite H1, H2 in Hl.
  by apply Forall_app in Hl as [_ [? _]%Forall_app].
Qed.

(** ** The normaliser, given the laws of the library *)

Lemma _normalize_tag_idemp tag :
  TextLaws → _normalize_tag (_normalize_tag tag) = _normalize_tag tag.
Proof.
  intros laws. unfold _normalize_tag.
  rewrite (law_sub_lower laws), (law_sub_strip laws), (law_sub_sub laws).
  by rewrite (law_strip_lower laws), (law_strip_strip laws),
    (law_lower_lower laws).
Qed.

Lemma _normalize_tag_spec tag :
  TextLaws → _normalize_tag tag = normalize_spec tag.
Proof.
  intros laws. unfold _normalize_tag, normalize_spec.
  by rewrite (law_sub_strip laws).
Qed.

(** On ASCII text the normaliser is the one of the ASCII tables. *)
Lemma _normalize_tag_ascii tag :
  TextLaws → Text.is_ascii tag = true →
  _normalize_tag tag = Text.lower (Text.trim (Text.collapse tag)).
Proof.
  intros laws Ha. unfold _normalize_tag.
  rewrite (law_sub_ascii laws) by done.
  rewrite (law_strip_ascii laws) by by apply is_ascii_collapse.
  rewrite (law_lower_ascii laws); [done|].
  by apply is_ascii_trim, is_ascii_collapse.
Qed.

(** ** Tags *)

Lemma set_tag_set_id tag_type t :
  set_tag_set tag_type (tag_set tag_type t) t = t.
Proof. unfold set_tag_set, tag_set. destruct t. by case_decide. Qed.

Lemma tag_set_set_tag_set tag_type x t :
  tag_set tag_type (set_tag_set tag_type x t) = x.
Proof. unfold set_tag_set, tag_set. by case_decide. Qed.

(** C9.  Given the laws of the text library, for an id that resolves to a
    task and every tag: the normal form is the text trimmed, with its
    interior runs of white space collapsed to one space, lower-cased (on
    ASCII text it is what the ASCII tables compute), and normalising it
    again changes nothing.  [_add_tag_to_task] stores the
    normal form: the result is the task with that one tag added to the
    set, the call succeeds, and adding afterwards any text with the same
    normal form, the normal form itself included, changes nothing and
    succeeds again.  [" Work "] and ["work"] have the normal form ["work"].
    A tag that normalises to the empty text is refused.  Removing a tag
    whose normal form is not in the set fails and changes nothing. *)
Theorem add_tag_idempotent_after_normalization
    (s : TaskManager) (id : string) (l : loc) (task : Task)
    (tag tag_type : string) :
  TextLaws →
  get_task_by_id s id = Some (l, task) →
  let normalized_tag := _normalize_tag tag in
  let r := _add_tag_to_task s id tag tag_type in
  normalized_tag = normalize_spec tag ∧
  (Text.is_ascii tag = true →
   normalized_tag = Text.lower (Text.trim (Text.collapse tag))) ∧
  _normalize_tag " Work " = "work" ∧ _normalize_tag "work" = "work" ∧
  _normalize_tag normalized_tag = normalized_tag ∧
  (normalized_tag ≠ "" →
   ret r = true ∧
   get_task_by_id (st r) id
   = Some (l, set_tag_set tag_type
                ({[normalized_tag]} ∪ tag_set tag_type task) task) ∧
   ∀ tag', _normalize_tag tag' = normalized_tag →
     _add_tag_to_task (st r) id tag' tag_type
     = mkRes true [InfoTagAlready id tag_type normalized_tag] (st r)) ∧
  (normalized_tag = "" → r = mkRes false [ErrInvalidTag tag_type] s) ∧
  (normalized_tag ∉ tag_set tag_type task →
   _remove_tag_from_task s id tag tag_type
   = mkRes false [ErrTagNotPresent id tag_type normalized_tag] s).
Proof.
  intros laws Hg normalized_tag r.
  split; [by apply _normalize_tag_spec|].
  split; [by apply _normalize_tag_ascii|].
  split; [by rewrite _normalize_tag_ascii|].
  split; [by rewrite _normalize_tag_ascii|].
  split; [by apply _normalize_tag_idemp|].
  split; [|split].
  - intros Hne.
    assert (ret r = true ∧
            get_task_by_id (st r) id
            = Some (l, set_tag_set tag_type
                         ({[normalized_tag]} ∪ tag_set tag_type task) task))
      as [Hret Hst].
    { subst r. unfold _add_tag_to_task. rewrite Hg.
      fold normalized_tag. rewrite decide_False; [|done].
      case_decide as Hin; simpl.
      - split; [done|]. rewrite Hg. do 2 f_equal.
        rewrite (subseteq_union_1_L {[normalized_tag]}); [|set_solver].
        by rewrite set_tag_set_id.
      - split; [done|]. by eapply get_task_by_id_store_same. }
    split; [done|]. split; [done|].
    intros tag' Htag'. unfold _add_tag_to_task at 1. rewrite Hst, Htag'.
    rewrite decide_False; [|done].
    rewrite decide_True; [done|]. rewrite tag_set_set_tag_set. set_solver.
  - intros Hempty. subst r. unfold _add_tag_to_task. rewrite Hg.
    fold normalized_tag. by rewrite decide_True.
  - intros Hnin. unfold _remove_tag_from_task. rewrite Hg.
    fold normalized_tag. by rewrite decide_False.
Qed.

(** ** Adding a task *)

Lemma check_new_dependencies_None s temp deps :
  check_new_dependencies s temp deps = None ↔
  Forall (dependency_passes s temp) deps.
Proof.
  induction deps as [|d r IH]; simpl; [by split|].
  rewrite Forall_cons, <-IH. unfold dependency_passes.
  rewrite <-_check_circular_dependency_spec.
  destruct (_task_map s !! d) as [l|]; [|split; [done|by intros [[[? [=]] _] _]]].
  destruct (_check_circular_dependency s temp d).
  - split; [done|]. by intros [[_ H] _].
  - split; [|by intros [_ ?]]. intros H. split; [|done]. split; [by eexists|done].
Qed.

Lemma check_new_dependencies_first s temp pre d post :
  Forall (dependency_passes s temp) pre →
  check_new_dependencies s temp (pre ++ d :: post) =
  match _task_map s !! d with
  | None => Some (DependencyNotFound d)
  | Some _ =>
      if _check_circular_dependency s temp d then Some (WouldCreateCycle d)
      else check_new_dependencies s temp post
  end.
Proof.
  induction 1 as [|x pre [[l Hl] Hx] Hpre IH]; simpl; [done|].
  rewrite Hl. rewrite <-_check_circular_dependency_spec in Hx.
  by destruct (_check_circular_dependency s temp x).
Qed.

Lemma Task_init_add_task strptime uuid now n t :
  Task_init strptime uuid now
    (mkArgs (n_title n) (n_description n) (n_due_date_str n)
       (n_priority n) (n_category n) "Pendente" (Some uuid)
       None None (n_eisenhower_quadrant n) (n_depends_on_ids n)
       (Some (normalize_tags (n_projects n)))
       (Some (normalize_tags (n_contexts n)))) = inr t →
  task_id t = uuid ∧ status t = Pendente ∧ completion_date t = None ∧
  depends_on_ids t = list_to_set (default [] (n_depends_on_ids n)) ∧
  projects t = list_to_set (normalize_tags (n_projects n)) ∧
  contexts t = list_to_set (normalize_tags (n_contexts n)).
Proof.
  unfold Task_init. simpl. intros H.
  repeat (case_match; try discriminate H; []).
  injection H as <-. simpl.
  split; [by destruct (decide (uuid = ""))|]. repeat (split; [done|]).
  by destruct (n_depends_on_ids n).
Qed.

Lemma Task_init_add_task_error strptime uuid now n e :
  Task_init strptime uuid now
    (mkArgs (n_title n) (n_description n) (n_due_date_str n)
       (n_priority n) (n_category n) "Pendente" (Some uuid)
       None None (n_eisenhower_quadrant n) (n_depends_on_ids n)
       (Some (normalize_tags (n_projects n)))
       (Some (normalize_tags (n_contexts n)))) = inl e →
  field_validation_error n e.
Proof.
  unfold Task_init, field_validation_error. simpl. intros H.
  repeat (case_match; try discriminate H; simplify_eq; eauto 10).
Qed.

Lemma add_task_unfold strptime uuid now s n :
  add_task strptime uuid now s n =
  match check_new_dependencies s uuid (default [] (n_depends_on_ids n)) with
  | Some e => mkRes (Raised e) [] s
  | None =>
      match Task_init strptime uuid now
              (mkArgs (n_title n) (n_description n) (n_due_date_str n)
                 (n_priority n) (n_category n) "Pendente" (Some uuid)
                 None None (n_eisenhower_quadrant n) (n_depends_on_ids n)
                 (Some (normalize_tags (n_projects n)))
                 (Some (normalize_tags (n_contexts n)))) with
      | inl e => mkRes (Raised e) [ErrCreate e] s
      | inr new_task =>
          mkRes (Returned (length (heap s))) []
            (mkTM (heap s ++ [new_task]) (tasks s ++ [length (heap s)])
               (<[task_id new_task := length (heap s)]> (_task_map s)))
      end
  end.
Proof. reflexivity. Qed.

Lemma check_new_dependencies_Some s temp deps e :
  check_new_dependencies s temp deps = Some e →
  (∃ d, d ∈ deps ∧ _task_map s !! d = None ∧ e = DependencyNotFound d) ∨
  (∃ d, d ∈ deps ∧ is_Some (_task_map s !! d) ∧ reaches s d temp ∧
        e = WouldCreateCycle d).
Proof.
  induction deps as [|d r IH]; simpl; [done|].
  destruct (_task_map s !! d) as [l|] eqn:Hd.
  - destruct (_check_circular_dependency s temp d) eqn:Hc.
    + intros [= <-]. right. exists d. split; [left|]. split; [by eexists|].
      split; [|done]. by apply _check_circular_dependency_spec.
    + intros [(x & ? & ?)|(x & ? & ?)]%IH; [left|right]; exists x;
        (split; [by right|done]).
  - intros [= <-]. left. exists d. split; [left|done].
Qed.

(** C4.  [add_task] checks the requested dependencies against the
    provisional id before it builds anything: the first dependency that is
    not registered raises the not-found error, the first one from which the
    provisional id can be reached raises the cycle error, and neither
    prints nor changes anything.  Only when all of them pass is the task
    built; an error of the construction leaves the registry unchanged as
    well, and a success appends the new task, carrying the provisional id
    and the requested dependencies, to the list and enters it in the
    index. *)
Theorem add_task_validates_before_inserting
    (strptime : string → option date) (uuid : string) (now : datetime)
    (s : TaskManager) (n : NewTask) :
  let r := add_task strptime uuid now s n in
  let deps := default [] (n_depends_on_ids n) in
  (∀ e, ret r = Raised e →
     st r = s ∧
     ((∃ d, d ∈ deps ∧ _task_map s !! d = None ∧ e = DependencyNotFound d) ∨
      (∃ d, d ∈ deps ∧ is_Some (_task_map s !! d) ∧ reaches s d uuid ∧
            e = WouldCreateCycle d) ∨
      (Forall (dependency_passes s uuid) deps ∧ field_validation_error n e))) ∧
  (¬ Forall (dependency_passes s uuid) deps →
     ∃ e, r = mkRes (Raised e) [] s) ∧
  (∀ pre d post, deps = pre ++ d :: post →
     Forall (dependency_passes s uuid) pre →
     (_task_map s !! d = None →
      r = mkRes (Raised (DependencyNotFound d)) [] s) ∧
     (is_Some (_task_map s !! d) → reaches s d uuid →
      r = mkRes (Raised (WouldCreateCycle d)) [] s)) ∧
  (∀ l, ret r = Returned l →
     Forall (dependency_passes s uuid) deps ∧
     ∃ t, task_id t = uuid ∧ status t = Pendente ∧
          depends_on_ids t = list_to_set deps ∧
          l = length (heap s) ∧
          st r = mkTM (heap s ++ [t]) (tasks s ++ [l])
                   (<[uuid := l]> (_task_map s)) ∧
          get_task_by_id (st r) uuid = Some (l, t)) ∧
  (Forall (dependency_passes s uuid) deps →
     (∃ e, field_validation_error n e ∧ r = mkRes (Raised e) [ErrCreate e] s) ∨
     (∃ l, ret r = Returned l)) ∧
  ret r ≠ RaisedNotInList.
Proof.
  intros r deps. subst r deps. rewrite add_task_unfold.
  pose proof (check_new_dependencies_None s uuid
                (default [] (n_depends_on_ids n))) as Hnone.
  pose proof (check_new_dependencies_Some s uuid
                (default [] (n_depends_on_ids n))) as Hsome.
  pose proof (check_new_dependencies_first s uuid) as Hfirst.
  destruct (check_new_dependencies s uuid (default [] (n_depends_on_ids n)))
    as [e|] eqn:Hcheck.
  - simpl. split; [|split; [by eexists|split; [|split; [done|split; [|done]]]]].
    + intros e' [= <-]. split; [done|].
      destruct (Hsome e eq_refl) as [H|H]; [by left|right; by left].
    + intros pre d post Heq Hpre. rewrite Heq, (Hfirst _ _ _ Hpre) in Hcheck.
      split.
      * intros Hd. rewrite Hd in Hcheck. by injection Hcheck as <-.
      * intros [l' Hd] Hr. rewrite Hd in Hcheck.
        apply _check_circular_dependency_spec in Hr. rewrite Hr in Hcheck.
        by injection Hcheck as <-.
    + intros Hall. apply Hnone in Hall. done.
  - assert (Forall (dependency_passes s uuid) (default [] (n_depends_on_ids n)))
      as Hall by by apply Hnone.
    split; [|split; [done|split]].
    { intros e. destruct (Task_init _ _ _ _) as [e'|t] eqn:Hinit; simpl; [|done].
      intros [= <-]. split; [done|]. right; right. split; [done|].
      by eapply Task_init_add_task_error. }
    { intros pre d post Heq Hpre. rewrite Heq, (Hfirst _ _ _ Hpre) in Hcheck.
      split.
      - intros Hd. by rewrite Hd in Hcheck.
      - intros [l' Hd] Hr. rewrite Hd in Hcheck.
        apply _check_circular_dependency_spec in Hr. by rewrite Hr in Hcheck. }
    destruct (Task_init _ _ _ _) as [e|t] eqn:Hinit; simpl.
    + split; [done|]. split; [|done]. intros _. left. exists e. split; [|done].
      by eapply Task_init_add_task_error.
    + apply Task_init_add_task in Hinit as (Hid & Hst & _ & Hdeps & _).
      split; [|split; [intros _; right; by eexists|done]].
      intros l [= <-]. split; [done|]. exists t. rewrite Hid.
      repeat (split; [done|]).
      unfold get_task_by_id. simpl. rewrite lookup_insert_eq.
      by rewrite lookup_app_r, Nat.sub_diag.
Qed.

Lemma reaches_last_edge s a b : reaches s a b → ∃ x, edge s x b.
Proof. induction 1 as [a b He|a x b _ _ IH]; [by exists a|done]. Qed.

(** C10.  When the provisional id is not registered and no registered task
    lists it as a dependency, the cycle check of [add_task] is false for
    every dependency, so [add_task] never raises the cycle error: it can
    fail only on a dependency that is not registered or on the validation
    of the fields. *)
Theorem add_task_cycle_branch_unreachable
    (strptime : string → option date) (uuid : string) (now : datetime)
    (s : TaskManager) (n : NewTask) :
  _task_map s !! uuid = None →
  (∀ id l t, get_task_by_id s id = Some (l, t) → uuid ∉ depends_on_ids t) →
  (∀ dep, _check_circular_dependency s uuid dep = false) ∧
  (∀ dep, ret (add_task strptime uuid now s n) ≠ Raised (WouldCreateCycle dep)) ∧
  (∀ e, ret (add_task strptime uuid now s n) = Raised e →
     (∃ dep, dep ∈ default [] (n_depends_on_ids n) ∧
             _task_map s !! dep = None ∧ e = DependencyNotFound dep) ∨
     field_validation_error n e).
Proof.
  intros Hfresh Hnodep.
  assert (∀ dep, _check_circular_dependency s uuid dep = false) as Hcheck.
  { intros dep. destruct (_check_circular_dependency s uuid dep) eqn:E; [|done].
    apply _check_circular_dependency_spec, reaches_last_edge in E
      as (x & l & t & Hg & Hin).
    by destruct (Hnodep _ _ _ Hg). }
  assert (∀ deps e, check_new_dependencies s uuid deps = Some e →
            ∃ dep, dep ∈ deps ∧ _task_map s !! dep = None ∧
                   e = DependencyNotFound dep) as Hdeps.
  { induction deps as [|d r IH]; simpl; [done|]. intros e.
    destruct (_task_map s !! d) eqn:Hd.
    - rewrite Hcheck. intros (dep & ? & ?)%IH. exists dep. split; [by right|done].
    - intros [= <-]. exists d. split; [left|done]. }
  split; [done|].
  assert (∀ e, ret (add_task strptime uuid now s n) = Raised e →
            (∃ dep, dep ∈ default [] (n_depends_on_ids n) ∧
                    _task_map s !! dep = None ∧ e = DependencyNotFound dep) ∨
            field_validation_error n e) as Hfail.
  { intros e. rewrite add_task_unfold.
    destruct (check_new_dependencies _ _ _) as [e'|] eqn:E; simpl.
    - intros [= <-]. left. by apply Hdeps.
    - destruct (Task_init _ _ _ _) as [e'|t] eqn:Hinit; simpl; [|done].
      intros [= <-]. right. by eapply Task_init_add_task_error. }
  split; [|done].
  intros dep [(d & _ & _ & [=])|Hf]%Hfail.
  destruct Hf as [[=]|[[=]|[(q & _ & [=])|[=]]]].
Qed.

Lemma not_listed_anywhere s uuid :
  Forall (λ t, uuid ∉ depends_on_ids t) (heap s) →
  ∀ id l t, get_task_by_id s id = Some (l, t) → uuid ∉ depends_on_ids t.
Proof.
  intros H id l t [_ Hh]%get_task_by_id_Some.
  rewrite Forall_lookup in H. by eapply H.
Qed.

(** ** The index stays in step with the list *)

Lemma consistent_can_complete_task s id :
  consistent s → consistent (st (can_complete_task s id)).
Proof.
  intros Hc. unfold can_complete_task.
  destruct (get_task_by_id s id) as [[l task]|] eqn:Hg; [|done].
  set (missing := filter _ (elements (depends_on_ids task))).
  assert (consistent
            (store s l (set_depends_on_ids
                          (depends_on_ids task ∖ list_to_set missing) task))).
  { apply get_task_by_id_Some in Hg as [_ Hh]. by eapply consistent_store. }
  clearbody missing.
  destruct missing; by destruct (omap _ (elements (depends_on_ids task))).
Qed.

Lemma consistent_mark_task_complete now s id :
  consistent s → consistent (st (mark_task_complete now s id)).
Proof.
  intros Hc%(consistent_can_complete_task s id). unfold mark_task_complete.
  destruct (ret (can_complete_task s id)); simpl; [|done].
  destruct (get_task_by_id (st (can_complete_task s id)) id)
    as [[l task]|] eqn:Hg; [|done].
  destruct (status task) eqn:E; [|done]. simpl.
  apply get_task_by_id_Some in Hg as [_ Hh].
  eapply consistent_store; [done|done|]. unfold mark_complete. by rewrite E.
Qed.

Lemma consistent_mark_task_pending s id :
  consistent s → consistent (st (mark_task_pending s id)).
Proof.
  intros Hc. unfold mark_task_pending.
  destruct (get_task_by_id s id) as [[l task]|] eqn:Hg; [|done].
  destruct (status task) eqn:E; [done|].
  destruct (omap _ (all_tasks s)); [|done]. simpl.
  apply get_task_by_id_Some in Hg as [_ Hh].
  eapply consistent_store; [done|done|]. unfold mark_pending. by rewrite E.
Qed.

Lemma consistent_delete_task s id :
  consistent s → consistent (st (delete_task s id)).
Proof.
  intros Hc. unfold delete_task.
  destruct (get_task_by_id s id) as [[l task]|] eqn:Hg; [|done].
  destruct (omap _ (all_tasks s)); [|done].
  pose proof Hg as [Hm Hh]%get_task_by_id_Some.
  destruct (list_remove_spec l (tasks s)) as (tasks' & -> & Hnd & Hin).
  { by destruct (cons_index s Hc _ _ Hm). }
  { by apply cons_nodup. }
  simpl. by eapply delete_consistent.
Qed.

Lemma consistent_remove_dependency s id dep :
  consistent s → consistent (st (remove_dependency s id dep)).
Proof.
  intros Hc. unfold remove_dependency.
  destruct (get_task_by_id s id) as [[l task]|] eqn:Hg; [|done].
  case_decide; [|done]. simpl.
  apply get_task_by_id_Some in Hg as [_ Hh]. by eapply consistent_store.
Qed.

Lemma task_id_set_tag_set tag_type x t :
  task_id (set_tag_set tag_type x t) = task_id t.
Proof. unfold set_tag_set. by case_decide. Qed.

Lemma consistent_add_tag s id tag tag_type :
  consistent s → consistent (st (_add_tag_to_task s id tag tag_type)).
Proof.
  intros Hc. unfold _add_tag_to_task.
  destruct (get_task_by_id s id) as [[l task]|] eqn:Hg; [|done].
  repeat (case_decide; [done|]). simpl.
  apply get_task_by_id_Some in Hg as [_ Hh].
  eapply consistent_store; [done|done|]. apply task_id_set_tag_set.
Qed.

Lemma consistent_remove_tag s id tag tag_type :
  consistent s → consistent (st (_remove_tag_from_task s id tag tag_type)).
Proof.
  intros Hc. unfold _remove_tag_from_task.
  destruct (get_task_by_id s id) as [[l task]|] eqn:Hg; [|done].
  case_decide; [|done]. simpl.
  apply get_task_by_id_Some in Hg as [_ Hh].
  eapply consistent_store; [done|done|]. apply task_id_set_tag_set.
Qed.

Lemma task_id_mark_complete now t : task_id (mark_complete now t) = task_id t.
Proof. unfold mark_complete. by destruct (status t). Qed.

Lemma task_id_mark_pending t : task_id (mark_pending t) = task_id t.
Proof. unfold mark_pending. by destruct (status t). Qed.

Lemma task_id_update strptime now u id :
  mut_preserves (λ t, task_id t = id) (update strptime now u).
Proof.
  apply mut_preserves_all.
  repeat (apply Forall_cons; split; [apply mut_preserves_when; intros x|]);
    [..|apply Forall_nil];
    repeat case_match;
    try first [apply mut_preserves_raise
              |apply mut_preserves_ok; intros t Ht; try done].
  all: first [done|by rewrite task_id_mark_pending
             |by rewrite task_id_mark_complete].
Qed.

Lemma consistent_update_task strptime now s id u :
  consistent s → consistent (st (update_task strptime now s id u)).
Proof.
  intros Hs. unfold update_task.
  destruct (get_task_by_id s id) as [[l task]|] eqn:Hg; [|done].
  set (c := if decide (u_status u = Some "Concluída") then _ else _).
  assert (consistent (st c)) as Hc.
  { subst c. repeat case_decide; try done. by apply consistent_can_complete_task. }
  clearbody c. destruct (ret c); simpl; [|done].
  destruct (heap (st c) !! l) as [task'|] eqn:Hh; [|done].
  pose proof (task_id_update strptime now (pop_collections u)
                (task_id task') task' eq_refl) as Hu.
  destruct (update _ _ _ task') as [task'' [e|]]; simpl;
    by eapply consistent_store.
Qed.

Lemma consistent_add_task strptime uuid now s n :
  consistent s → _task_map s !! uuid = None →
  consistent (st (add_task strptime uuid now s n)).
Proof.
  intros Hc Hfresh. rewrite add_task_unfold.
  destruct (check_new_dependencies _ _ _); [done|].
  destruct (Task_init _ _ _ _) as [e|t] eqn:Hinit; [done|]. simpl.
  apply Task_init_add_task in Hinit as (Hid & _). rewrite Hid.
  pose proof (cons_index s Hc) as Hi. pose proof (cons_tasks s Hc) as Ht.
  apply consistent_intro; simpl.
  - intros id l Hm.
    apply lookup_insert_Some in Hm as [[Heq1 Heq2]|[Hne Hm]].
    + subst id l. split; [apply elem_of_app; right; left|]. exists t.
      by rewrite lookup_app_r, Nat.sub_diag.
    + destruct (Hi _ _ Hm) as (Hin & t' & Hh & Hid').
      split; [apply elem_of_app; by left|]. exists t'.
      split; [|done]. rewrite lookup_app_l; [done|by eapply lookup_lt_Some].
  - intros l [Hin| ->%list_elem_of_singleton]%elem_of_app.
    + destruct (Ht _ Hin) as (t' & Hh & Hm). exists t'.
      split; [rewrite lookup_app_l; [done|by eapply lookup_lt_Some]|].
      rewrite lookup_insert_ne; [done|]. intros Heq. congruence.
    + exists t. split; [by rewrite lookup_app_r, Nat.sub_diag|].
      by rewrite Hid, lookup_insert_eq.
  - apply NoDup_app. split; [by apply cons_nodup|]. split; [|apply NoDup_singleton].
    intros l Hin ->%list_elem_of_singleton.
    destruct (Ht _ Hin) as (t' & Hh%lookup_lt_Some & _). lia.
Qed.

(** Every call keeps the index in step with the list, provided the uuid
    drawn by [add_task] is not registered yet. *)
Lemma exec_consistent strptime c s :
  consistent s →
  (∀ uuid now n, c = AddTask uuid now n → _task_map s !! uuid = None) →
  consistent (exec strptime c s).
Proof.
  intros Hc Hfresh. destruct c; simpl.
  - apply consistent_add_task; [done|]. by eapply Hfresh.
  - by apply consistent_update_task.
  - by apply consistent_delete_task.
  - by apply consistent_can_complete_task.
  - by apply consistent_mark_task_complete.
  - by apply consistent_mark_task_pending.
  - by apply add_dependency_consistent.
  - by apply consistent_remove_dependency.
  - by apply consistent_add_tag.
  - by apply consistent_remove_tag.
  - by apply consistent_add_tag.
  - by apply consistent_remove_tag.
Qed.

Lemma index_of_lookup (h : list Task) (ls : list loc) (m : gmap string loc) id :
  foldl (λ m l, match h !! l with
                | Some t => <[task_id t := l]> m
                | None => m
                end) m ls !! id
  = match last (filter (λ l, task_id <$> h !! l = Some id) ls) with
    | Some l => Some l
    | None => m !! id
    end.
Proof.
  revert m. induction ls as [|x r IH]; intros m; simpl; [done|].
  rewrite IH. rewrite filter_cons. case_decide as Hx.
  - destruct (h !! x) as [t|]; [|done]. injection Hx as Hx.
    destruct (filter _ r) as [|y ys] eqn:E; simpl.
    + by rewrite Hx, lookup_insert_eq.
    + destruct (last (y :: ys)) eqn:E'; [done|]. by apply last_None in E'.
  - destruct (last (filter _ r)); [done|].
    destruct (h !! x) as [t|] eqn:Hh; [|done].
    rewrite lookup_insert_ne; [done|]. intros Heq. apply Hx.
    simpl. by rewrite Heq.
Qed.

(** A loaded list with distinct ids gives a registry whose index agrees
    with its list. *)
Lemma TaskManager_init_consistent loaded :
  NoDup (task_id <$> loaded) → consistent (TaskManager_init loaded).
Proof.
  intros Hnd. apply consistent_intro; simpl; [| |apply NoDup_seq].
  - intros id l. unfold index_of. rewrite index_of_lookup, lookup_empty.
    destruct (last _) as [l'|] eqn:E; [|done]. intros [= ->].
    apply last_Some_elem_of, list_elem_of_filter in E as [Hl Hin].
    split; [done|]. destruct (loaded !! l) as [t|]; [|done].
    exists t. split; [done|]. by injection Hl.
  - intros l [_ Hl]%elem_of_seq. simpl in Hl.
    destruct (lookup_lt_is_Some_2 loaded l Hl) as [t Ht]. exists t.
    split; [done|]. unfold index_of. rewrite index_of_lookup, lookup_empty.
    destruct (last _) as [l'|] eqn:E.
    + apply last_Some_elem_of, list_elem_of_filter in E as [Hl' _].
      f_equal. eapply NoDup_lookup; [done| |by rewrite list_lookup_fmap, Ht].
      by rewrite list_lookup_fmap.
    + apply last_None in E.
      assert (l ∈ filter (λ l0, task_id <$> loaded !! l0 = Some (task_id t))
                    (seq 0 (length loaded))) as Hin.
      { apply list_elem_of_filter. split; [by rewrite Ht|].
        apply elem_of_seq. lia. }
      rewrite E in Hin. by apply elem_of_nil in Hin.
Qed.

(** ** Calls other than [add_dependency] add no edge between old tasks *)

Lemma edge_store_subset s l t t' a b :
  heap s !! l = Some t → depends_on_ids t' ⊆ depends_on_ids t →
  edge (store s l t') a b → edge s a b.
Proof.
  intros Hh Hsub (l' & t'' & Hg & Hb).
  rewrite get_task_by_id_store in Hg; [|by eapply lookup_lt_Some].
  destruct (_task_map s !! a) as [l0|] eqn:Hm; [|done].
  case_decide as E.
  - subst l0. injection Hg as <- <-. exists l, t.
    split; [by apply get_task_by_id_Some|]. by apply Hsub.
  - destruct (heap s !! l0) as [t0|] eqn:Hh0; [|done]. injection Hg as <- <-.
    exists l0, t0. split; [by apply get_task_by_id_Some|done].
Qed.

Lemma acyclic_subset s s' :
  (∀ a b, edge s' a b → edge s a b) → acyclic s → acyclic s'.
Proof.
  intros Hsub Hac x Hx. apply (Hac x).
  assert (∀ a b, reaches s' a b → reaches s a b) as Hmono; [|by apply Hmono].
  intros a b Hab. induction Hab as [a b H|a b c H _ IH].
  - by apply tc_once, Hsub.
  - eapply tc_l; [by apply Hsub|done].
Qed.

Lemma edges_can_complete_task s id a b :
  edge (st (can_complete_task s id)) a b → edge s a b.
Proof.
  unfold can_complete_task.
  destruct (get_task_by_id s id) as [[l task]|] eqn:Hg; [|done].
  set (missing := filter _ (elements (depends_on_ids task))).
  assert (edge (store s l (set_depends_on_ids
                             (depends_on_ids task ∖ list_to_set missing) task))
            a b → edge s a b) as H.
  { apply get_task_by_id_Some in Hg as [_ Hh].
    eapply edge_store_subset; [done|]. simpl. set_solver. }
  clearbody missing.
  destruct missing; by destruct (omap _ (elements (depends_on_ids task))).
Qed.

Lemma edges_mark_task_complete now s id a b :
  edge (st (mark_task_complete now s id)) a b → edge s a b.
Proof.
  intros H. apply (edges_can_complete_task s id). revert H.
  unfold mark_task_complete.
  destruct (ret (can_complete_task s id)); simpl; [|done].
  destruct (get_task_by_id (st (can_complete_task s id)) id)
    as [[l task]|] eqn:Hg; [|done].
  destruct (status task) eqn:E; [|done]. simpl.
  apply get_task_by_id_Some in Hg as [_ Hh].
  eapply edge_store_subset; [done|]. unfold mark_complete. by rewrite E.
Qed.

Lemma edges_mark_task_pending s id a b :
  edge (st (mark_task_pending s id)) a b → edge s a b.
Proof.
  unfold mark_task_pending.
  destruct (get_task_by_id s id) as [[l task]|] eqn:Hg; [|done].
  destruct (status task) eqn:E; [done|].
  destruct (omap _ (all_tasks s)); [|done]. simpl.
  apply get_task_by_id_Some in Hg as [_ Hh].
  eapply edge_store_subset; [done|]. unfold mark_pending. by rewrite E.
Qed.

Lemma edges_delete_task s id a b :
  edge (st (delete_task s id)) a b → edge s a b.
Proof.
  unfold delete_task.
  destruct (get_task_by_id s id) as [[l task]|] eqn:Hg; [|done].
  destruct (omap _ (all_tasks s)); [|done].
  destruct (list_remove l (tasks s)); [|done]. simpl.
  intros (l' & t' & [Hm Hh]%get_task_by_id_Some & Hb). simpl in Hm, Hh.
  apply lookup_delete_Some in Hm as [Hne Hm].
  exists l', t'. split; [by apply get_task_by_id_Some|done].
Qed.

Lemma edges_remove_dependency s id dep a b :
  edge (st (remove_dependency s id dep)) a b → edge s a b.
Proof.
  unfold remove_dependency.
  destruct (get_task_by_id s id) as [[l task]|] eqn:Hg; [|done].
  case_decide; [|done]. simpl.
  apply get_task_by_id_Some in Hg as [_ Hh].
  eapply edge_store_subset; [done|]. simpl. set_solver.
Qed.

Lemma depends_on_ids_set_tag_set tag_type x t :
  depends_on_ids (set_tag_set tag_type x t) = depends_on_ids t.
Proof. unfold set_tag_set. by case_decide. Qed.

Lemma edges_add_tag s id tag tag_type a b :
  edge (st (_add_tag_to_task s id tag tag_type)) a b → edge s a b.
Proof.
  unfold _add_tag_to_task.
  destruct (get_task_by_id s id) as [[l task]|] eqn:Hg; [|done].
  repeat (case_decide; [done|]). simpl.
  apply get_task_by_id_Some in Hg as [_ Hh].
  eapply edge_store_subset; [done|]. by rewrite depends_on_ids_set_tag_set.
Qed.

Lemma edges_remove_tag s id tag tag_type a b :
  edge (st (_remove_tag_from_task s id tag tag_type)) a b → edge s a b.
Proof.
  unfold _remove_tag_from_task.
  destruct (get_task_by_id s id) as [[l task]|] eqn:Hg; [|done].
  case_decide; [|done]. simpl.
  apply get_task_by_id_Some in Hg as [_ Hh].
  eapply edge_store_subset; [done|]. by rewrite depends_on_ids_set_tag_set.
Qed.

Lemma depends_on_ids_mark_complete now t :
  depends_on_ids (mark_complete now t) = depends_on_ids t.
Proof. unfold mark_complete. by destruct (status t). Qed.

Lemma depends_on_ids_mark_pending t :
  depends_on_ids (mark_pending t) = depends_on_ids t.
Proof. unfold mark_pending. by destruct (status t). Qed.

(** [update_task] drops the key [depends_on_ids] before it calls
    [Task.update], which then leaves the dependencies alone. *)
Lemma depends_on_ids_update strptime now u d :
  mut_preserves (λ t, depends_on_ids t = d)
    (update strptime now (pop_collections u)).
Proof.
  apply mut_preserves_all. simpl.
  repeat (apply Forall_cons; split;
          [first [apply mut_preserves_skip
                 |apply mut_preserves_when; intros x]|]);
    [..|apply Forall_nil];
    repeat case_match;
    try first [apply mut_preserves_raise
              |apply mut_preserves_ok; intros t Ht; try done].
  all: first [done|by rewrite depends_on_ids_mark_pending
             |by rewrite depends_on_ids_mark_complete].
Qed.

Lemma edges_update_task strptime now s id u a b :
  edge (st (update_task strptime now s id u)) a b → edge s a b.
Proof.
  unfold update_task.
  destruct (get_task_by_id s id) as [[l task]|] eqn:Hg; [|done].
  set (c := if decide (u_status u = Some "Concluída") then _ else _).
  assert (edge (st c) a b → edge s a b) as Hc.
  { subst c. repeat case_decide; try done. apply edges_can_complete_task. }
  clearbody c. destruct (ret c); simpl; [|done].
  destruct (heap (st c) !! l) as [task'|] eqn:Hh; [|done].
  pose proof (depends_on_ids_update strptime now u
                (depends_on_ids task') task' eq_refl) as Hu.
  intros H. apply Hc. revert H.
  destruct (update _ _ _ task') as [task'' [e|]]; simpl;
    (eapply edge_store_subset; [done|]); simpl in Hu; by rewrite Hu.
Qed.

Lemma edges_add_task strptime uuid now s n a b :
  consistent s → _task_map s !! uuid = None →
  edge (st (add_task strptime uuid now s n)) a b →
  (a ≠ uuid ∧ edge s a b) ∨ (a = uuid ∧ is_Some (_task_map s !! b)).
Proof.
  intros Hc Hfresh.
  assert (∀ b', edge s a b' → a ≠ uuid) as Hold.
  { intros b' (l & t & [Hm _]%get_task_by_id_Some & _) ->. congruence. }
  rewrite add_task_unfold.
  destruct (check_new_dependencies _ _ _) eqn:Hcheck.
  { simpl. intros He. left. split; [by eapply Hold|done]. }
  apply check_new_dependencies_None in Hcheck. rewrite Forall_forall in Hcheck.
  destruct (Task_init _ _ _ _) as [e|t] eqn:Hinit; simpl.
  { intros He. left. split; [by eapply Hold|done]. }
  apply Task_init_add_task in Hinit as (Hid & _ & _ & Hdeps & _). rewrite Hid.
  intros (l' & t' & [Hm Hh]%get_task_by_id_Some & Hb). simpl in Hm, Hh.
  apply lookup_insert_Some in Hm as [[Heq1 Heq2]|[Hne Hm]].
  - subst a l'. right. split; [done|].
    rewrite lookup_app_r, Nat.sub_diag in Hh; [|done]. injection Hh as <-.
    rewrite Hdeps in Hb. apply elem_of_list_to_set in Hb.
    by destruct (Hcheck _ Hb).
  - left. split; [done|].
    destruct (cons_index s Hc _ _ Hm) as (_ & t0 & Hh0 & _).
    rewrite lookup_app_l in Hh; [|by eapply lookup_lt_Some].
    exists l', t'. split; [by apply get_task_by_id_Some|done].
Qed.

Lemma acyclic_add_task strptime uuid now s n :
  consistent s → _task_map s !! uuid = None →
  (∀ id l t, get_task_by_id s id = Some (l, t) → uuid ∉ depends_on_ids t) →
  acyclic s → acyclic (st (add_task strptime uuid now s n)).
Proof.
  intros Hc Hfresh Hnodep Hac.
  set (s' := st (add_task strptime uuid now s n)).
  assert (∀ a b, edge s' a b → b ≠ uuid) as Hinto.
  { intros a b He.
    apply edges_add_task in He as [[_ (l & t & Hg & Hb)]|[_ [l Hl]]];
      [| |done|done].
    - intros ->. by destruct (Hnodep _ _ _ Hg).
    - intros ->. congruence. }
  assert (∀ x y, reaches s' x y → y ≠ uuid) as Hlast.
  { intros x y H. induction H as [x y H|x y z _ _ IH]; [by eapply Hinto|done]. }
  assert (∀ x y, reaches s' x y → x ≠ uuid → reaches s x y) as Hold.
  { intros x y H. induction H as [x y H|x y z H Hyz IH]; intros Hx.
    - apply tc_once.
      by apply edges_add_task in H as [[_ ?]|[? _]].
    - eapply tc_l; [|apply IH; by eapply Hinto].
      by apply edges_add_task in H as [[_ ?]|[? _]]. }
  intros x Hx. apply (Hac x), Hold; [done|]. by eapply Hlast.
Qed.

(** Every call keeps the graph free of cycles, provided the uuid drawn by
    [add_task] is not registered and not listed as a dependency. *)
Lemma exec_acyclic strptime c s :
  consistent s → acyclic s →
  (∀ uuid now n, c = AddTask uuid now n →
     _task_map s !! uuid = None ∧
     ∀ id l t, get_task_by_id s id = Some (l, t) → uuid ∉ depends_on_ids t) →
  acyclic (exec strptime c s).
Proof.
  intros Hc Hac Hfresh. destruct c; simpl.
  - destruct (Hfresh _ _ _ eq_refl). by apply acyclic_add_task.
  - eapply acyclic_subset; [|done]. apply edges_update_task.
  - eapply acyclic_subset; [|done]. apply edges_delete_task.
  - eapply acyclic_subset; [|done]. apply edges_can_complete_task.
  - eapply acyclic_subset; [|done]. apply edges_mark_task_complete.
  - eapply acyclic_subset; [|done]. apply edges_mark_task_pending.
  - by apply add_dependency_acyclic.
  - eapply acyclic_subset; [|done]. apply edges_remove_dependency.
  - eapply acyclic_subset; [|done]. apply edges_add_tag.
  - eapply acyclic_subset; [|done]. apply edges_remove_tag.
  - eapply acyclic_subset; [|done]. apply edges_add_tag.
  - eapply acyclic_subset; [|done]. apply edges_remove_tag.
Qed.

(** Without cycles no task lists itself. *)
Lemma acyclic_no_self_dependency s id l t :
  acyclic s → get_task_by_id s id = Some (l, t) → id ∉ depends_on_ids t.
Proof.
  intros Hac Hg Hin. apply (Hac id), tc_once. by exists l, t.
Qed.

(** ** A run through the life cycle *)

(** * Further properties of the code *)

(** ** The search for cycles on arbitrary data *)

(** X1.  [_check_circular_dependency] ends on every registry, also one that
    already holds cycles or ids that resolve to no task: any fuel beyond
    the number of registered ids gives the same answer, the answer is true
    exactly when [task_id] can be reached from [dependency_id] along one or
    more edges, and it is false when [dependency_id] is not registered. *)
Theorem check_circular_dependency_exact (s : TaskManager) (t d : string) :
  (∀ fuel, size (_task_map s) < fuel →
     check_circular fuel s t d ∅ = Some (_check_circular_dependency s t d)) ∧
  (_check_circular_dependency s t d = true ↔ reaches s d t) ∧
  (get_task_by_id s d = None → _check_circular_dependency s t d = false).
Proof.
  split; [|split].
  - intros fuel Hfuel.
    destruct (check_circular_is_Some fuel s t d ∅) as [b Hb].
    { set_solver. }
    { by rewrite difference_empty_L, size_dom. }
    rewrite Hb. f_equal.
    destruct b, (_check_circular_dependency s t d) eqn:E; try done.
    + apply check_circular_sound, _check_circular_dependency_spec in Hb.
      congruence.
    + apply _check_circular_dependency_spec, reaches_path_avoiding in E.
      apply check_circular_complete in Hb. destruct Hb.
      by destruct (path_avoiding_cut _ _ _ _ d E) as [Hp|Hp].
  - apply _check_circular_dependency_spec.
  - intros Hd. destruct (_check_circular_dependency s t d) eqn:E; [|done].
    apply _check_circular_dependency_spec in E.
    destruct E as [? ? (l & u & Hg & _)|? ? ? (l & u & Hg & _) _]; congruence.
Qed.

(** ** Removing a dependency *)

(** X2.  On a registry whose index agrees with its list,
    [remove_dependency] reports an unknown task, reports an edge that is
    not there, and otherwise removes exactly that edge, whether or not the
    dependency id is registered; the index still agrees with the list and
    no cycle appears. *)
Theorem remove_dependency_cases (s : TaskManager) (id dep : string) :
  consistent s →
  let r := remove_dependency s id dep in
  (get_task_by_id s id = None → r = mkRes false [ErrNotFound id] s) ∧
  (is_Some (get_task_by_id s id) → ¬ edge s id dep →
   r = mkRes false [ErrNotDependent id dep] s) ∧
  (edge s id dep →
   ret r = true ∧ out r = [InfoDependencyRemoved id dep] ∧
   (∀ a b, edge (st r) a b ↔ edge s a b ∧ ¬ (a = id ∧ b = dep)) ∧
   consistent (st r) ∧ (acyclic s → acyclic (st r))).
Proof.
  intros Hc r.
  assert (consistent (st r)) as Hc' by by apply consistent_remove_dependency.
  assert (acyclic s → acyclic (st r)) as Hac'.
  { apply acyclic_subset, edges_remove_dependency. }
  subst r. unfold remove_dependency in *.
  destruct (get_task_by_id s id) as [[l task]|] eqn:Hg.
  2:{ split; [done|]. split; [by intros [? [=]]|].
      intros (l & t & Hg' & _). congruence. }
  split; [done|].
  assert (edge s id dep ↔ dep ∈ depends_on_ids task) as Hedge.
  { split; [intros (l' & t' & Hg' & Hin); congruence|]. intros Hin. by exists l, task. }
  rewrite Hedge. case_decide as Hin; simpl in *.
  - split; [done|]. intros _. repeat (split; [done|]). split; [|done].
    intros a b. rewrite (edge_store _ _ _ _ _ _ _ Hc Hg). simpl. split.
    + intros [[-> [Hb Hne]%elem_of_difference]|[Hne He]].
      * split; [by exists l, task|]. intros [_ ->]. set_solver.
      * split; [done|]. by intros [? _].
    + intros [He Hne]. destruct (decide (a = id)) as [->|Ha]; [left|by right].
      split; [done|]. destruct He as (l' & t' & Hg' & Hb).
      rewrite Hg in Hg'. injection Hg' as <- <-.
      apply elem_of_difference. split; [done|].
      intros ->%elem_of_singleton. by apply Hne.
  - split; [done|]. done.
Qed.

(** ** Undoing an operation *)

Lemma store_store s l t t' : store (store s l t) l t' = store s l t'.
Proof. unfold store. simpl. by rewrite list_insert_insert_eq. Qed.

Lemma store_id s l t : heap s !! l = Some t → store s l t = s.
Proof. intros H. unfold store. rewrite list_insert_id; [|done]. by destruct s. Qed.

(** X3.  When [add_dependency] has added an edge, [remove_dependency] with
    the same ids succeeds and gives back the registry as it was before. *)
Theorem add_then_remove_dependency (s : TaskManager) (id dep : string) :
  out (add_dependency s id dep) = [InfoDependencyAdded id dep] →
  remove_dependency (st (add_dependency s id dep)) id dep
  = mkRes true [InfoDependencyRemoved id dep] s.
Proof.
  unfold add_dependency.
  destruct (get_task_by_id s id) as [[l task]|] eqn:Hg; [|done].
  destruct (get_task_by_id s dep) as [u|]; [|done].
  case_decide; [done|]. case_decide as Hnin; [done|].
  destruct (_check_circular_dependency s id dep); [done|]. simpl. intros _.
  unfold remove_dependency.
  rewrite (get_task_by_id_store_same _ _ _ _ _ Hg). simpl.
  rewrite decide_True; [|set_solver]. f_equal.
  rewrite store_store. unfold set_depends_on_ids at 1. simpl.
  assert (({[dep]} ∪ depends_on_ids task) ∖ {[dep]} = depends_on_ids task)
    as -> by set_solver.
  fold (set_depends_on_ids (depends_on_ids task) task).
  rewrite set_depends_on_ids_id. apply store_id.
  by apply get_task_by_id_Some in Hg as [_ ?].
Qed.

Lemma set_tag_set_set_tag_set tag_type x y t :
  set_tag_set tag_type y (set_tag_set tag_type x t) = set_tag_set tag_type y t.
Proof. unfold set_tag_set. by case_decide. Qed.

(** X4.  When [_add_tag_to_task] has added a project or context,
    [_remove_tag_from_task] with the same text succeeds and gives back the
    registry as it was before. *)
Theorem add_then_remove_tag (s : TaskManager) (id tag tag_type : string) :
  out (_add_tag_to_task s id tag tag_type)
    = [InfoTagAdded id tag_type (_normalize_tag tag)] →
  _remove_tag_from_task (st (_add_tag_to_task s id tag tag_type)) id tag tag_type
  = mkRes true [InfoTagRemoved id tag_type (_normalize_tag tag)] s.
Proof.
  unfold _add_tag_to_task.
  destruct (get_task_by_id s id) as [[l task]|] eqn:Hg; [|done].
  case_decide; [done|]. case_decide as Hnin; [done|]. simpl. intros _.
  unfold _remove_tag_from_task.
  rewrite (get_task_by_id_store_same _ _ _ _ _ Hg). simpl.
  rewrite tag_set_set_tag_set.
  rewrite decide_True; [|set_solver]. f_equal.
  rewrite store_store, set_tag_set_set_tag_set.
  assert (({[_normalize_tag tag]} ∪ tag_set tag_type task) ∖ {[_normalize_tag tag]}
          = tag_set tag_type task) as -> by set_solver.
  rewrite set_tag_set_id. apply store_id.
  by apply get_task_by_id_Some in Hg as [_ ?].
Qed.

Lemma is_Some_get_task_by_id_store s l t d :
  l < length (heap s) →
  is_Some (get_task_by_id (store s l t) d) ↔ is_Some (get_task_by_id s d).
Proof.
  intros Hl. rewrite get_task_by_id_store; [|done]. unfold get_task_by_id.
  destruct (_task_map s !! d) as [l'|]; [|done].
  case_decide as E.
  - subst l'. destruct (lookup_lt_is_Some_2 _ _ Hl) as [t0 ->].
    split; by eexists.
  - by destruct (heap s !! l').
Qed.

(** X5.  [can_complete_task] heals the dependencies once: after a call,
    every dependency of the task resolves, and a second call changes
    nothing more and gives the same answer. *)
Theorem can_complete_task_idempotent (s : TaskManager) (id : string) :
  let c := can_complete_task s id in
  st (can_complete_task (st c) id) = st c ∧
  ret (can_complete_task (st c) id) = ret c ∧
  (∀ l task, get_task_by_id (st c) id = Some (l, task) →
     ∀ d, d ∈ depends_on_ids task → is_Some (get_task_by_id (st c) d)).
Proof.
  intros c. subst c.
  destruct (get_task_by_id s id) as [[l task]|] eqn:Hg.
  2:{ unfold can_complete_task. rewrite Hg. simpl. rewrite Hg. simpl.
      split; [done|]. split; [done|]. intros l task Hg'. congruence. }
  pose proof (can_complete_task_state _ _ _ _ Hg) as Hst.
  set (task' := set_depends_on_ids (live_dependencies s task) task) in *.
  assert (Hlt : l < length (heap s)).
  { apply get_task_by_id_Some in Hg as [_ Hh]. by eapply lookup_lt_Some. }
  assert (∀ d, is_Some (get_task_by_id (st (can_complete_task s id)) d)
               ↔ is_Some (get_task_by_id s d)) as Hsome.
  { intros d. unfold can_complete_task. rewrite Hg.
    set (missing := filter _ (elements (depends_on_ids task))).
    pose proof (is_Some_get_task_by_id_store s l
                  (set_depends_on_ids
                     (depends_on_ids task ∖ list_to_set missing) task) d Hlt).
    clearbody missing.
    destruct missing; by destruct (omap _ (elements (depends_on_ids task))). }
  assert (∀ d l' dt, d ≠ id →
            get_task_by_id (st (can_complete_task s id)) d = Some (l', dt) →
            ∃ dt', get_task_by_id s d = Some (l', dt') ∧ status dt' = status dt)
    as Hother.
  { intros d l' dt _. unfold can_complete_task. rewrite Hg.
    set (missing := filter _ (elements (depends_on_ids task))).
    assert (get_task_by_id
              (store s l (set_depends_on_ids
                            (depends_on_ids task ∖ list_to_set missing) task)) d
            = Some (l', dt) →
            ∃ dt', get_task_by_id s d = Some (l', dt') ∧ status dt' = status dt)
      as Hstore.
    { rewrite get_task_by_id_store; [|done]. unfold get_task_by_id.
      destruct (_task_map s !! d) as [l0|]; [|done].
      case_decide as E.
      - subst l0. intros [= <- <-].
        apply get_task_by_id_Some in Hg as [_ ->]. by exists task.
      - destruct (heap s !! l0) as [t0|]; [|done]. intros [= <- <-]. by exists t0. }
    clearbody missing.
    destruct missing; destruct (omap _ (elements (depends_on_ids task)));
      simpl; eauto. }
  assert (live_dependencies (st (can_complete_task s id)) task'
          = depends_on_ids task') as Hlive.
  { unfold live_dependencies. apply set_eq. intros d.
    rewrite elem_of_filter. split; [by intros [_ ?]|]. intros Hd.
    split; [|done]. apply Hsome. unfold task' in Hd. simpl in Hd.
    by apply elem_of_filter in Hd as [? _]. }
  split; [by eapply can_complete_task_unchanged|]. split.
  - destruct (can_complete_task_ret _ _ _ _ Hg)
      as [(Hr & Hnone & _)|(Hr & inc & _ & Hne & Hall)];
    destruct (can_complete_task_ret _ _ _ _ Hst)
      as [(Hr' & Hnone' & _)|(Hr' & inc' & _ & Hne' & Hall')];
      rewrite Hr, Hr'; try done.
    + destruct inc' as [|[tit d] inc']; [done|].
      assert (pending_dependency (st (can_complete_task s id)) task' d)
        as (Hd & l' & dt & Hgd & Hsd) by (apply Hall'; left).
      destruct (Hnone d). unfold task' in Hd. simpl in Hd.
      apply elem_of_filter in Hd as [_ Hd]. split; [done|].
      destruct (decide (d = id)) as [->|Hdid].
      * rewrite Hst in Hgd. injection Hgd as <- <-. by exists l, task.
      * destruct (Hother _ _ _ Hdid Hgd) as (dt' & ? & ?).
        exists l', dt'. split; [done|congruence].
    + destruct inc as [|[tit d] inc]; [done|].
      assert (pending_dependency s task d)
        as (Hd & l' & dt & Hgd & Hsd) by (apply Hall; left).
      destruct (Hnone' d). split.
      { unfold task'. simpl. apply elem_of_filter. split; [by eexists|done]. }
      destruct (decide (d = id)) as [->|Hdid].
      * rewrite Hg in Hgd. injection Hgd as <- <-. by exists l, task'.
      * assert (is_Some (get_task_by_id (st (can_complete_task s id)) d))
          as [[l0 dt0] Hg0] by (apply Hsome; by eexists).
        destruct (Hother _ _ _ Hdid Hg0) as (dt' & Hg1 & Hs1).
        exists l0, dt0. split; [done|]. rewrite Hgd in Hg1. congruence.
  - intros l0 task0 Hg0 d Hd. rewrite Hst in Hg0. injection Hg0 as <- <-.
    apply Hsome. unfold task' in Hd. simpl in Hd.
    by apply elem_of_filter in Hd as [? _].
Qed.

Lemma mark_pending_mark_complete now t :
  status t = Pendente → completion_date t = None →
  mark_pending (mark_complete now t) = t.
Proof.
  destruct t. simpl. intros -> ->. reflexivity.
Qed.

Lemma no_completed_dependent_heap s id :
  Forall (λ t, ¬ (status t = Concluida ∧ id ∈ depends_on_ids t)) (heap s) →
  ∀ other, ¬ completed_dependent s id other.
Proof.
  intros H other (l & o & [_ Hh]%get_task_by_id_Some & Hs & Hin).
  rewrite Forall_lookup in H. by apply (H _ _ Hh).
Qed.

(** X6.  On a registry whose index agrees with its list: when a pending
    task all of whose dependencies resolve has been completed by
    [mark_task_complete], and no completed task lists it as a dependency,
    [mark_task_pending] succeeds and gives back the registry as it was
    before. *)
Theorem complete_then_revert
    (now : datetime) (s : TaskManager) (id : string) (l : loc) (task : Task) :
  consistent s →
  get_task_by_id s id = Some (l, task) →
  status task = Pendente → completion_date task = None →
  live_dependencies s task = depends_on_ids task →
  (∀ other, ¬ completed_dependent s id other) →
  ret (mark_task_complete now s id) = Some l →
  mark_task_pending (st (mark_task_complete now s id)) id = mkRes (Some l) [] s.
Proof.
  intros Hc Hg Hs Hdate Hlive Hnone Hret.
  pose proof (can_complete_task_unchanged _ _ _ _ Hg Hlive) as Hun.
  pose proof (can_complete_task_ret _ _ _ _ Hg) as Hcc.
  unfold mark_task_complete in *.
  destruct Hcc as [(Hr & Hnopend & _)|(Hr & _)]; rewrite Hr in *; simpl in *;
    [|done].
  rewrite Hun in *. rewrite Hg in *. rewrite Hs in *. simpl in *. clear Hret.
  set (s' := store s l (mark_complete now task)).
  assert (consistent s') as Hc'.
  { apply get_task_by_id_Some in Hg as [_ Hh].
    eapply consistent_store; [done|done|]. apply task_id_mark_complete. }
  assert (get_task_by_id s' id = Some (l, mark_complete now task)) as Hg'.
  { by eapply get_task_by_id_store_same. }
  pose proof (blocked_completed_tasks_spec s' id) as Hspec.
  unfold mark_task_pending. rewrite Hg'.
  assert (status (mark_complete now task) = Concluida) as ->.
  { unfold mark_complete. by rewrite Hs. }
  destruct (omap _ (all_tasks s')) as [|b bs] eqn:E.
  - f_equal. unfold s'. rewrite store_store.
    rewrite mark_pending_mark_complete; [|done|done].
    apply store_id. by apply get_task_by_id_Some in Hg as [_ ?].
  - exfalso.
    assert (completed_dependent s' id b.2) as (l' & o & Hgo & Hso & Hin).
    { apply Hspec; [done|]. simpl. left. }
    destruct (decide (b.2 = id)) as [Heq|Hne].
    + rewrite Heq, Hg' in Hgo. injection Hgo as <- <-.
      rewrite depends_on_ids_mark_complete in Hin.
      apply (Hnopend id). split; [done|]. by exists l, task.
    + unfold s' in Hgo.
      rewrite (get_task_by_id_store_other _ _ _ _ _ _ Hc Hg Hne) in Hgo.
      apply (Hnone b.2). by exists l', o.
Qed.

(** ** Invariants of the registry *)

(** X7.  Every call on the manager keeps the registry well formed: if the
    index agrees with the list and the dependency graph has no cycle, the
    same holds afterwards and no task lists itself, provided the uuid
    drawn by [add_task] is neither registered nor listed as a dependency. *)
Theorem every_call_keeps_registry_invariants
    (strptime : string → option date) (c : Command) (s : TaskManager) :
  consistent s → acyclic s →
  (∀ uuid now n, c = AddTask uuid now n →
     _task_map s !! uuid = None ∧
     ∀ id l t, get_task_by_id s id = Some (l, t) → uuid ∉ depends_on_ids t) →
  consistent (exec strptime c s) ∧ acyclic (exec strptime c s) ∧
  ∀ id l t, get_task_by_id (exec strptime c s) id = Some (l, t) →
            id ∉ depends_on_ids t.
Proof.
  intros Hc Hac Hfresh.
  assert (acyclic (exec strptime c s)) as Hac' by by apply exec_acyclic.
  split; [|split; [done|]].
  - apply exec_consistent; [done|]. intros uuid now n Heq.
    by destruct (Hfresh _ _ _ Heq).
  - intros id l t. by apply acyclic_no_self_dependency.
Qed.

(** ** Building the index *)

Lemma last_filter_seq (P : nat → Prop) `{∀ x, Decision (P x)} n l :
  last (filter P (seq 0 n)) = Some l ↔
  l < n ∧ P l ∧ ∀ l', l < l' → l' < n → ¬ P l'.
Proof.
  induction n as [|n IH].
  { simpl. split; [done|]. intros [? _]. lia. }
  rewrite seq_S, filter_app. simpl (0 + n). rewrite filter_cons, filter_nil.
  case_decide as Hn.
  - rewrite last_snoc. split.
    + intros [= <-]. split; [lia|]. split; [done|]. intros l' ? ?. lia.
    + intros (Hl & HP & Hlater). f_equal.
      destruct (decide (l = n)) as [|Hne]; [done|].
      destruct (Hlater n); [lia|lia|done].
  - rewrite app_nil_r, IH. split.
    + intros (Hl & HP & Hlater). split; [lia|]. split; [done|].
      intros l' ? ?. destruct (decide (l' = n)) as [->|]; [done|].
      apply Hlater; lia.
    + intros (Hl & HP & Hlater).
      assert (l ≠ n) by (intros ->; done).
      split; [lia|]. split; [done|]. intros l' ? ?. apply Hlater; lia.
Qed.

Lemma omap_lookup_seq {A} (pre xs : list A) :
  omap (λ l, (pre ++ xs) !! l) (seq (length pre) (length xs)) = xs.
Proof.
  revert pre. induction xs as [|x r IH]; intros pre; simpl; [done|].
  rewrite list_lookup_middle; [|done]. f_equal.
  specialize (IH (pre ++ [x])).
  rewrite <-app_assoc, length_app in IH. simpl in IH.
  by rewrite Nat.add_1_r in IH.
Qed.

(** X8.  The manager built from a loaded list keeps the list in order and
    indexes, under every id, the last task of the list that carries it; the
    index agrees with the list exactly when the ids of the loaded tasks
    are distinct. *)
Theorem init_index_last_wins (loaded : list Task) :
  all_tasks (TaskManager_init loaded) = loaded ∧
  (∀ id l t,
     get_task_by_id (TaskManager_init loaded) id = Some (l, t) ↔
     loaded !! l = Some t ∧ task_id t = id ∧
     ∀ l' t', l < l' → loaded !! l' = Some t' → task_id t' ≠ id) ∧
  (consistent (TaskManager_init loaded) ↔ NoDup (task_id <$> loaded)).
Proof.
  split; [|split].
  - unfold all_tasks, TaskManager_init. simpl.
    apply (omap_lookup_seq [] loaded).
  - intros id l t. rewrite get_task_by_id_Some. simpl.
    unfold index_of. rewrite index_of_lookup, lookup_empty.
    pose proof (last_filter_seq (λ l, task_id <$> loaded !! l = Some id)
                  (length loaded)) as Hlast.
    destruct (last _) as [l0|] eqn:E.
    + destruct (proj1 (Hlast l0) eq_refl) as (Hl0 & HP & Hlater). split.
      * intros [[= ->] Ht]. rewrite Ht in HP. injection HP as HP.
        split; [done|]. split; [done|]. intros l' t' Hlt Ht' Hid.
        apply (Hlater l'); [done|by eapply lookup_lt_Some|].
        rewrite Ht'. simpl. by rewrite Hid.
      * intros (Ht & Hid & Hno). split; [|done]. f_equal.
        destruct (loaded !! l0) as [t0|] eqn:Ht0; [|done]. injection HP as HP.
        destruct (Nat.lt_trichotomy l0 l) as [Hlt|[->|Hlt]]; [|done|].
        -- destruct (Hlater l); [done|by eapply lookup_lt_Some|].
           rewrite Ht. simpl. by rewrite Hid.
        -- by destruct (Hno l0 t0).
    + split; [by intros [? _]|]. intros (Ht & Hid & Hno). exfalso.
      assert (l ∈ filter (λ l0, task_id <$> loaded !! l0 = Some id)
                    (seq 0 (length loaded))) as Hin.
      { apply list_elem_of_filter. split; [rewrite Ht; simpl; by rewrite Hid|].
        apply elem_of_seq. apply lookup_lt_Some in Ht. lia. }
      apply last_None in E. rewrite E in Hin. by apply elem_of_nil in Hin.
  - split; [|apply TaskManager_init_consistent].
    intros Hc. apply NoDup_alt. intros i j id Hi Hj.
    rewrite list_lookup_fmap in Hi, Hj.
    destruct (loaded !! i) as [ti|] eqn:Hti; [|done].
    destruct (loaded !! j) as [tj|] eqn:Htj; [|done].
    injection Hi as Hi. injection Hj as Hj.
    destruct (cons_tasks _ Hc i) as (ti' & Hti' & Hmi).
    { simpl. apply elem_of_seq. apply lookup_lt_Some in Hti. lia. }
    destruct (cons_tasks _ Hc j) as (tj' & Htj' & Hmj).
    { simpl. apply elem_of_seq. apply lookup_lt_Some in Htj. lia. }
    simpl in *. congruence.
Qed.

(** ** Editing a task *)

(** X9.  [update_task] is not atomic: [Task.update] assigns the fields in
    a fixed order and stops at the first invalid value, so a valid title
    (and description) given together with an invalid priority is stored
    although the call raises; the later fields are left alone. *)
Theorem update_task_not_atomic
    (strptime : string → option date) (now : datetime) (s : TaskManager)
    (id : string) (l : loc) (task : Task) (u : Updates) (x p : string) :
  get_task_by_id s id = Some (l, task) →
  u_title u = Some x → x ≠ "" → u_due_date_str u = None →
  u_priority u = Some p → priority_of_string p = None →
  u_status u ≠ Some "Concluída" →
  let r := update_task strptime now s id u in
  ret r = Raised (InvalidPriority p) ∧
  out r = [ErrUpdate (InvalidPriority p)] ∧
  get_task_by_id (st r) id
  = Some (l, set_description (default (description task) (u_description u))
               (set_title x task)).
Proof.
  intros Hg Ht Hx Hd Hp Hinv Hs r. subst r. unfold update_task. rewrite Hg.
  rewrite decide_False; [|done]. simpl.
  apply get_task_by_id_Some in Hg as [Hm Hh]. rewrite Hh.
  assert (update strptime now (pop_collections u) task
          = (set_description (default (description task) (u_description u))
               (set_title x task), Some (InvalidPriority p))) as ->.
  { unfold update, mut_all. simpl. rewrite Ht, Hd, Hp. simpl.
    unfold mut_seq at 1. simpl. rewrite decide_False; [|done]. simpl.
    unfold mut_seq at 1. unfold mut_when at 1.
    destruct (u_description u); simpl; unfold mut_seq at 1; simpl;
      unfold mut_seq at 1; simpl; by rewrite Hinv. }
  simpl. repeat (split; [done|]).
  eapply get_task_by_id_store_same. by apply get_task_by_id_Some.
Qed.

Lemma update_keeps_identity strptime now u a b p c d :
  mut_preserves
    (λ t, task_id t = a ∧ creation_date t = b ∧ projects t = p ∧
          contexts t = c ∧ depends_on_ids t = d)
    (update strptime now (pop_collections u)).
Proof.
  apply mut_preserves_all. simpl.
  repeat (apply Forall_cons; split;
          [first [apply mut_preserves_skip
                 |apply mut_preserves_when; intros x]|]);
    [..|apply Forall_nil];
    repeat case_match;
    try first [apply mut_preserves_raise
              |apply mut_preserves_ok; intros t Ht].
  all: try done.
  all: unfold mark_pending, mark_complete; by destruct (status t).
Qed.

(** X10.  Whatever keys it is given, [update_task] leaves the id, the
    creation date, the projects and the contexts of the task as they are
    and never adds a dependency: the dependencies are the old ones, less
    those that resolve to no task when the call goes through the check of
    [can_complete_task]. *)
Theorem update_task_keeps_identity
    (strptime : string → option date) (now : datetime) (s : TaskManager)
    (id : string) (u : Updates) (l : loc) (task : Task) :
  get_task_by_id s id = Some (l, task) →
  ∃ task', get_task_by_id (st (update_task strptime now s id u)) id
           = Some (l, task') ∧
           task_id task' = task_id task ∧
           creation_date task' = creation_date task ∧
           projects task' = projects task ∧
           contexts task' = contexts task ∧
           (depends_on_ids task' = depends_on_ids task ∨
            depends_on_ids task' = live_dependencies s task).
Proof.
  intros Hg. unfold update_task. rewrite Hg.
  set (c := if decide (u_status u = Some "Concluída") then _ else _).
  assert (∃ tp, get_task_by_id (st c) id = Some (l, tp) ∧
                task_id tp = task_id task ∧ creation_date tp = creation_date task ∧
                projects tp = projects task ∧ contexts tp = contexts task ∧
                (depends_on_ids tp = depends_on_ids task ∨
                 depends_on_ids tp = live_dependencies s task))
    as (tp & Hgp & Hid & Hcr & Hpr & Hco & Hde).
  { subst c. repeat case_decide.
    - eexists. split; [by apply can_complete_task_state|].
      repeat (split; [done|]). by right.
    - exists task. repeat (split; [done|]). by left.
    - exists task. repeat (split; [done|]). by left. }
  clearbody c. destruct (ret c); simpl.
  2:{ exists tp. repeat (split; [done|]). done. }
  pose proof Hgp as [_ Hh]%get_task_by_id_Some. rewrite Hh.
  pose proof (update_keeps_identity strptime now u (task_id tp)
                (creation_date tp) (projects tp) (contexts tp)
                (depends_on_ids tp) tp) as Hu.
  destruct (update _ _ _ tp) as [t'' e]. simpl in Hu.
  destruct Hu as (H1 & H2 & H3 & H4 & H5); [done|].
  assert (get_task_by_id (store (st c) l t'') id = Some (l, t'')) as Hg''
    by by eapply get_task_by_id_store_same.
  exists t''. split; [by destruct e|].
  split; [congruence|]. split; [congruence|]. split; [congruence|].
  split; [congruence|]. rewrite H5. done.
Qed.

(** X11.  The status key of [update_task]: completing a pending task is
    gated by [can_complete_task], so with a pending dependency the call
    returns [None] and no field is edited, and without one the task is
    completed at [now]; reverting a completed task is not gated at all,
    the task becomes pending whether or not completed tasks depend on
    it. *)
Theorem update_task_status_paths
    (strptime : string → option date) (now : datetime) (s : TaskManager)
    (id : string) (l : loc) (task : Task) :
  get_task_by_id s id = Some (l, task) →
  let complete := mkUpdates None None None None None (Some "Concluída")
                    None None None None in
  let revert := mkUpdates None None None None None (Some "Pendente")
                  None None None None in
  (status task = Pendente → (∃ d, pending_dependency s task d) →
   ∀ u, u_status u = Some "Concluída" →
     ret (update_task strptime now s id u) = Returned None ∧
     get_task_by_id (st (update_task strptime now s id u)) id
     = Some (l, set_depends_on_ids (live_dependencies s task) task)) ∧
  (status task = Pendente → (∀ d, ¬ pending_dependency s task d) →
   ret (update_task strptime now s id complete) = Returned (Some l) ∧
   get_task_by_id (st (update_task strptime now s id complete)) id
   = Some (l, mark_complete now
                (set_depends_on_ids (live_dependencies s task) task))) ∧
  (status task = Concluida →
   update_task strptime now s id revert
   = mkRes (Returned (Some l)) [] (store s l (mark_pending task))).
Proof.
  intros Hg complete revert.
  pose proof (can_complete_task_state _ _ _ _ Hg) as Hst.
  pose proof (can_complete_task_ret _ _ _ _ Hg) as Hret.
  split; [|split].
  - intros Hs [d Hd] u Hu. unfold update_task. rewrite Hg.
    rewrite decide_True; [|done].
    destruct (decide (status task = Pendente)); [|done].
    destruct Hret as [(_ & Hnone & _)|(Hr & _)]; [by destruct (Hnone d)|].
    rewrite Hr. simpl. done.
  - intros Hs Hnone. unfold update_task. rewrite Hg. simpl.
    rewrite decide_True; [|done].
    destruct (decide (status task = Pendente)); [|done].
    destruct Hret as [(Hr & _)|(_ & inc & _ & Hne & Hall)].
    2:{ destruct inc as [|[tit d] inc]; [done|]. destruct (Hnone d).
        apply Hall. left. }
    rewrite Hr. simpl.
    pose proof Hst as [_ Hh]%get_task_by_id_Some. rewrite Hh.
    unfold update, mut_all, mut_seq, mut_when, mut_ok. simpl.
    split; [done|]. by eapply get_task_by_id_store_same.
  - intros Hs. unfold update_task. rewrite Hg. simpl.
    apply get_task_by_id_Some in Hg as [_ Hh]. rewrite Hh.
    unfold update, mut_all, mut_seq, mut_when, mut_ok. simpl.
    by destruct (decide (status task = Concluida)).
Qed.

(** ** Saving and loading *)

Lemma status_of_string_of_status st :
  status_of_string (string_of_status st) = Some st.
Proof. by destruct st. Qed.

Lemma priority_of_string_of_priority p :
  priority_of_string (string_of_priority p) = Some p.
Proof. by destruct p. Qed.

Lemma quadrant_of_string_of_quadrant q :
  quadrant_of_string (string_of_quadrant q) = Some q.
Proof. by destruct q. Qed.

(** Reading back what [to_dict] wrote. *)
Lemma from_dict_to_dict_eq
    (date_isoformat : date → string) (datetime_isoformat : datetime → string)
    (fromisoformat : string → option datetime) (strptime : string → option date)
    (uuid : string) (now : datetime) (t : Task) :
  (∀ d, strptime (date_isoformat d) = Some d) →
  (∀ d, date_isoformat d ≠ "") →
  (∀ d, fromisoformat (datetime_isoformat d) = Some d) →
  (∀ d, datetime_isoformat d ≠ "") →
  storable t →
  from_dict fromisoformat strptime uuid now
    (to_dict date_isoformat datetime_isoformat t) = inr t.
Proof.
  intros Hdate Hdate_ne Hdt Hdt_ne (Htitle & Hid & Hts).
  unfold from_dict, to_dict, parse_datetime, Task_init. simpl.
  rewrite decide_False; [|apply Hdt_ne]. rewrite Hdt.
  assert (match datetime_isoformat <$> completion_date t with
          | Some x =>
              if decide (x = "") then Some None
              else match fromisoformat x with
                   | Some d => Some (Some d)
                   | None => None
                   end
          | None => Some None
          end = Some (completion_date t)) as ->.
  { destruct (completion_date t) as [c|]; simpl; [|done].
    rewrite decide_False; [|apply Hdt_ne]. by rewrite Hdt. }
  rewrite decide_False; [|done].
  rewrite priority_of_string_of_priority, status_of_string_of_status.
  assert (match string_of_quadrant <$> eisenhower_quadrant t with
          | Some q => match quadrant_of_string q with
                      | Some q' => inr (Some q')
                      | None => inl (InvalidQuadrant q)
                      end
          | None => inr None
          end = (inr (eisenhower_quadrant t) : ValueError + option Quadrant)) as ->.
  { destruct (eisenhower_quadrant t) as [q|]; simpl; [|done].
    by rewrite quadrant_of_string_of_quadrant. }
  assert (match date_isoformat <$> due_date t with
          | Some ds => if decide (ds = "") then inr None
                       else match strptime ds with
                            | Some d => inr (Some d)
                            | None => inl InvalidDateFormat
                            end
          | None => inr None
          end = (inr (due_date t) : ValueError + option date)) as ->.
  { destruct (due_date t) as [d|]; simpl; [|done].
    rewrite decide_False; [|apply Hdate_ne]. by rewrite Hdate. }
  rewrite decide_False; [|done]. f_equal.
  unfold timestamp_ok in Hts.
  destruct t as [tid ti de pr ca st cr co du ei dp pj cx]. simpl in *.
  rewrite !list_to_set_elements_L. f_equal.
  destruct st, co as [c|]; simpl; try done.
  - destruct Hts as [Hts _]. by specialize (Hts (mk_is_Some _ _ eq_refl)).
  - destruct Hts as [_ [? [=]]]. done.
Qed.

(** X12.  A task written by [to_dict] is read back by [from_dict] as the
    same task, given that the date codecs invert each other and never
    write the empty text, and that the task has a title, an id and a
    completion date exactly when it is completed. *)
Theorem from_dict_to_dict
    (date_isoformat : date → string) (datetime_isoformat : datetime → string)
    (fromisoformat : string → option datetime) (strptime : string → option date)
    (uuid : string) (now : datetime) (t : Task) :
  (∀ d, strptime (date_isoformat d) = Some d) →
  (∀ d, date_isoformat d ≠ "") →
  (∀ d, fromisoformat (datetime_isoformat d) = Some d) →
  (∀ d, datetime_isoformat d ≠ "") →
  storable t →
  from_dict fromisoformat strptime uuid now
    (to_dict date_isoformat datetime_isoformat t) = inr t.
Proof. apply from_dict_to_dict_eq. Qed.

Lemma count_strokes_strokes n : count_strokes (strokes n) = n.
Proof.
  unfold count_strokes, strokes. induction n as [|n IH]; simpl; [done|].
  by rewrite IH.
Qed.






(** ** Listing tasks *)

Lemma insert_sorted_perm le x l : insert_sorted le x l ≡ₚ x :: l.
Proof.
  induction l as [|y r IH]; simpl; [done|].
  destruct (le x y); [done|]. rewrite IH. apply Permutation_swap.
Qed.

Lemma list_sort_perm key rev l : list_sort key rev l ≡ₚ l.
Proof.
  unfold list_sort. induction l as [|x r IH]; simpl; [done|].
  by rewrite insert_sorted_perm, IH.
Qed.

Lemma StronglySorted_impl (R R' : relation Task) l :
  (∀ a b, R a b → R' a b) → StronglySorted R l → StronglySorted R' l.
Proof.
  intros HR. induction 1 as [|x r Hr IH Hx]; constructor; [done|].
  eapply Forall_impl; [done|]. intros y. apply HR.
Qed.

Lemma insert_sorted_sorted le (prev : relation Task) x l :
  (∀ a b, le a b = true ∨ le b a = true) →
  (∀ a b c, le a b = true → le b c = true → le a c = true) →
  StronglySorted (after_sort le prev) l → Forall (prev x) l →
  StronglySorted (after_sort le prev) (insert_sorted le x l).
Proof.
  intros Htotal Htrans. induction l as [|y r IH]; intros Hs Hx; simpl.
  { repeat constructor. }
  apply StronglySorted_inv in Hs as [Hr Hy].
  apply Forall_cons in Hx as [Hxy Hxr].
  destruct (le x y) eqn:E.
  - constructor; [by constructor|]. constructor.
    + split; [done|]. by intros _.
    + rewrite Forall_forall in Hy, Hxr. apply Forall_forall. intros z Hz.
      destruct (Hy _ Hz) as [Hyz _]. split; [by eapply Htrans|].
      intros _. by apply Hxr.
  - constructor; [by apply IH|].
    assert (le y x = true) as Hyx by (destruct (Htotal x y); congruence).
    rewrite insert_sorted_perm. constructor; [|done].
    split; [done|]. intros ?. congruence.
Qed.

Lemma key_le_total key rev a b :
  key_le key rev a b = true ∨ key_le key rev b a = true.
Proof.
  unfold key_le. destruct rev; rewrite !Nat.leb_le; lia.
Qed.

Lemma key_le_trans key rev a b c :
  key_le key rev a b = true → key_le key rev b c = true →
  key_le key rev a c = true.
Proof.
  unfold key_le. destruct rev; rewrite !Nat.leb_le; lia.
Qed.

Lemma list_sort_sorted key rev (prev : relation Task) l :
  StronglySorted prev l →
  StronglySorted (after_sort (key_le key rev) prev) (list_sort key rev l).
Proof.
  induction 1 as [|x r Hr IH Hx]; simpl; [constructor|].
  apply insert_sorted_sorted;
    [apply key_le_total|apply key_le_trans|done|].
  by rewrite list_sort_perm.
Qed.

Lemma StronglySorted_True l : StronglySorted (λ _ _ : Task, True) l.
Proof.
  induction l; constructor; [done|]. by apply Forall_forall.
Qed.

Lemma after_sort_lex2 k1 k2 (prev : relation Task) a b :
  after_sort (key_le k1 false) (after_sort (key_le k2 false) prev) a b →
  lex2 k1 k2 a b.
Proof.
  unfold after_sort, key_le, lex2. rewrite !Nat.leb_le.
  intros [H1 H2]. destruct (decide (k1 a = k1 b)) as [Heq|]; [|lia].
  right. split; [done|]. destruct H2 as [H2 _]; [lia|]. done.
Qed.

Lemma after_sort_lex3 k1 k2 k3 (prev : relation Task) a b :
  after_sort (key_le k1 false)
    (after_sort (key_le k2 false) (after_sort (key_le k3 false) prev)) a b →
  lex3 k1 k2 k3 a b.
Proof.
  intros [H1 H2]. unfold lex3. unfold key_le in H1, H2 at 1.
  rewrite !Nat.leb_le in *.
  destruct (decide (k1 a = k1 b)) as [Heq|]; [|lia].
  right. split; [done|]. eapply after_sort_lex2. apply H2. lia.
Qed.

Lemma keep_if_filter o p l :
  keep_if o p l = List.filter (λ t, from_option (λ v, p v t) true o) l.
Proof.
  destruct o; simpl; [done|]. induction l; simpl; [done|]. by f_equal.
Qed.

Lemma filter_filter_andb (p q : Task → bool) l :
  List.filter q (List.filter p l) = List.filter (λ t, p t && q t) l.
Proof.
  induction l as [|x r IH]; simpl; [done|].
  destruct (p x); simpl; [|done]. destruct (q x); by rewrite IH.
Qed.

Lemma apply_filters_filter today f l :
  apply_filters today f l = List.filter (passes_filters today f) l.
Proof.
  unfold apply_filters. rewrite !keep_if_filter, !filter_filter_andb.
  apply List.filter_ext. intros t. unfold passes_filters.
  by rewrite !andb_assoc.
Qed.

Lemma list_tasks_perm today s f sort_by :
  list_tasks today s f sort_by
  ≡ₚ List.filter (passes_filters today f) (all_tasks s).
Proof.
  unfold list_tasks. rewrite apply_filters_filter.
  repeat case_decide; by rewrite ?list_sort_perm.
Qed.

(** X14.  [list_tasks] returns the tasks of the registry that pass every
    filter given, each as often as the list holds it, whatever the sort
    key: a task is listed exactly when it is in the list of the manager
    and passes the filters, and without filters the listing is a
    rearrangement of all tasks. *)
Theorem list_tasks_selects (today : date) (s : TaskManager) (f : Filters)
    (sort_by : string) :
  list_tasks today s f sort_by
    ≡ₚ List.filter (passes_filters today f) (all_tasks s) ∧
  (∀ t, t ∈ list_tasks today s f sort_by ↔
        t ∈ all_tasks s ∧ passes_filters today f t = true) ∧
  list_tasks today s (mkFilters None None None None None None None) sort_by
    ≡ₚ all_tasks s.
Proof.
  split; [apply list_tasks_perm|]. split.
  - intros t. rewrite list_tasks_perm, !list_elem_of_In, filter_In. done.
  - rewrite list_tasks_perm. simpl.
    induction (all_tasks s) as [|x r IH]; simpl; [done|]. by rewrite IH.
Qed.

(** X15.  The order of a listing.  With the default key ["due_date"] the
    tasks come by priority (Alta, Média, Baixa) and, within a priority, by
    due date with the tasks without one last.  With the key ["priority"],
    and with any key the code does not know, they come by due date first
    and by priority within a date; with ["eisenhower"] by due date, then
    priority, then quadrant; with ["creation_date"] by priority and, within
    a priority, newest first. *)
Theorem list_tasks_order (today : date) (s : TaskManager) (f : Filters)
    (sort_by : string) :
  (sort_by = "due_date" →
   StronglySorted (lex2 priority_key due_key) (list_tasks today s f sort_by)) ∧
  (sort_by = "eisenhower" →
   StronglySorted (lex3 due_key priority_key quadrant_key)
     (list_tasks today s f sort_by)) ∧
  (sort_by = "creation_date" →
   StronglySorted
     (λ a b, priority_key a < priority_key b ∨
             (priority_key a = priority_key b ∧
              creation_date b ≤ creation_date a))
     (list_tasks today s f sort_by)) ∧
  (sort_by ≠ "due_date" → sort_by ≠ "eisenhower" → sort_by ≠ "creation_date" →
   StronglySorted (lex2 due_key priority_key) (list_tasks today s f sort_by)).
Proof.
  unfold list_tasks.
  set (l := apply_filters today f (all_tasks s)). clearbody l.
  pose proof (StronglySorted_True l) as Hl.
  split; [|split; [|split]].
  - intros ->. simpl.
    eapply StronglySorted_impl; [apply after_sort_lex2|].
    by apply list_sort_sorted, list_sort_sorted.
  - intros ->. simpl.
    eapply StronglySorted_impl; [apply after_sort_lex3|].
    by apply list_sort_sorted, list_sort_sorted, list_sort_sorted.
  - intros ->. simpl.
    eapply StronglySorted_impl;
      [|by apply list_sort_sorted, (list_sort_sorted creation_date true)].
    intros a b [H1 H2]. unfold key_le in H1, H2 at 1.
    rewrite !Nat.leb_le in *.
    destruct (decide (priority_key a = priority_key b)) as [Heq|]; [|lia].
    right. split; [done|]. destruct H2 as [H2 _]; [lia|].
    unfold key_le in H2. by apply Nat.leb_le in H2.
  - intros H1 H2 H3.
    repeat case_decide; try done;
      (eapply StronglySorted_impl; [apply after_sort_lex2|]);
      by repeat apply list_sort_sorted.
Qed.

(** ** Properties of task objects that every call keeps *)

(** A property of task objects that the assignments made by the manager
    keep holds of every object after every call. *)
Lemma exec_heap_Forall strptime (P : Task → Prop) c s :
  (∀ t d, P t → P (set_depends_on_ids d t)) →
  (∀ t tag_type tag, P t →
     P (set_tag_set tag_type ({[_normalize_tag tag]} ∪ tag_set tag_type t) t)) →
  (∀ t tag_type x, P t →
     P (set_tag_set tag_type (tag_set tag_type t ∖ {[x]}) t)) →
  (∀ now t, P t → P (mark_complete now t)) →
  (∀ t, P t → P (mark_pending t)) →
  (∀ now u, mut_preserves P (update strptime now (pop_collections u))) →
  (∀ uuid now n t,
     Task_init strptime uuid now (add_task_args uuid n) = inr t → P t) →
  Forall P (heap s) → Forall P (heap (exec strptime c s)).
Proof.
  intros Hdeps Hadd Hrm Hcomplete Hpending Hupdate Hinit Hs.
  assert (∀ s id l t, Forall P (heap s) → get_task_by_id s id = Some (l, t) → P t)
    as Hget.
  { intros s0 id l t H0 [_ Hh]%get_task_by_id_Some.
    rewrite Forall_lookup in H0. by eapply H0. }
  assert (∀ s id, Forall P (heap s) → Forall P (heap (st (can_complete_task s id))))
    as Hcan.
  { intros s0 id H0. unfold can_complete_task.
    destruct (get_task_by_id s0 id) as [[l task]|] eqn:Hg; [|done].
    set (missing := filter _ (elements (depends_on_ids task))).
    assert (Forall P (heap (store s0 l (set_depends_on_ids
              (depends_on_ids task ∖ list_to_set missing) task)))).
    { apply Forall_insert; [done|]. apply Hdeps. by eapply Hget. }
    clearbody missing.
    destruct missing; by destruct (omap _ (elements (depends_on_ids task))). }
  destruct c; simpl.
  - rewrite add_task_unfold.
    destruct (check_new_dependencies _ _ _); [done|].
    destruct (Task_init _ _ _ _) as [e|t] eqn:E; [done|]. simpl.
    apply Forall_app. split; [done|]. apply Forall_singleton. by eapply Hinit.
  - unfold update_task.
    destruct (get_task_by_id s id) as [[l task]|] eqn:Hg; [|done].
    set (c := if decide (u_status u = Some "Concluída") then _ else _).
    assert (Forall P (heap (st c))) as Hc.
    { subst c. repeat case_decide; try done. by apply Hcan. }
    clearbody c. destruct (ret c); simpl; [|done].
    destruct (heap (st c) !! l) as [task'|] eqn:Hh; [|done].
    pose proof (Hupdate now u task') as Hu.
    destruct (update _ _ _ task') as [task'' [e|]]; simpl;
      (apply Forall_insert; [done|]); apply Hu;
      rewrite Forall_lookup in Hc; by eapply Hc.
  - unfold delete_task.
    destruct (get_task_by_id s id) as [[l task]|]; [|done].
    destruct (omap _ (all_tasks s)); [|done].
    by destruct (list_remove l (tasks s)).
  - by apply Hcan.
  - unfold mark_task_complete. specialize (Hcan s id Hs).
    destruct (ret (can_complete_task s id)); simpl; [|done].
    destruct (get_task_by_id (st (can_complete_task s id)) id)
      as [[l task]|] eqn:Hg; [|done].
    destruct (status task) eqn:E; [|done]. simpl.
    apply Forall_insert; [done|]. apply Hcomplete. by eapply Hget.
  - unfold mark_task_pending.
    destruct (get_task_by_id s id) as [[l task]|] eqn:Hg; [|done].
    destruct (status task) eqn:E; [done|].
    destruct (omap _ (all_tasks s)); [|done]. simpl.
    apply Forall_insert; [done|]. apply Hpending. by eapply Hget.
  - unfold add_dependency.
    destruct (get_task_by_id s id) as [[l task]|] eqn:Hg; [|done].
    destruct (get_task_by_id s dependency_id); [|done].
    repeat (case_decide; [done|]).
    destruct (_check_circular_dependency s id dependency_id); [done|]. simpl.
    apply Forall_insert; [done|]. apply Hdeps. by eapply Hget.
  - unfold remove_dependency.
    destruct (get_task_by_id s id) as [[l task]|] eqn:Hg; [|done].
    case_decide; [|done]. simpl.
    apply Forall_insert; [done|]. apply Hdeps. by eapply Hget.
  - unfold add_project_to_task, _add_tag_to_task.
    destruct (get_task_by_id s id) as [[l task]|] eqn:Hg; [|done].
    repeat (case_decide; [done|]). simpl.
    apply Forall_insert; [done|]. apply Hadd. by eapply Hget.
  - unfold remove_project_from_task, _remove_tag_from_task.
    destruct (get_task_by_id s id) as [[l task]|] eqn:Hg; [|done].
    case_decide; [|done]. simpl.
    apply Forall_insert; [done|]. apply Hrm. by eapply Hget.
  - unfold add_context_to_task, _add_tag_to_task.
    destruct (get_task_by_id s id) as [[l task]|] eqn:Hg; [|done].
    repeat (case_decide; [done|]). simpl.
    apply Forall_insert; [done|]. apply Hadd. by eapply Hget.
  - unfold remove_context_from_task, _remove_tag_from_task.
    destruct (get_task_by_id s id) as [[l task]|] eqn:Hg; [|done].
    case_decide; [|done]. simpl.
    apply Forall_insert; [done|]. apply Hrm. by eapply Hget.
Qed.

Lemma title_Task_init strptime uuid now a t :
  Task_init strptime uuid now a = inr t → title t ≠ "".
Proof.
  unfold Task_init. intros H.
  repeat (case_match; try discriminate H; []).
  by injection H as <-.
Qed.

Lemma title_update strptime now u :
  mut_preserves (λ t, title t ≠ "") (update strptime now u).
Proof.
  apply mut_preserves_all.
  repeat (apply Forall_cons; split; [apply mut_preserves_when; intros x|]);
    [..|apply Forall_nil];
    repeat case_match;
    try first [apply mut_preserves_raise
              |apply mut_preserves_ok; intros t Ht].
  all: try done.
  all: unfold mark_pending, mark_complete; by destruct (status t).
Qed.

(** X16.  No task ever has an empty title: [Task.__init__] refuses one,
    so the tasks read from a file have a title, [Task.update] refuses to
    set one, and every call on the manager keeps all titles non-empty. *)
Theorem titles_never_empty (strptime : string → option date) :
  (∀ uuid now a, a_title a = "" →
     Task_init strptime uuid now a = inl EmptyTitle) ∧
  (∀ now u t, u_title u = Some "" →
     update strptime now u t = (t, Some EmptyTitle)) ∧
  (∀ fromisoformat file,
     titles_ok (TaskManager_init (load_file fromisoformat strptime file))) ∧
  (∀ c s, titles_ok s → titles_ok (exec strptime c s)).
Proof.
  split; [|split; [|split]].
  - intros uuid now a Ha. unfold Task_init. by rewrite decide_True.
  - intros now u t Hu. unfold update, mut_all. simpl. rewrite Hu. done.
  - intros fromisoformat file. unfold titles_ok, TaskManager_init, load_file.
    simpl. apply Forall_forall.
    intros t ([[uuid now] d] & _ & Hd)%list_elem_of_omap.
    destruct (from_dict _ _ _ _ _) as [e|t'] eqn:E; [done|].
    injection Hd as ->. unfold from_dict in E.
    repeat (case_match; try discriminate E; []).
    injection E as ->. by eapply title_Task_init.
  - intros c s. unfold titles_ok. apply exec_heap_Forall; try done.
    + intros t tag_type tag. unfold set_tag_set. by case_decide.
    + intros t tag_type x. unfold set_tag_set. by case_decide.
    + intros now t. unfold mark_complete. by destruct (status t).
    + intros t. unfold mark_pending. by destruct (status t).
    + intros now u. apply title_update.
    + intros uuid now n t. apply title_Task_init.
Qed.

Lemma normalize_tags_normal l x :
  TextLaws → x ∈ normalize_tags l → _normalize_tag x = x.
Proof.
  intros laws. destruct l as [l|]; simpl; [|by intros ?%elem_of_nil].
  intros (y & -> & _)%list_elem_of_fmap. by apply _normalize_tag_idemp.
Qed.

(** X17.  Given the laws of the text library, tags stay in normal form: a
    task created by [add_task] has only normalised projects and contexts
    (the empty tag among them when a blank, non-empty one is passed), and
    every call on the manager keeps the tags of every task in normal
    form. *)
Theorem tags_stay_normalized (strptime : string → option date) :
  TextLaws →
  (∀ s uuid now n l,
     ret (add_task strptime uuid now s n) = Returned l →
     ∃ t, heap (st (add_task strptime uuid now s n)) !! l = Some t ∧
          tags_normal t ∧
          projects t = list_to_set (normalize_tags (n_projects n)) ∧
          contexts t = list_to_set (normalize_tags (n_contexts n))) ∧
  normalize_tags (Some [""; "  "; " Casa  NOVA "]) = [""; "casa nova"] ∧
  (∀ c s, Forall tags_normal (heap s) →
          Forall tags_normal (heap (exec strptime c s))).
Proof.
  intros laws.
  assert (∀ uuid now n t,
    Task_init strptime uuid now (add_task_args uuid n) = inr t →
    tags_normal t) as Hnormal.
  { intros uuid now n t (_ & _ & _ & _ & Hp & Hc)%Task_init_add_task x.
    rewrite Hp, Hc. rewrite elem_of_union, !elem_of_list_to_set.
    intros [Hx|Hx]; by eapply normalize_tags_normal. }
  split; [|split].
  - intros s uuid now n l. rewrite add_task_unfold.
    destruct (check_new_dependencies _ _ _); [done|].
    destruct (Task_init _ _ _ _) as [e|t] eqn:E; [done|]. simpl.
    intros [= <-]. exists t. split.
    { by rewrite lookup_app_r, Nat.sub_diag by done. }
    split; [by eapply Hnormal|].
    by apply Task_init_add_task in E as (_ & _ & _ & _ & Hp & Hc).
  - unfold normalize_tags. simpl.
    by rewrite !_normalize_tag_ascii.
  - intros c s. apply exec_heap_Forall; try done.
    + intros t tag_type tag Ht x. unfold set_tag_set, tag_set.
      case_decide; simpl; rewrite !elem_of_union, ?elem_of_singleton;
        intros Hx; (destruct Hx as [Hx|Hx]; [try destruct Hx as [->|Hx]|
                                             try destruct Hx as [->|Hx]]);
        try (by apply _normalize_tag_idemp); apply Ht; set_solver.
    + intros t tag_type y Ht x. unfold set_tag_set, tag_set.
      case_decide; simpl; intros Hx; apply Ht; set_solver.
    + intros now t Ht x. unfold mark_complete.
      destruct (status t); apply Ht.
    + intros t Ht x. unfold mark_pending. destruct (status t); apply Ht.
    + intros now u t Ht.
      pose proof (update_keeps_identity strptime now u
                    (task_id t) (creation_date t) 
                    (projects t) (contexts t) (depends_on_ids t) t) as Hu.
      destruct Hu as (_ & _ & Hp & Hc & _); [done|].
      intros x. rewrite Hp, Hc. apply Ht.
Qed.

Lemma list_remove_app_last l ls :
  l ∉ ls → list_remove l (ls ++ [l]) = Some ls.
Proof.
  induction ls as [|x r IH]; simpl; intros Hl.
  - by rewrite decide_True.
  - apply not_elem_of_cons in Hl as [Hne Hl].
    rewrite decide_False by done. by rewrite IH.
Qed.

Lemma omap_lookup_app (h h' : list Task) (ls : list loc) :
  Forall (λ l, l < length h) ls →
  omap (λ l, (h ++ h') !! l) ls = omap (λ l, h !! l) ls.
Proof.
  induction 1 as [|l ls Hl _ IH]; [done|].
  cbn. by rewrite lookup_app_l, IH by done.
Qed.

(** X18.  Deleting a task right after adding it undoes the addition:
    when the new id is fresh (it is not a key of the index and no task
    names it as a dependency), [delete_task] on that id succeeds and
    leaves the task list and the index exactly as they were before the
    addition. *)
Theorem add_then_delete_task strptime uuid now s n l :
  consistent s →
  _task_map s !! uuid = None →
  Forall (λ t, uuid ∉ depends_on_ids t) (all_tasks s) →
  ret (add_task strptime uuid now s n) = Returned l →
  let s1 := st (add_task strptime uuid now s n) in
  delete_task s1 uuid =
    mkRes (Returned true) [] (mkTM (heap s1) (tasks s) (_task_map s)) ∧
  all_tasks (st (delete_task s1 uuid)) = all_tasks s.
Proof.
  intros Hc Hfresh Hnot. rewrite add_task_unfold.
  destruct (check_new_dependencies _ _ _) eqn:Hcheck; [done|].
  apply check_new_dependencies_None in Hcheck. rewrite Forall_forall in Hcheck.
  destruct (Task_init _ _ _ _) as [e|t] eqn:Hinit; [done|]. simpl.
  apply Task_init_add_task in Hinit as (Hid & _ & _ & Hdeps & _).
  intros [= <-].
  assert (Forall (λ l, l < length (heap s)) (tasks s)) as Hlt.
  { apply Forall_forall. intros l (t' & Hh & _)%(cons_tasks s Hc).
    by apply lookup_lt_Some in Hh. }
  assert (length (heap s) ∉ tasks s) as HL.
  { rewrite Forall_forall in Hlt. intros ?%Hlt. lia. }
  assert (uuid ∉ depends_on_ids t) as Ht.
  { rewrite Hdeps, elem_of_list_to_set. intros [[l Hl] _]%Hcheck. congruence. }
  assert (delete_task
            (mkTM (heap s ++ [t]) (tasks s ++ [length (heap s)])
               (<[task_id t := length (heap s)]> (_task_map s))) uuid =
          mkRes (Returned true) []
            (mkTM (heap s ++ [t]) (tasks s) (_task_map s))) as ->.
  { unfold delete_task, get_task_by_id, all_tasks. simpl. rewrite Hid.
    rewrite lookup_insert_eq, lookup_app_r, Nat.sub_diag by done. simpl.
    rewrite omap_app, omap_lookup_app by done. simpl.
    rewrite lookup_app_r, Nat.sub_diag by done. simpl.
    rewrite omap_app. simpl. rewrite decide_False by done. simpl.
    rewrite app_nil_r.
    replace (omap _ (omap _ (tasks s))) with (@nil string).
    - by rewrite list_remove_app_last, delete_insert_id by done.
    - symmetry. fold (all_tasks s). clear -Hnot.
      induction Hnot as [|x r Hx _ IH]; [done|].
      cbn. by rewrite decide_False by done. }
  split; [done|]. unfold all_tasks. simpl. by apply omap_lookup_app.
Qed.

(** ** The normal form of tags *)









(** ** Progress: the pending tasks can always be completed *)

Lemma reachable_ids_edge s x y :
  acyclic s → edge s x y → is_Some (_task_map s !! y) →
  reachable_ids s y ⊂ reachable_ids s x.
Proof.
  intros Hac He Hy. unfold reachable_ids. split.
  - intros z [Hz Hd]%elem_of_filter. apply elem_of_filter. split; [|done].
    apply _check_circular_dependency_spec.
    apply _check_circular_dependency_spec in Hz. by eapply tc_l.
  - intros Hsub. assert (y ∈ filter (λ z, _check_circular_dependency s z y = true)
                               (dom (_task_map s))) as H.
    { apply Hsub, elem_of_filter. split; [|by apply elem_of_dom].
      by apply _check_circular_dependency_spec, tc_once. }
    apply elem_of_filter in H as [H _].
    apply _check_circular_dependency_spec in H. by apply (Hac y).
Qed.

Lemma pending_task_without_pending_dependency s :
  acyclic s → ∀ n id l task,
  size (reachable_ids s id) < n →
  get_task_by_id s id = Some (l, task) → status task = Pendente →
  ∃ id' l' task',
    rtc (edge s) id id' ∧ get_task_by_id s id' = Some (l', task') ∧
    status task' = Pendente ∧ ∀ d, ¬ pending_dependency s task' d.
Proof.
  intros Hac n. induction n as [|n IH]; intros id l task Hn Hg Hs; [lia|].
  destruct (can_complete_task_ret s id l task Hg)
    as [(_ & Hnone & _)|(_ & incomplete & _ & Hne & Hinc)].
  { by exists id, l, task. }
  destruct incomplete as [|[ti d] r]; [done|].
  destruct (proj1 (Hinc d)) as (Hd & ld & dt & Hgd & Hsd).
  { simpl. apply elem_of_cons. by left. }
  assert (edge s id d) as He by (by exists l, task).
  destruct (IH d ld dt) as (id' & l' & task' & Hr & H); [|done|done|].
  - assert (reachable_ids s d ⊂ reachable_ids s id) as Hsub.
    { apply reachable_ids_edge; [done|done|].
      apply get_task_by_id_Some in Hgd as [-> _]. by eexists. }
    apply subset_size in Hsub. lia.
  - exists id', l', task'. split; [by eapply rtc_l|done].
Qed.

Lemma mark_task_complete_succeeds now s id l task :
  get_task_by_id s id = Some (l, task) → status task = Pendente →
  (∀ d, ¬ pending_dependency s task d) →
  ret (mark_task_complete now s id) = Some l.
Proof.
  intros Hg Hs Hnone. unfold mark_task_complete.
  destruct (can_complete_task_ret s id l task Hg)
    as [(-> & _)|(_ & incomplete & _ & Hne & Hinc)].
  - simpl. rewrite (can_complete_task_state s id l task Hg). simpl.
    by rewrite Hs.
  - destruct incomplete as [|[ti d] r]; [done|].
    destruct (Hnone d). apply Hinc. simpl. apply elem_of_cons. by left.
Qed.

(** X20.  No deadlock: in a registry without cycles, the dependencies of
    any pending task lead to a pending task (possibly itself) that has no
    pending dependency, and [mark_task_complete] completes that one. *)
Theorem some_pending_task_can_be_completed now s id l task :
  acyclic s →
  get_task_by_id s id = Some (l, task) → status task = Pendente →
  ∃ id' l' task',
    rtc (edge s) id id' ∧ get_task_by_id s id' = Some (l', task') ∧
    status task' = Pendente ∧
    ret (mark_task_complete now s id') = Some l'.
Proof.
  intros Hac Hg Hs.
  destruct (pending_task_without_pending_dependency s Hac
              (S (size (reachable_ids s id))) id l task)
    as (id' & l' & task' & Hr & Hg' & Hs' & Hnone); [lia|done|done|].
  exists id', l', task'. repeat (split; [done|]).
  by apply mark_task_complete_succeeds with task'.
Qed.

Lemma can_complete_task_other s id x :
  consistent s → x ≠ id →
  get_task_by_id (st (can_complete_task s id)) x = get_task_by_id s x.
Proof.
  intros Hc Hne. unfold can_complete_task.
  destruct (get_task_by_id s id) as [[l task]|] eqn:Hg; [|done].
  set (missing := filter _ (elements (depends_on_ids task))). clearbody missing.
  assert (get_task_by_id
            (store s l (set_depends_on_ids
                          (depends_on_ids task ∖ list_to_set missing) task)) x
          = get_task_by_id s x) by (by eapply get_task_by_id_store_other).
  destruct missing; by destruct (omap _ (elements (depends_on_ids task))).
Qed.

Lemma can_complete_task_index s id :
  _task_map (st (can_complete_task s id)) = _task_map s.
Proof.
  unfold can_complete_task.
  destruct (get_task_by_id s id) as [[l task]|] eqn:Hg; [|done].
  set (missing := filter _ (elements (depends_on_ids task))). clearbody missing.
  destruct missing; by destruct (omap _ (elements (depends_on_ids task))).
Qed.

Lemma mark_task_complete_pending now s id l :
  consistent s → ret (mark_task_complete now s id) = Some l →
  let s1 := st (mark_task_complete now s id) in
  _task_map s1 = _task_map s ∧ is_pending s id = true ∧
  ∀ x, is_pending s1 x = if decide (x = id) then false else is_pending s x.
Proof.
  intros Hc. unfold mark_task_complete.
  pose proof (consistent_can_complete_task s id Hc) as Hc'.
  pose proof (can_complete_task_index s id) as Hidx.
  pose proof (can_complete_task_other s id) as Hother.
  destruct (get_task_by_id s id) as [[l0 task]|] eqn:Hg.
  2:{ unfold can_complete_task. by rewrite Hg. }
  pose proof (can_complete_task_state s id l0 task Hg) as Hst.
  destruct (ret (can_complete_task s id)); simpl; [|done].
  rewrite Hst. simpl. destruct (status task) eqn:Hs; [|done]. simpl.
  intros [= <-]. split; [done|].
  split; [unfold is_pending; rewrite Hg; by rewrite Hs|].
  intros x. unfold is_pending. case_decide as Hx.
  - subst x. erewrite get_task_by_id_store_same by done.
    unfold mark_complete. simpl. by rewrite Hs.
  - erewrite get_task_by_id_store_other by done. by rewrite Hother.
Qed.

Lemma pending_ids_empty s id l t :
  pending_ids s = ∅ → get_task_by_id s id = Some (l, t) → status t = Concluida.
Proof.
  intros He Hg. destruct (status t) eqn:Hs; [|done].
  assert (id ∈ pending_ids s) as Hin; [|by rewrite He in Hin].
  apply elem_of_filter. split.
  - unfold is_pending. rewrite Hg, Hs. done.
  - apply elem_of_dom. apply get_task_by_id_Some in Hg as [-> _]. by eexists.
Qed.

Lemma complete_all_exists now n s :
  consistent s → acyclic s → size (pending_ids s) ≤ n →
  ∃ ids s', complete_all now s ids = Some s' ∧
            NoDup ids ∧ (∀ id, id ∈ ids ↔ id ∈ pending_ids s) ∧
            _task_map s' = _task_map s ∧ pending_ids s' = ∅.
Proof.
  revert s. induction n as [|n IH]; intros s Hc Hac Hn.
  { exists [], s. split; [done|]. split; [constructor|].
    assert (pending_ids s = ∅) as He by (apply leibniz_equiv, size_empty_iff; lia).
    rewrite He. split; [set_solver|done]. }
  destruct (decide (pending_ids s = ∅)) as [He|Hne].
  { exists [], s. split; [done|]. split; [constructor|].
    rewrite He. split; [set_solver|done]. }
  apply set_choose_L in Hne as [id [Hp Hd]%elem_of_filter].
  unfold is_pending in Hp.
  destruct (get_task_by_id s id) as [[l task]|] eqn:Hg; [|done].
  apply bool_decide_eq_true in Hp.
  destruct (pending_task_without_pending_dependency s Hac
              (S (size (reachable_ids s id))) id l task)
    as (id' & l' & task' & _ & Hg' & Hs' & Hnone); [lia|done|done|].
  pose proof (mark_task_complete_succeeds now s id' l' task' Hg' Hs' Hnone)
    as Hret.
  destruct (mark_task_complete_pending now s id' l' Hc Hret)
    as (Hidx & Hpid & Hpend).
  set (s1 := st (mark_task_complete now s id')) in *.
  assert (pending_ids s1 = pending_ids s ∖ {[id']}) as Hp1.
  { apply set_eq. intros x. unfold pending_ids.
    rewrite elem_of_difference, !elem_of_filter, Hidx, Hpend, elem_of_singleton.
    case_decide; naive_solver. }
  assert (id' ∈ pending_ids s) as Hin.
  { apply elem_of_filter. split; [done|]. apply elem_of_dom.
    apply get_task_by_id_Some in Hg' as [-> _]. by eexists. }
  destruct (IH s1) as (ids & s' & Hall & Hnd & Hids & Hmap & Hempty).
  - by apply consistent_mark_task_complete.
  - eapply acyclic_subset; [|done]. apply edges_mark_task_complete.
  - rewrite Hp1, size_difference by set_solver. rewrite size_singleton.
    assert (size (pending_ids s) ≠ 0); [|lia].
    intros H0%size_empty_iff%leibniz_equiv. by rewrite H0 in Hin.
  - exists (id' :: ids), s'. simpl. rewrite Hret. split; [done|].
    split; [apply NoDup_cons; split; [|done]; rewrite Hids, Hp1; set_solver|].
    split; [|split; [congruence|done]].
    intros x. rewrite elem_of_cons, Hids, Hp1, elem_of_difference,
      elem_of_singleton.
    destruct (decide (x = id')); naive_solver.
Qed.

(** X21.  Every pending task can be completed: in a consistent registry
    without cycles there is an order of the pending tasks, each once,
    in which every call of [mark_task_complete] succeeds; afterwards the
    index has the same keys and every registered task is completed. *)
Theorem every_task_can_be_completed now s :
  consistent s → acyclic s →
  ∃ ids s', complete_all now s ids = Some s' ∧
            NoDup ids ∧ (∀ id, id ∈ ids ↔ id ∈ pending_ids s) ∧
            _task_map s' = _task_map s ∧
            ∀ id l t, get_task_by_id s' id = Some (l, t) → status t = Concluida.
Proof.
  intros Hc Hac.
  destruct (complete_all_exists now (size (pending_ids s)) s Hc Hac)
    as (ids & s' & H1 & H2 & H3 & H4 & H5); [done|].
  exists ids, s'. repeat (split; [done|]).
  intros id l t. by apply pending_ids_empty.
Qed.

End Verified.

(** * The theorems at work: sample registries on ASCII text *)

Section OnAscii.

#[local] Existing Instance ascii_text.

(** On the chain A → B → C the call that would close the cycle, C → A, is
    refused, and the graph stays free of cycles. *)
Lemma add_dependency_keeps_graph_acyclic_witness :
  add_dependency registry_chain "C" "A"
    = mkRes false [ErrCycle "C" "A"] registry_chain ∧
  acyclic (add_dependencies registry_chain [("C", "A"); ("A", "C")]).
Proof.
  assert (consistent registry_chain) as Hc.
  { apply (bool_decide_unpack _). vm_compute. exact I. }
  destruct (add_dependency_keeps_graph_acyclic registry_chain Hc)
    as (_ & Hcall & Hrun).
  split.
  - refine (proj1 (Hcall "C" "A" 2 (sample_task "C" Pendente []) _ _ _ _) _).
    + vm_compute. reflexivity.
    + eexists. vm_compute. reflexivity.
    + discriminate.
    + vm_compute. discriminate.
    + apply _check_circular_dependency_spec. vm_compute. reflexivity.
  - refine (Hrun _ [("C", "A"); ("A", "C")] 2).
    apply acyclicb_spec. vm_compute. reflexivity.
Defined.

(** A depends on B (completed) and C (pending): completing A fails, names
    C, and A stays pending. *)
Lemma mark_task_complete_iff_dependencies_complete_witness :
  let r := mark_task_complete 7 registry_blocked "A" in
  ret r = None ∧
  (∃ incomplete,
     last (out r) = Some (ErrIncompleteDependencies "A" incomplete) ∧
     ∀ d, d ∈ incomplete.*2 ↔
          pending_dependency registry_blocked
            (sample_task "A" Pendente ["B"; "C"]) d) ∧
  ∃ task', get_task_by_id (st r) "A" = Some (0, task') ∧
           status task' = Pendente ∧ completion_date task' = None ∧
           depends_on_ids task'
           = live_dependencies registry_blocked (sample_task "A" Pendente ["B"; "C"]).
Proof.
  refine (proj2 (proj2 (mark_task_complete_iff_dependencies_complete
                          7 registry_blocked "A" 0
                          (sample_task "A" Pendente ["B"; "C"]) _ _)) _).
  - vm_compute. reflexivity.
  - reflexivity.
  - vm_compute. discriminate.
Defined.

(** A and B are completed and B depends on A: reverting A is refused and
    B is named. *)
Lemma mark_task_pending_blocked_by_completed_dependents_witness :
  let r := mark_task_pending registry_done "A" in
  st r = registry_done ∧
  ∃ blocked, out r = [ErrWouldInvalidate "A" blocked] ∧
             ∀ other, other ∈ blocked.*2 ↔
                      other ≠ "A" ∧ completed_dependent registry_done "A" other.
Proof.
  refine (proj1 (proj2 (mark_task_pending_blocked_by_completed_dependents
                          registry_done "A" 0 (sample_task "A" Concluida [])
                          _ _ _ _)) _).
  - apply (bool_decide_unpack _). vm_compute. exact I.
  - vm_compute. reflexivity.
  - reflexivity.
  - vm_compute. discriminate.
  - vm_compute. reflexivity.
Defined.

(** C cannot be deleted from the chain A → B → C: B depends on it. *)
Lemma delete_task_guarded_witness :
  ∃ blocking,
    delete_task registry_chain "C"
      = mkRes (Returned false) [ErrHasDependents "C" blocking] registry_chain ∧
    ∀ other, other ∈ blocking ↔ dependent registry_chain "C" other.
Proof.
  refine (proj1 (proj2 (delete_task_guarded registry_chain "C" _)) _ _).
  - apply (bool_decide_unpack _). vm_compute. exact I.
  - eexists. vm_compute. reflexivity.
  - exists "B", 1, (sample_task "B" Pendente ["C"]).
    split; [vm_compute; reflexivity|]. apply (bool_decide_unpack _).
    vm_compute. exact I.
Defined.

(** Two equal ids that are not registered: the call reports that the task
    was not found, not a self dependency. *)
Lemma add_dependency_self_dependency_counterexample :
  "X" = "X" ∧
  add_dependency registry_empty "X" "X"
    = mkRes false [ErrNotFound "X"] registry_empty ∧
  ErrSelfDependency ∉ out (add_dependency registry_empty "X" "X").
Proof.
  split; [reflexivity|]. split; [vm_compute; reflexivity|].
  vm_compute. intros [=]%list_elem_of_singleton.
Qed.

(** A registered task cannot depend on itself. *)
Lemma add_dependency_cases_witness :
  add_dependency registry_chain "A" "A"
    = mkRes false [ErrSelfDependency] registry_chain.
Proof.
  refine (proj1 (proj2 (proj2 (add_dependency_cases registry_chain "A" "A" _))) _ _).
  - apply (bool_decide_unpack _). vm_compute. exact I.
  - eexists. vm_compute. reflexivity.
  - reflexivity.
Defined.

(** A is completed and was then made to depend on the pending B:
    completing A again prints the error about pending dependencies, not the
    notice, and returns [None] like a call on an unknown id. *)
Lemma mark_task_complete_already_complete_counterexample :
  (∃ l t, get_task_by_id registry_late_dependency "A" = Some (l, t) ∧
          status t = Concluida) ∧
  mark_task_complete 4 registry_late_dependency "A"
    = mkRes None [ErrIncompleteDependencies "A" [("b", "B")]]
        registry_late_dependency ∧
  (InfoAlreadyComplete "A"
     ∉ out (mark_task_complete 4 registry_late_dependency "A")) ∧
  ret (mark_task_complete 4 registry_late_dependency "A")
    = ret (mark_task_complete 4 registry_late_dependency "unknown").
Proof.
  split; [|split; [|split]].
  - eexists _, _. split; vm_compute; reflexivity.
  - vm_compute. reflexivity.
  - vm_compute. intros [=]%list_elem_of_singleton.
  - vm_compute. reflexivity.
Qed.

(** Reverting the pending task A changes nothing. *)
Lemma completion_transition_in_target_state_witness :
  mark_task_pending registry_chain "A"
    = mkRes None [InfoAlreadyPending "A"] registry_chain.
Proof.
  refine (proj1 (completion_transition_in_target_state
                   0 registry_chain "A" 0 (sample_task "A" Pendente ["B"]) _) _).
  - vm_compute. reflexivity.
  - reflexivity.
Defined.

(** The chain registry after completing C. *)
Lemma completion_date_iff_complete_witness :
  timestamps_ok (exec (λ _, None) (MarkTaskComplete 5 "C") registry_chain).
Proof.
  refine (proj2 (proj2 (proj2 (proj2 (proj2
            (completion_date_iff_complete (λ _, None))))))
            (MarkTaskComplete 5 "C") registry_chain _).
  apply (bool_decide_unpack _). vm_compute. exact I.
Defined.

(** Adding the project [" Work "] to A stores its normal form; any text
    with that normal form is then a no-op. *)
Lemma add_tag_idempotent_after_normalization_witness :
  let r := add_project_to_task registry_chain "A" " Work " in
  _normalize_tag " Work " = normalize_spec " Work " ∧
  ret r = true ∧
  get_task_by_id (st r) "A"
  = Some (0, set_tag_set "projeto"
               ({[_normalize_tag " Work "]}
                ∪ tag_set "projeto" (sample_task "A" Pendente ["B"]))
               (sample_task "A" Pendente ["B"])) ∧
  ∀ tag', _normalize_tag tag' = _normalize_tag " Work " →
    _add_tag_to_task (st r) "A" tag' "projeto"
    = mkRes true [InfoTagAlready "A" "projeto" (_normalize_tag " Work ")] (st r).
Proof.
  assert (get_task_by_id registry_chain "A"
          = Some (0, sample_task "A" Pendente ["B"])) as Hg
    by (vm_compute; reflexivity).
  pose proof (add_tag_idempotent_after_normalization
                registry_chain "A" 0 (sample_task "A" Pendente ["B"])
                " Work " "projeto" ascii_text_laws Hg) as H.
  split; [exact (proj1 H)|].
  apply (proj1 (proj2 (proj2 (proj2 (proj2 (proj2 H)))))).
  vm_compute. discriminate.
Defined.

(** A request with the dependencies A and Z, Z not registered. *)
Lemma add_task_validates_before_inserting_witness :
  add_task (λ _, None) "D" 9 registry_chain request_unknown_dependency
  = mkRes (Raised (DependencyNotFound "Z")) [] registry_chain.
Proof.
  refine (proj1 (proj1 (proj2 (proj2 (add_task_validates_before_inserting
                                        (λ _, None) "D" 9 registry_chain
                                        request_unknown_dependency)))
                   ["A"] "Z" [] _ _) _).
  - reflexivity.
  - apply Forall_singleton. split; [eexists; vm_compute; reflexivity|].
    rewrite <-_check_circular_dependency_spec. vm_compute. discriminate.
  - vm_compute. reflexivity.
Defined.

(** The id D is new to the chain registry. *)
Lemma add_task_cycle_branch_unreachable_witness :
  _check_circular_dependency registry_chain "D" "A" = false ∧
  ((∃ dep, dep ∈ default [] (n_depends_on_ids request_unknown_dependency) ∧
           _task_map registry_chain !! dep = None ∧
           DependencyNotFound "Z" = DependencyNotFound dep) ∨
   field_validation_error request_unknown_dependency (DependencyNotFound "Z")).
Proof.
  assert (_task_map registry_chain !! "D" = None) as Hfresh.
  { vm_compute. reflexivity. }
  assert (∀ id l t, get_task_by_id registry_chain id = Some (l, t) →
                    "D" ∉ depends_on_ids t) as Hnodep.
  { apply not_listed_anywhere. apply (bool_decide_unpack _). vm_compute. exact I. }
  destruct (add_task_cycle_branch_unreachable
              (λ _, None) "D" 9 registry_chain request_unknown_dependency
              Hfresh Hnodep) as (Hcheck & _ & Hfail).
  split; [apply Hcheck|]. apply Hfail. vm_compute. reflexivity.
Defined.

(** With B depending on A: B cannot be completed before A; once both are
    completed A cannot be reverted before B. *)
Example lifecycle_scenario :
  let r1 := mark_task_complete 3 registry_pair "B" in
  let r2 := mark_task_complete 4 (st r1) "A" in
  let r3 := mark_task_complete 5 (st r2) "B" in
  let r4 := mark_task_pending (st r3) "A" in
  let r5 := mark_task_pending (st r4) "B" in
  let r6 := mark_task_pending (st r5) "A" in
  (ret r1, out r1) = (None, [ErrIncompleteDependencies "B" [("a", "A")]]) ∧
  (ret r2, out r2) = (Some 0, []) ∧
  (ret r3, out r3) = (Some 1, []) ∧
  (ret r4, out r4) = (None, [ErrWouldInvalidate "A" [("b", "B")]]) ∧
  (ret r5, out r5) = (Some 1, []) ∧
  (ret r6, out r6) = (Some 0, []).
Proof. vm_compute. repeat split. Qed.

(** The edge from B to C is taken out of the chain A → B → C. *)
Lemma remove_dependency_cases_witness :
  let r := remove_dependency registry_chain "B" "C" in
  ret r = true ∧ out r = [InfoDependencyRemoved "B" "C"] ∧
  (∀ a b, edge (st r) a b ↔
          edge registry_chain a b ∧ ¬ (a = "B" ∧ b = "C")) ∧
  consistent (st r) ∧ (acyclic registry_chain → acyclic (st r)).
Proof.
  refine (proj2 (proj2 (remove_dependency_cases registry_chain "B" "C" _)) _).
  - apply (bool_decide_unpack _). vm_compute. exact I.
  - exists 1, (sample_task "B" Pendente ["C"]).
    split; [vm_compute; reflexivity|]. apply (bool_decide_unpack _).
    vm_compute. exact I.
Defined.

(** In the chain A → B → C, A is made to depend on C as well and the new
    edge is removed again. *)
Lemma add_then_remove_dependency_witness :
  remove_dependency (st (add_dependency registry_chain "A" "C")) "A" "C"
  = mkRes true [InfoDependencyRemoved "A" "C"] registry_chain.
Proof.
  apply add_then_remove_dependency. vm_compute. reflexivity.
Defined.

(** A context is added to A and removed under another spelling. *)
Lemma add_then_remove_tag_witness :
  _remove_tag_from_task
    (st (_add_tag_to_task registry_chain "A" "At  Home" "contexto"))
    "A" "At  Home" "contexto"
  = mkRes true [InfoTagRemoved "A" "contexto" (_normalize_tag "At  Home")]
      registry_chain.
Proof.
  apply add_then_remove_tag. vm_compute. reflexivity.
Defined.

(** With B depending on A and both pending, A is completed and reverted. *)
Lemma complete_then_revert_witness :
  mark_task_pending (st (mark_task_complete 7 registry_pair "A")) "A"
  = mkRes (Some 0) [] registry_pair.
Proof.
  eapply (complete_then_revert 7 registry_pair "A" 0).
  - apply (bool_decide_unpack _). vm_compute. exact I.
  - vm_compute. reflexivity.
  - reflexivity.
  - reflexivity.
  - vm_compute. reflexivity.
  - apply no_completed_dependent_heap. apply (bool_decide_unpack _).
    vm_compute. exact I.
  - vm_compute. reflexivity.
Defined.

(** A task D depending on A is added to the chain A → B → C. *)
Lemma every_call_keeps_registry_invariants_witness :
  let s' := exec (λ _, None)
              (AddTask "D" 9 (mkNewTask "d" "" None "Alta" "Geral" None
                                (Some ["A"]) None None))
              registry_chain in
  consistent s' ∧ acyclic s' ∧
  ∀ id l t, get_task_by_id s' id = Some (l, t) → id ∉ depends_on_ids t.
Proof.
  apply every_call_keeps_registry_invariants.
  - apply (bool_decide_unpack _). vm_compute. exact I.
  - apply acyclicb_spec. vm_compute. reflexivity.
  - intros uuid now n [= <- <- <-]. split; [vm_compute; reflexivity|].
    apply not_listed_anywhere. apply (bool_decide_unpack _). vm_compute. exact I.
Defined.

(** A new title for A comes with a priority that does not exist. *)
Lemma update_task_not_atomic_witness :
  let r := update_task (λ _, None) 5 registry_chain "A"
             (mkUpdates (Some "renamed") None None (Some "Urgent")
                None None None None None None) in
  ret r = Raised (InvalidPriority "Urgent") ∧
  out r = [ErrUpdate (InvalidPriority "Urgent")] ∧
  get_task_by_id (st r) "A"
  = Some (0, set_description "" (set_title "renamed" (sample_task "A" Pendente ["B"]))).
Proof.
  refine (update_task_not_atomic (λ _, None) 5 registry_chain "A" 0
            (sample_task "A" Pendente ["B"])
            (mkUpdates (Some "renamed") None None (Some "Urgent")
               None None None None None None)
            "renamed" "Urgent" _ _ _ _ _ _ _).
  - vm_compute. reflexivity.
  - reflexivity.
  - discriminate.
  - reflexivity.
  - reflexivity.
  - vm_compute. reflexivity.
  - discriminate.
Defined.

(** An edit of A that asks for new dependencies and projects. *)
Lemma update_task_keeps_identity_witness :
  ∃ task',
    get_task_by_id
      (st (update_task (λ _, None) 5 registry_chain "A"
             (mkUpdates None None None None None None None
                (Some (Some ["C"])) (Some (Some ["p"])) None))) "A"
    = Some (0, task') ∧
    task_id task' = "A" ∧ creation_date task' = 0 ∧
    projects task' = ∅ ∧ contexts task' = ∅ ∧
    (depends_on_ids task' = depends_on_ids (sample_task "A" Pendente ["B"]) ∨
     depends_on_ids task'
     = live_dependencies registry_chain (sample_task "A" Pendente ["B"])).
Proof.
  refine (update_task_keeps_identity (λ _, None) 5 registry_chain "A" _ 0
            (sample_task "A" Pendente ["B"]) _).
  vm_compute. reflexivity.
Defined.

(** A and B are completed and B depends on A: an edit reverts A all the
    same. *)
Lemma update_task_status_paths_witness :
  update_task (λ _, None) 5 registry_done "A"
    (mkUpdates None None None None None (Some "Pendente") None None None None)
  = mkRes (Returned (Some 0)) []
      (store registry_done 0 (mark_pending (sample_task "A" Concluida []))).
Proof.
  refine (proj2 (proj2 (update_task_status_paths (λ _, None) 5 registry_done
                          "A" 0 (sample_task "A" Concluida []) _)) _).
  - vm_compute. reflexivity.
  - reflexivity.
Defined.

(** The completed sample task A, with the sample codecs. *)
Lemma from_dict_to_dict_witness :
  from_dict sample_fromisoformat sample_strptime "fresh" 9
    (to_dict sample_date_isoformat sample_datetime_isoformat
       (sample_task "A" Concluida ["B"]))
  = inr (sample_task "A" Concluida ["B"]).
Proof.
  apply from_dict_to_dict.
  - intros d. change (Some (count_strokes (strokes d)) = Some d).
    by rewrite count_strokes_strokes.
  - discriminate.
  - intros d. change (Some (count_strokes (strokes d)) = Some d).
    by rewrite count_strokes_strokes.
  - discriminate.
  - apply (bool_decide_unpack _). vm_compute. exact I.
Defined.


(** Four tasks listed under three keys, and the overdue ones on day 8. *)
Example list_tasks_sample :
  let all := mkFilters None None None None None None None in
  task_id <$> list_tasks 8 registry_listing all "due_date" = ["c"; "b"; "d"; "a"] ∧
  task_id <$> list_tasks 8 registry_listing all "priority" = ["d"; "a"; "c"; "b"] ∧
  task_id <$> list_tasks 8 registry_listing all "creation_date" = ["c"; "b"; "d"; "a"] ∧
  task_id <$> list_tasks 8 registry_listing
                (mkFilters None None None (Some "vencidas") None None None)
                "due_date" = ["d"].
Proof. vm_compute. repeat split. Qed.

Lemma add_then_delete_task_witness :
  let n := mkNewTask "d" "" None "Alta" "Geral" None (Some ["A"]) None None in
  let s1 := st (add_task (λ _, None) "D" 9 registry_chain n) in
  delete_task s1 "D" =
    mkRes (Returned true) []
      (mkTM (heap s1) (tasks registry_chain) (_task_map registry_chain)) ∧
  all_tasks (st (delete_task s1 "D")) = all_tasks registry_chain.
Proof.
  refine (add_then_delete_task (λ _, None) "D" 9 registry_chain
            (mkNewTask "d" "" None "Alta" "Geral" None (Some ["A"]) None None)
            3 _ _ _ _).
  - apply (bool_decide_unpack _). vm_compute. exact I.
  - vm_compute. reflexivity.
  - apply (bool_decide_unpack _). vm_compute. exact I.
  - vm_compute. reflexivity.
Defined.

(** ** The normal form, on ASCII text *)



(** In the chain A → B → C of pending tasks, C is the one to start with. *)
Lemma some_pending_task_can_be_completed_witness :
  ∃ id' l' task',
    rtc (edge registry_chain) "A" id' ∧
    get_task_by_id registry_chain id' = Some (l', task') ∧
    status task' = Pendente ∧
    ret (mark_task_complete 5 registry_chain id') = Some l'.
Proof.
  apply (some_pending_task_can_be_completed 5 registry_chain "A" 0
           (sample_task "A" Pendente ["B"])).
  - apply acyclicb_spec. vm_compute. reflexivity.
  - vm_compute. reflexivity.
  - reflexivity.
Defined.

(** The chain A → B → C of pending tasks. *)
Lemma every_task_can_be_completed_witness :
  ∃ ids s', complete_all 5 registry_chain ids = Some s' ∧
            NoDup ids ∧ (∀ id, id ∈ ids ↔ id ∈ pending_ids registry_chain) ∧
            _task_map s' = _task_map registry_chain ∧
            ∀ id l t, get_task_by_id s' id = Some (l, t) → status t = Concluida.
Proof.
  apply (every_task_can_be_completed 5 registry_chain).
  - apply (bool_decide_unpack _). vm_compute. exact I.
  - apply acyclicb_spec. vm_compute. reflexivity.
Defined.

(** The project [" Casa  NOVA "] is added to A in the chain: its tags are
    in normal form afterwards, as are those of B and C. *)
Lemma tags_stay_normalized_witness :
  normalize_tags (Some [""; "  "; " Casa  NOVA "]) = [""; "casa nova"] ∧
  Forall tags_normal
    (heap (exec (λ _, None) (AddProject "A" " Casa  NOVA ") registry_chain)).
Proof.
  pose proof (tags_stay_normalized (λ _, None) ascii_text_laws)
    as (_ & Hsample & Hexec).
  split; [exact Hsample|]. apply Hexec.
  unfold registry_chain, TaskManager_init. simpl.
  repeat (apply Forall_cons; split); [..|apply Forall_nil];
    unfold tags_normal; simpl; set_solver.
Defined.

End OnAscii.
